(** * mnehmos.rpg.mcp: tool handlers and repositories

    A shallow embedding of the inventory repository
    (src/storage/repos/inventory.repo.ts), the combat tool handlers
    (src/server/combat-tools.ts), the theft handlers
    (src/server/consolidated/theft-manage.ts) and the improvisation
    handlers (src/server/consolidated/improvisation-manage.ts), with the
    properties the specification states about them.

    Integers are [Z], JavaScript numbers that may be fractional are [Q]
    (rounded to binary64 after each operation where a comparison between
    two computed numbers decides the result), tables with a primary key are
    [gmap]s from the key to the row, JavaScript objects whose key order
    shows in the output are association lists. *)

From Stdlib Require Import ZArith QArith Qround Qminmax Qpower String Ascii List Lia Lqa.
From stdpp Require Import gmap strings pretty sorting.

Local Open Scope Z_scope.

(** ** Inventory repository (inventory.repo.ts) *)

Module Inventory.

(** A row of [inventory_items] (migrations.ts): primary key
    [(character_id, item_id)], [quantity INTEGER DEFAULT 1],
    [equipped INTEGER DEFAULT 0], [slot TEXT] (nullable). *)
Record InvRow : Type := mkRow {
  quantity : Z;
  equipped : Z;
  slot : option string
}.

#[global] Instance InvRow_eq_dec : EqDecision InvRow.
Proof. solve_decision. Defined.

Abbreviation Table := (gmap (string * string) InvRow).

(** The connection.  [rows] is what the connection itself reads;
    [committed] lists, newest first, the snapshots that became visible to
    other readers of the database file. *)
Record Conn : Type := mkConn {
  rows : Table;
  committed : list Table
}.

Definition open_db : Conn := mkConn ∅ [].

(** [stmt.run(...)] for a write statement whose effect on the table is [w]:
    outside a transaction the statement commits on its own. *)
Definition stmt_run (w : Table -> Table) (c : Conn) : Conn :=
  let t := w (rows c) in mkConn t (t :: committed c).

(** [db.transaction(fn)()]: BEGIN, the closure, COMMIT.  The closure runs
    its statements on the open transaction; what they write stays private
    to it, and only the table the closure ends with is committed.  This
    module holds [inventory_items] alone, so it describes the calls whose
    statements all run; the foreign keys to [characters] and [items], the
    statement that fails on them and the ROLLBACK are in [ForeignKeys]
    below. *)
Definition transaction (body : Conn -> Conn) (c : Conn) : Conn :=
  let c' := body (mkConn (rows c) []) in
  mkConn (rows c') (rows c' :: committed c).

(** The SQL statements of the repository, as functions on the table. *)

(** [DELETE FROM inventory_items WHERE character_id = ? AND item_id = ?] *)
Definition sql_delete (cid iid : string) (t : Table) : Table :=
  delete (cid, iid) t.

(** [UPDATE inventory_items SET quantity = quantity - ? WHERE character_id = ? AND item_id = ?] *)
Definition sql_decrement (q : Z) (cid iid : string) (t : Table) : Table :=
  alter (fun r => mkRow (quantity r - q) (equipped r) (slot r)) (cid, iid) t.

(** [INSERT INTO inventory_items (character_id, item_id, quantity) VALUES (?, ?, ?)
     ON CONFLICT(character_id, item_id) DO UPDATE SET quantity = quantity + excluded.quantity] *)
Definition sql_upsert (cid iid : string) (q : Z) (t : Table) : Table :=
  match t !! (cid, iid) with
  | None => <[(cid, iid) := mkRow q 0 None]> t
  | Some r => <[(cid, iid) := mkRow (quantity r + q) (equipped r) (slot r)]> t
  end.

(** [UPDATE inventory_items SET equipped = 0, slot = NULL WHERE character_id = ? AND slot = ?] *)
Definition sql_unequip_slot (cid s : string) (t : Table) : Table :=
  map_imap (fun k r =>
    Some (if decide (k.1 = cid /\ slot r = Some s)
          then mkRow (quantity r) 0 None else r)) t.

(** [UPDATE inventory_items SET equipped = 1, slot = ? WHERE character_id = ? AND item_id = ?] *)
Definition sql_equip (s cid iid : string) (t : Table) : Table :=
  alter (fun r => mkRow (quantity r) 1 (Some s)) (cid, iid) t.

(** [UPDATE inventory_items SET equipped = 0, slot = NULL WHERE character_id = ? AND item_id = ?] *)
Definition sql_unequip (cid iid : string) (t : Table) : Table :=
  alter (fun r => mkRow (quantity r) 0 None) (cid, iid) t.

(** The repository methods.  [addItem] and [transferItem] are given here
    for the calls whose INSERT runs; [ForeignKeys.addItem] and
    [ForeignKeys.transferItem] give them with the foreign keys enforced,
    and return what these return whenever they return. *)

Definition addItem (characterId itemId : string) (q : Z) (c : Conn) : Conn :=
  stmt_run (sql_upsert characterId itemId q) c.

Definition removeItem (characterId itemId : string) (q : Z) (c : Conn)
  : bool * Conn :=
  match rows c !! (characterId, itemId) with
  | None => (false, c)
  | Some row =>
      if quantity row <? q then (false, c)
      else if quantity row =? q
           then (true, stmt_run (sql_delete characterId itemId) c)
           else (true, stmt_run (sql_decrement q characterId itemId) c)
  end.

Definition equipItem (characterId itemId s : string) (c : Conn) : Conn :=
  (* First, unequip anything in that slot *)
  let c1 := stmt_run (sql_unequip_slot characterId s) c in
  (* Then equip the new item *)
  stmt_run (sql_equip s characterId itemId) c1.

Definition unequipItem (characterId itemId : string) (c : Conn) : Conn :=
  stmt_run (sql_unequip characterId itemId) c.

Definition findItemOwners (itemId : string) (c : Conn) : list string :=
  (fun kr => (fst kr).1) <$>
    filter (fun kr => (fst kr).2 = itemId) (map_to_list (rows c)).

Definition transferItem (fromCharacterId toCharacterId itemId : string)
    (q : Z) (c : Conn) : bool * Conn :=
  (* Verify source has enough *)
  match rows c !! (fromCharacterId, itemId) with
  | None => (false, c)
  | Some row =>
      if quantity row <? q then (false, c)
      (* Can't transfer equipped items *)
      else if negb (equipped row =? 0) then (false, c)
      else
        (* Use transaction for atomicity *)
        let transfer := transaction (fun c0 =>
          (* Remove from source *)
          let c1 := if quantity row =? q
                    then stmt_run (sql_delete fromCharacterId itemId) c0
                    else stmt_run (sql_decrement q fromCharacterId itemId) c0 in
          (* Add to destination *)
          stmt_run (sql_upsert toCharacterId itemId q) c1) in
        (true, transfer c)
  end.

(** Calls of the repository, to run sequences of them. *)
Inductive Call : Type :=
| CallAdd (characterId itemId : string) (q : Z)
| CallRemove (characterId itemId : string) (q : Z)
| CallEquip (characterId itemId s : string)
| CallUnequip (characterId itemId : string)
| CallTransfer (fromCharacterId toCharacterId itemId : string) (q : Z).

Definition call (k : Call) (c : Conn) : Conn :=
  match k with
  | CallAdd cid iid q => addItem cid iid q c
  | CallRemove cid iid q => snd (removeItem cid iid q c)
  | CallEquip cid iid s => equipItem cid iid s c
  | CallUnequip cid iid => unequipItem cid iid c
  | CallTransfer f t iid q => snd (transferItem f t iid q c)
  end.

Definition calls (ks : list Call) (c : Conn) : Conn :=
  fold_left (fun acc k => call k acc) ks c.

(** The invariant of the data model: an equipped entry has a slot, and two
    equipped entries of one character never share a slot. *)
Definition equipped_has_slot (t : Table) : Prop :=
  forall cid iid r,
    t !! (cid, iid) = Some r -> equipped r <> 0 -> is_Some (slot r).

Definition one_per_slot (t : Table) : Prop :=
  forall cid i1 i2 r1 r2,
    t !! (cid, i1) = Some r1 -> t !! (cid, i2) = Some r2 ->
    equipped r1 <> 0 -> equipped r2 <> 0 ->
    slot r1 = slot r2 -> i1 = i2.

Definition equip_invariant (t : Table) : Prop :=
  equipped_has_slot t /\ one_per_slot t.

(** What the specification says of a transfer that is refused. *)
Definition transfer_refused (src : option InvRow) (q : Z) : Prop :=
  src = None \/ exists r, src = Some r /\ (quantity r < q \/ equipped r <> 0).

End Inventory.

(** ** The inventory repository with its foreign keys enforced

    [inventory_items] declares [FOREIGN KEY(character_id) REFERENCES
    characters(id)] and [FOREIGN KEY(item_id) REFERENCES items(id)]
    (migrations.ts), and better-sqlite3 enforces foreign keys.  The two
    methods that insert a row, [addItem] and [transferItem], are given here
    on a database that holds the parent tables too: the INSERT of a row whose
    character or item is not stored throws, and a transaction whose closure
    throws is rolled back. *)

Module ForeignKeys.
Import Inventory.

(** The database: the connection's [inventory_items], and the ids stored
    in [characters] and in [items], which this repository never writes. *)
Record Db : Type := mkDb {
  conn : Conn;
  characterIds : gset string;
  itemIds : gset string
}.

Definition with_conn (db : Db) (c : Conn) : Db :=
  mkDb c (characterIds db) (itemIds db).

(** What a call does: it returns a value, or throws the SqliteError of
    code SQLITE_CONSTRAINT_FOREIGNKEY. *)
Inductive Outcome (A : Type) : Type :=
| Returned (a : A)
| ForeignKeyViolation.
Arguments Returned {A} a.
Arguments ForeignKeyViolation {A}.

(** Whether the upsert runs on table [t]: on a conflict it updates the
    quantity of the row there is, which touches no key; without one it
    inserts a row, whose character and item must be stored. *)
Definition upsert_allowed (db : Db) (cid iid : string) (t : Table) : bool :=
  bool_decide (is_Some (t !! (cid, iid)))
  || (bool_decide (cid ∈ characterIds db) && bool_decide (iid ∈ itemIds db)).

(** [stmt.run(...)] for the upsert: the connection after it, or nothing
    when the statement throws (it then writes nothing). *)
Definition run_upsert (db : Db) (cid iid : string) (q : Z) (c : Conn)
  : option Conn :=
  if upsert_allowed db cid iid (rows c)
  then Some (stmt_run (sql_upsert cid iid q) c)
  else None.

(** [db.transaction(fn)()]: BEGIN, the closure, COMMIT; when the closure
    throws, ROLLBACK, and the error is thrown on: nothing of what the
    closure wrote is kept or committed. *)
Definition transaction (body : Conn -> option Conn) (c : Conn)
  : option Conn :=
  match body (mkConn (rows c) []) with
  | Some c' => Some (mkConn (rows c') (rows c' :: committed c))
  | None => None
  end.

Definition addItem (characterId itemId : string) (q : Z) (db : Db)
  : Outcome unit * Db :=
  match run_upsert db characterId itemId q (conn db) with
  | Some c' => (Returned tt, with_conn db c')
  | None => (ForeignKeyViolation, db)
  end.

Definition transferItem (fromCharacterId toCharacterId itemId : string)
    (q : Z) (db : Db) : Outcome bool * Db :=
  (* Verify source has enough *)
  match rows (conn db) !! (fromCharacterId, itemId) with
  | None => (Returned false, db)
  | Some row =>
      if quantity row <? q then (Returned false, db)
      (* Can't transfer equipped items *)
      else if negb (equipped row =? 0) then (Returned false, db)
      else
        (* Use transaction for atomicity *)
        let transfer := transaction (fun c0 =>
          (* Remove from source *)
          let c1 := if quantity row =? q
                    then stmt_run (sql_delete fromCharacterId itemId) c0
                    else stmt_run (sql_decrement q fromCharacterId itemId) c0 in
          (* Add to destination *)
          run_upsert db toCharacterId itemId q c1) in
        match transfer (conn db) with
        | Some c' => (Returned true, with_conn db c')
        | None => (ForeignKeyViolation, db)
        end
  end.

(** A database in which the given characters and items are stored and
    nobody holds anything yet. *)
Definition stocked (characters items : list string) : Db :=
  mkDb open_db (list_to_set characters) (list_to_set items).

End ForeignKeys.

(** ** Results of a tool handler *)

(** A handler either returns a payload or throws.  The text a handler
    formats for the chat is not modelled; the payload carries the values
    the text is built from. *)
Inductive Thrown : Type :=
| EncounterNotFound (encounterId : string)  (* `Encounter ${id} not found.` *)
| EncounterNotInDatabase (encounterId : string)
| NoActiveEncounter
| AttackNeedsParams   (* 'Attack action requires attackBonus, dc, and damage' *)
| HealNeedsAmount     (* 'Heal action requires amount' *)
| EngineThrew
| InvalidDiceNotation.

Inductive Result (A : Type) : Type :=
| Ok (a : A)
| Throw (e : Thrown).
Arguments Ok {A} a.
Arguments Throw {A} e.

(** ** Characters *)

Module Characters.

(** A character record, with the fields the handlers read or write. *)
Record Character : Type := mkCharacter {
  c_name : string;
  c_stats : gmap string Z;
  c_hp : Z;
  c_maxHp : Z;
  c_level : Z;
  c_knownSpells : option (list string)
}.

Abbreviation CharacterTable := (gmap string Character).

(** Modelled from the spec: [CharacterRepository.findById]
    of storage/repos/character.repo.ts.  The repository is a typed CRUD over
    the [characters] table, keyed by id; a missing id gives no character. *)
Definition findById (id : string) (t : CharacterTable) : option Character :=
  t !! id.

(** Modelled from the spec: [CharacterRepository.update(id, { hp })], the
    write of the hp field of the stored record with that id; an id that is
    not stored is left absent. *)
Definition update_hp (id : string) (hp : Z) (t : CharacterTable)
  : CharacterTable :=
  alter (fun ch => mkCharacter (c_name ch) (c_stats ch) hp (c_maxHp ch)
                     (c_level ch) (c_knownSpells ch)) id t.

End Characters.

(** ** Combat tool handlers (combat-tools.ts) *)

Module Combat.
Import Characters.

(** [CombatParticipant] of the engine, as the handlers read it. *)
Record Participant : Type := mkParticipant {
  p_id : string;
  p_name : string;
  p_initiativeBonus : Z;
  p_initiative : Z;
  p_isEnemy : bool;
  p_hp : Z;
  p_maxHp : Z
}.

Record CombatState : Type := mkCombatState {
  participants : list Participant;
  turnOrder : list string;
  currentTurnIndex : nat;
  round : Z
}.

(** One entry of [syncResults] in [handleEndEncounter]. *)
Record SyncResult : Type := mkSync {
  s_id : string;
  s_name : string;
  s_hp : Z;
  s_synced : bool
}.

Inductive CombatAction : Type := attack | heal.

(** The parsed input of [execute_combat_action]. *)
Record ActionArgs : Type := mkActionArgs {
  a_encounterId : string;
  a_action : CombatAction;
  a_actorId : string;
  a_targetId : string;
  a_attackBonus : option Z;
  a_dc : option Z;
  a_damage : option Z;
  a_amount : option Z
}.

(** `${ctx.sessionId}:${parsed.encounterId}` *)
Definition namespaced (sessionId encounterId : string) : string :=
  (sessionId ++ ":" ++ encounterId)%string.

(** The write-back loop of [handleEndEncounter]: for each participant, in
    order, look the id up in the character table; when a character is
    found its hp is overwritten. *)
Definition sync_participant (acc : CharacterTable * list SyncResult)
    (p : Participant) : CharacterTable * list SyncResult :=
  let '(chars, syncResults) := acc in
  match findById (p_id p) chars with
  | Some _ =>
      (* Sync HP back to character record *)
      (update_hp (p_id p) (p_hp p) chars,
       syncResults ++ [mkSync (p_id p) (p_name p) (p_hp p) true])
  | None =>
      (* Ad-hoc participant (not in DB) - skip silently *)
      (chars, syncResults ++ [mkSync (p_id p) (p_name p) (p_hp p) false])
  end.

Definition sync_all (ps : list Participant) (chars : CharacterTable)
  : CharacterTable * list SyncResult :=
  fold_left sync_participant ps (chars, []).

Section Handlers.

(** The combat engine (engine/combat/engine.ts) is an object with private
    state; the handlers only call its methods.  It is taken as a parameter:
    a type of engine values and the methods the handlers call, each
    returning the engine as the call left it. *)
Context {Engine ActionResult : Type}.
(** [new CombatEngine(seed, pubsub)] *)
Variable newEngine : string -> Engine.
(** [engine.loadState(state)] *)
Variable loadState : CombatState -> Engine -> Engine.
(** [engine.getState()], [null] when no encounter is running *)
Variable getState : Engine -> option CombatState.
(** [engine.getCurrentParticipant()] *)
Variable getCurrentParticipant : Engine -> option Participant.
(** [engine.executeAttack(actorId, targetId, attackBonus, dc, damage)];
    no result when the engine throws *)
Variable executeAttack :
  string -> string -> Z -> Z -> Z -> Engine -> option ActionResult * Engine.
(** [engine.executeHeal(actorId, targetId, amount)] *)
Variable executeHeal :
  string -> string -> Z -> Engine -> option ActionResult * Engine.
(** [engine.nextTurnWithConditions()] *)
Variable nextTurnWithConditions : Engine -> Engine.

(** Modelled from the spec: the stores the handlers reach.  The combat
    manager of state/combat-manager.ts is an in-memory map from
    [sessionId:encounterId] to the engine ([get], [create], [delete]); the
    [EncounterRepository] of storage/repos/encounter.repo.ts keeps one
    snapshot per encounter id ([saveState], [loadState]); the characters are
    the table of [CharacterRepository]. *)
Record Server : Type := mkServer {
  combatManager : gmap string Engine;
  encounters : gmap string CombatState;
  characters : CharacterTable
}.

(** The block "Auto-load from database if not in memory", which
    [handleGetEncounterState], [handleExecuteCombatAction] and
    [handleAdvanceTurn] each carry verbatim. *)
Definition engine_or_autoload (sessionId encounterId : string) (w : Server)
  : Result (Engine * Server) :=
  match combatManager w !! namespaced sessionId encounterId with
  | Some engine => Ok (engine, w)
  | None =>
      match encounters w !! encounterId with
      | None => Throw (EncounterNotFound encounterId)
      | Some state =>
          let engine := loadState state (newEngine encounterId) in
          Ok (engine,
              mkServer
                (<[namespaced sessionId encounterId := engine]> (combatManager w))
                (encounters w) (characters w))
      end
  end.

(** The engine is an object shared with the manager: what a method call
    did to it is what the manager holds afterwards. *)
Definition store_engine (sessionId encounterId : string) (engine : Engine)
    (w : Server) : Server :=
  mkServer (<[namespaced sessionId encounterId := engine]> (combatManager w))
           (encounters w) (characters w).

(** [repo.saveState(encounterId, state)] when the engine has a state *)
Definition save_state (encounterId : string) (engine : Engine) (w : Server)
  : Server :=
  match getState engine with
  | Some state =>
      mkServer (combatManager w) (<[encounterId := state]> (encounters w))
               (characters w)
  | None => w
  end.

(** The handlers, by what they do to the engine, the snapshots and the
    characters, and the state or error they answer with.  The text of the
    answer is not part of the result here: [handleAdvanceTurn] and
    [handleLoadEncounter] build it with [formatCombatStateText], which
    throws after these writes when [createHpBar] (see [CombatView]) is given
    a percentage of 105 or more. *)
Definition handleGetEncounterState (sessionId encounterId : string)
    (w : Server) : Result (string * CombatState) * Server :=
  match engine_or_autoload sessionId encounterId w with
  | Throw e => (Throw e, w)
  | Ok (engine, w1) =>
      match getState engine with
      | None => (Throw NoActiveEncounter, w1)
      | Some state => (Ok (encounterId, state), w1)
      end
  end.

Definition handleExecuteCombatAction (sessionId : string) (args : ActionArgs)
    (w : Server) : Result (ActionResult * option CombatState) * Server :=
  let eid := a_encounterId args in
  match engine_or_autoload sessionId eid w with
  | Throw e => (Throw e, w)
  | Ok (engine, w1) =>
      let run (r : option ActionResult * Engine) :=
        let w2 := store_engine sessionId eid (snd r) w1 in
        match fst r with
        | None => (Throw EngineThrew, w2)
        | Some result =>
            (* Save state *)
            (Ok (result, getState (snd r)), save_state eid (snd r) w2)
        end in
      match a_action args with
      | attack =>
          match a_attackBonus args, a_dc args, a_damage args with
          | Some attackBonus, Some dc, Some damage =>
              run (executeAttack (a_actorId args) (a_targetId args)
                     attackBonus dc damage engine)
          | _, _, _ => (Throw AttackNeedsParams, w1)
          end
      | heal =>
          match a_amount args with
          | Some amount =>
              run (executeHeal (a_actorId args) (a_targetId args) amount engine)
          | None => (Throw HealNeedsAmount, w1)
          end
      end
  end.

Definition handleAdvanceTurn (sessionId encounterId : string) (w : Server)
  : Result (option Participant * option CombatState) * Server :=
  match engine_or_autoload sessionId encounterId w with
  | Throw e => (Throw e, w)
  | Ok (engine, w1) =>
      let previousParticipant := getCurrentParticipant engine in
      let engine' := nextTurnWithConditions engine in
      let w2 := store_engine sessionId encounterId engine' w1 in
      (Ok (previousParticipant, getState engine'),
       save_state encounterId engine' w2)
  end.

Definition handleEndEncounter (sessionId encounterId : string) (w : Server)
  : Result (list SyncResult) * Server :=
  let namespacedId := namespaced sessionId encounterId in
  (* Get the engine BEFORE deleting to access final state *)
  match combatManager w !! namespacedId with
  | None => (Throw (EncounterNotFound encounterId), w)
  | Some engine =>
      let '(chars, syncResults) :=
        match getState engine with
        | Some finalState => sync_all (participants finalState) (characters w)
        | None => (characters w, [])
        end in
      (* Now delete the encounter from memory *)
      (Ok syncResults,
       mkServer (delete namespacedId (combatManager w)) (encounters w) chars)
  end.

Definition handleLoadEncounter (sessionId encounterId : string) (w : Server)
  : Result (string * CombatState) * Server :=
  match encounters w !! encounterId with
  | None => (Throw (EncounterNotInDatabase encounterId), w)
  | Some state =>
      let engine := loadState state (newEngine encounterId) in
      (Ok (encounterId, state), store_engine sessionId encounterId engine w)
  end.

End Handlers.

(** The last participant of [ps] carrying the id [id], if any. *)
Definition last_with_id (id : string) (ps : list Participant)
  : option Participant :=
  last (filter (fun p => p_id p = id) ps).

(** [ch] with its hp replaced. *)
Definition with_hp (hp : Z) (ch : Character) : Character :=
  mkCharacter (c_name ch) (c_stats ch) hp (c_maxHp ch) (c_level ch)
              (c_knownSpells ch).

(** The write-back property of the specification: every participant whose
    id is the id of a stored character finds its own final hp in the
    stored record. *)
Definition hp_written_back (final : CombatState)
    (before after : CharacterTable) : Prop :=
  forall p, p ∈ participants final ->
    forall ch, before !! p_id p = Some ch ->
      after !! p_id p = Some (with_hp (p_hp p) ch).

(** Ad-hoc participants are skipped: an id that is not stored stays absent,
    and a stored character that is no participant is left as it was. *)
Definition others_untouched (final : CombatState)
    (before after : CharacterTable) : Prop :=
  forall id,
    before !! id = None \/ id ∉ p_id <$> participants final ->
    after !! id = before !! id.

(** A stand-in for the engine where the handlers are run on concrete
    inputs: a value that only holds the snapshot it was loaded with.  It has
    no dice, so its actions throw and leave the snapshot as it is. *)
Definition snapshot_new (seed : string) : option CombatState := None.
Definition snapshot_load (state : CombatState) (e : option CombatState)
  : option CombatState := Some state.
Definition snapshot_get (e : option CombatState) : option CombatState := e.
Definition snapshot_current (e : option CombatState) : option Participant :=
  match e with
  | Some st =>
      match turnOrder st !! currentTurnIndex st with
      | Some id => List.find (fun p => String.eqb (p_id p) id) (participants st)
      | None => None
      end
  | None => None
  end.
Definition snapshot_attack (actorId targetId : string) (attackBonus dc dmg : Z)
    (e : option CombatState) : option unit * option CombatState := (None, e).
Definition snapshot_heal (actorId targetId : string) (amount : Z)
    (e : option CombatState) : option unit * option CombatState := (None, e).
Definition snapshot_next (e : option CombatState) : option CombatState := e.

End Combat.

(** ** Random numbers *)

Module Random.

(** A generator ([Math.random], or the function [seedrandom(seed)]
    returns): the sequence of numbers in [0, 1) it will give, and how many
    were drawn so far. *)
Record Rng : Type := mkRng {
  draws : nat -> Q;
  drawn : nat
}.

(** One call [rng()]. *)
Definition random (g : Rng) : Q * Rng :=
  (draws g (drawn g), mkRng (draws g) (S (drawn g))).

(** [Math.floor(rng() * sides) + 1] *)
Definition roll_die (sides : Z) (g : Rng) : Z * Rng :=
  let '(x, g') := random g in
  (Qfloor (x * inject_Z sides) + 1, g').

(** [x < y] on JavaScript numbers *)
Definition Qltb (x y : Q) : bool := negb (Qle_bool y x).

(** [Math.min(x, y)] *)
Definition Qmin' (x y : Q) : Q := if Qle_bool x y then x else y.

End Random.

(** ** JavaScript numbers: rounding to binary64

    A JavaScript number is an IEEE 754 binary64, and every arithmetic
    operation returns the binary64 nearest to the exact result, a tie going
    to the even significand.  [binary64] is that rounding on the rationals,
    for results in the normal range (no overflow, no subnormal). *)

Module Float64.

(** The nearest integer, a tie going to the even one. *)
Definition round_half_even (x : Q) : Z :=
  let f := Qfloor x in
  match (x - inject_Z f ?= 1 # 2)%Q with
  | Lt => f
  | Gt => f + 1
  | Eq => if Z.even f then f else f + 1
  end.

Definition pow2 (e : Z) : Q := ((2 # 1) ^ e)%Q.

(** [floor(log2 x)] for a positive [x]. *)
Definition ilog2 (x : Q) : Z :=
  let k := Z.log2 (Qnum x) - Z.log2 (Z.pos (Qden x)) in
  if Qle_bool (pow2 k) x then k else k - 1.

(** The positive binary64 number nearest to a positive [x]: 53 significant
    bits, so a multiple of [2^(e - 52)] for [2^e <= x < 2^(e+1)]. *)
Definition nearest (x : Q) : Q :=
  let ulp := pow2 (ilog2 x - 52) in
  (inject_Z (round_half_even (x / ulp)) * ulp)%Q.

Definition binary64 (x : Q) : Q :=
  match (x ?= 0)%Q with
  | Eq => 0%Q
  | Gt => nearest x
  | Lt => (- nearest (- x))%Q
  end.

(** The largest binary64 below 1, [1 - 2^-53]. *)
Definition below_one : Q := (1 - pow2 (-53))%Q.

End Float64.

(** ** Theft handlers (consolidated/theft-manage.ts) *)

Module Theft.
Import Random Float64.

Inductive HeatLevel : Type := burning | hot | warm | cool | cold.

#[global] Instance HeatLevel_eq_dec : EqDecision HeatLevel.
Proof. solve_decision. Defined.

Record TheftRecord : Type := mkTheftRecord {
  itemId : string;
  stolenFrom : string;
  stolenBy : string;
  stolenLocation : option string;
  witnesses : list string;
  heatLevel : HeatLevel;
  reportedToGuards : bool;
  bounty : Z
}.

Record Fence : Type := mkFence {
  npcId : string;
  factionId : option string;
  buyRate : Q;
  maxHeatLevel : HeatLevel;
  dailyHeatCapacity : Z;
  dailyHeatUsed : Z;
  specializations : list string;
  cooldownDays : Z
}.

(** The tables [theft_records] (keyed by item id) and [fences] (keyed by
    npc id) behind [TheftRepository]. *)
Record TheftStore : Type := mkTheftStore {
  records : gmap string TheftRecord;
  fences : gmap string Fence
}.

Definition no_thefts : TheftStore := mkTheftStore ∅ ∅.

(** Modelled from the spec: [TheftRepository.getTheftRecord]
    of storage/repos/theft.repo.ts, the lookup of the record keyed by the
    item id. *)
Definition getTheftRecord (item : string) (s : TheftStore)
  : option TheftRecord :=
  records s !! item.

(** Modelled from the spec: [TheftRepository.recordTheft], which creates
    the record of the item with initial heat [burning], not reported, no
    bounty, and the witnesses it is given. *)
Definition recordTheft (item victim thief : string) (loc : option string)
    (ws : list string) (s : TheftStore) : TheftRecord * TheftStore :=
  let record := mkTheftRecord item victim thief loc ws burning false 0 in
  (record, mkTheftStore (<[item := record]> (records s)) (fences s)).

(** Modelled from the spec: [TheftRepository.getItemsStolenFrom], the
    records whose [stolenFrom] is the given id. *)
Definition getItemsStolenFrom (npc : string) (s : TheftStore)
  : list TheftRecord :=
  filter (fun r => stolenFrom r = npc) (snd <$> map_to_list (records s)).

(** Modelled from the spec: [TheftRepository.getFence], the lookup of the
    fence keyed by npc id. *)
Definition getFence (npc : string) (s : TheftStore) : option Fence :=
  fences s !! npc.

(** Modelled from the spec: [TheftRepository.registerFence], which stores
    the fence under its npc id with no daily capacity used yet. *)
Definition registerFence (npc : string) (faction : option string) (rate : Q)
    (maxHeat : HeatLevel) (capacity : Z) (specs : list string) (cooldown : Z)
    (s : TheftStore) : Fence * TheftStore :=
  let fence := mkFence npc faction rate maxHeat capacity 0 specs cooldown in
  (fence, mkTheftStore (records s) (<[npc := fence]> (fences s))).

(** Parsed inputs ([z.infer] of the action schemas). *)
Record StealArgs : Type := mkStealArgs {
  st_thiefId : string;
  st_victimId : string;
  st_itemId : string;
  st_witnesses : option (list string);
  st_locationId : option string
}.

Record RecognizeArgs : Type := mkRecognizeArgs {
  rc_npcId : string;
  rc_characterId : string;
  rc_itemId : string
}.

Record RegisterFenceArgs : Type := mkRegisterFenceArgs {
  rf_npcId : string;
  rf_factionId : option string;
  rf_buyRate : Q;
  rf_maxHeatLevel : HeatLevel;
  rf_dailyHeatCapacity : Z;
  rf_specializations : option (list string);
  rf_cooldownDays : Z
}.

(** Responses.  [{ error: true, message }] is [..Error]. *)
Inductive StealResponse : Type :=
| StealError (message : string)
| StealOk (record : TheftRecord) (heat : HeatLevel) (witnessCount : nat).

Inductive RegisterFenceResponse : Type :=
| RegisterFenceError (message : string) (stolenCount : nat)
| RegisterFenceOk (fence : Fence).

Record RecognizeResponse : Type := mkRecognizeResponse {
  recognized : bool;
  isStolen : bool;
  recognizedBy : option string;
  reaction : option string;
  roll : option Z;
  threshold : option Z
}.

Definition handleSteal (args : StealArgs) (s : TheftStore)
  : StealResponse * TheftStore :=
  (* Prevent self-theft *)
  if decide (st_thiefId args = st_victimId args)
  then (StealError "A character cannot steal from themselves", s)
  else
    let '(record, s') :=
      recordTheft (st_itemId args) (st_victimId args) (st_thiefId args)
        (st_locationId args) (default [] (st_witnesses args)) s in
    (StealOk record (heatLevel record) (length (witnesses record)), s').

Definition handleRegisterFence (args : RegisterFenceArgs) (s : TheftStore)
  : RegisterFenceResponse * TheftStore :=
  (* Prevent theft victims from being fences *)
  let stolenFromVictim := getItemsStolenFrom (rf_npcId args) s in
  if (0 <? length stolenFromVictim)%nat
  then (RegisterFenceError "Cannot register a theft victim as a fence"
          (length stolenFromVictim), s)
  else
    let '(fence, s') :=
      registerFence (rf_npcId args) (rf_factionId args) (rf_buyRate args)
        (rf_maxHeatLevel args) (rf_dailyHeatCapacity args)
        (default [] (rf_specializations args)) (rf_cooldownDays args) s in
    (RegisterFenceOk fence, s').

Section Recognize.

(** [HEAT_VALUES] of schema/theft.ts, a table from heat level to a number,
    is a parameter of the handler. *)
Variable HEAT_VALUES : HeatLevel -> Z.

(** [Math.min(100, heatValue + record.bounty / 10)]: the quotient and the
    sum are each rounded to binary64; the minimum of two numbers is one of
    them. *)
Definition recognitionChance (record : TheftRecord) : Q :=
  Qmin' (inject_Z 100)
        (binary64 (inject_Z (HEAT_VALUES (heatLevel record))
                   + binary64 (inject_Z (bounty record) / inject_Z 10)))%Q.

Definition handleRecognize (args : RecognizeArgs) (s : TheftStore) (g : Rng)
  : RecognizeResponse * Rng :=
  match getTheftRecord (rc_itemId args) s with
  | None => (mkRecognizeResponse false false None None None None, g)
  | Some record =>
      (* Original owner always recognizes *)
      if decide (rc_npcId args = stolenFrom record)
      then (mkRecognizeResponse true true (Some "original_owner")
              (Some "hostile") None None, g)
      (* Witnesses recognize *)
      else if decide (rc_npcId args ∈ witnesses record)
      then (mkRecognizeResponse true true (Some "witness")
              (Some "suspicious") None None, g)
      else
        (* Guards check based on heat and bounty *)
        let chance := recognitionChance record in
        let '(x, g') := random g in
        (* [Math.random() * 100], rounded to binary64 *)
        let r := binary64 (x * inject_Z 100)%Q in
        if Qltb r chance
        then (mkRecognizeResponse true true (Some "suspicion")
                (Some "suspicious") (Some (Qfloor r)) (Some (Qfloor chance)), g')
        else (mkRecognizeResponse false true None None
                (Some (Qfloor r)) (Some (Qfloor chance)), g')
  end.

End Recognize.

(** Modelled from the spec: the heat values the specification lists
    (burning 80, hot 60, warm 40, cool 20, cold 5). *)
Definition spec_heat_values (h : HeatLevel) : Z :=
  match h with
  | burning => 80 | hot => 60 | warm => 40 | cool => 20 | cold => 5
  end.

(** The requests that write to the theft store, to run sequences of them. *)
Inductive Request : Type :=
| ReqSteal (args : StealArgs)
| ReqRegisterFence (args : RegisterFenceArgs).

Definition request (r : Request) (s : TheftStore) : TheftStore :=
  match r with
  | ReqSteal args => snd (handleSteal args s)
  | ReqRegisterFence args => snd (handleRegisterFence args s)
  end.

Definition requests (rs : list Request) (s : TheftStore) : TheftStore :=
  fold_left (fun acc r => request r acc) rs s.

(** An npc is a theft victim when some record names it as [stolenFrom]. *)
Definition is_victim (npc : string) (s : TheftStore) : Prop :=
  exists item r, records s !! item = Some r /\ stolenFrom r = npc.

Definition is_fence (npc : string) (s : TheftStore) : Prop :=
  is_Some (fences s !! npc).

(** The invariant of the specification: no npc is at once a registered
    fence and the victim of a recorded theft. *)
Definition fence_victim_exclusive (s : TheftStore) : Prop :=
  forall npc, ~ (is_fence npc s /\ is_victim npc s).

End Theft.

(** ** JavaScript strings and objects *)

Module Js.

(** [c.toLowerCase()] on an ASCII letter; other characters are kept. *)
Definition lower_ascii (c : ascii) : ascii :=
  let n := nat_of_ascii c in
  if ((65 <=? n) && (n <=? 90))%nat then ascii_of_nat (n + 32) else c.

Fixpoint toLowerCase (s : string) : string :=
  match s with
  | EmptyString => EmptyString
  | String c s' => String (lower_ascii c) (toLowerCase s')
  end.

(** [s.includes(search)] *)
Fixpoint includes (s search : string) : bool :=
  String.prefix search s ||
  match s with
  | EmptyString => false
  | String _ s' => includes s' search
  end.

(** A string is truthy when it is not empty, a number when it is not 0. *)
Definition truthy_string (s : option string) : bool :=
  match s with
  | Some (String _ _) => true
  | _ => false
  end.

Definition truthy_number (n : option Z) : bool :=
  match n with
  | Some n => negb (n =? 0)
  | None => false
  end.

(** An object with number values ([Record<string, number>]), keys in
    insertion order.  [set_key k v o] is [o[k] = v]: an existing key keeps
    its place and takes the new value, a new key goes last. *)
Abbreviation Obj := (list (string * Z)).

Fixpoint has_key (k : string) (o : Obj) : bool :=
  match o with
  | [] => false
  | (k', _) :: o' => String.eqb k k' || has_key k o'
  end.

Fixpoint replace_key (k : string) (v : Z) (o : Obj) : Obj :=
  match o with
  | [] => []
  | (k', v') :: o' =>
      if String.eqb k k' then (k', v) :: o'
      else (k', v') :: replace_key k v o'
  end.

Definition set_key (k : string) (v : Z) (o : Obj) : Obj :=
  if has_key k o then replace_key k v o else o ++ [(k, v)].

Fixpoint get_key (k : string) (o : Obj) : option Z :=
  match o with
  | [] => None
  | (k', v) :: o' => if String.eqb k k' then Some v else get_key k o'
  end.

(** The sum of the values of an object. *)
Definition sum_values (o : Obj) : Z :=
  fold_right (fun kv acc => snd kv + acc) 0 o.

End Js.

(** ** Dice (improvisation-manage.ts) *)

Module Dice.
Import Random.

Definition is_digit (c : ascii) : bool :=
  let n := nat_of_ascii c in ((48 <=? n) && (n <=? 57))%nat.

(** The longest prefix of digits, and the rest. *)
Fixpoint span_digits (s : string) : string * string :=
  match s with
  | EmptyString => (EmptyString, EmptyString)
  | String c s' =>
      if is_digit c
      then let '(ds, rest) := span_digits s' in (String c ds, rest)
      else (EmptyString, s)
  end.

(** [parseInt(ds, 10)] on a string of digits *)
Fixpoint parse_digits (acc : Z) (ds : string) : Z :=
  match ds with
  | EmptyString => acc
  | String c ds' =>
      parse_digits (10 * acc + (Z.of_nat (nat_of_ascii c) - 48)) ds'
  end.

(** [notation.match(/^(\d+)d(\d+)([+-]\d+)?$/i)]: count, sides, modifier *)
Definition match_notation (notation : string) : option (Z * Z * Z) :=
  let '(cs, r1) := span_digits notation in
  match cs, r1 with
  | String _ _, String d r2 =>
      if Ascii.eqb d "d" || Ascii.eqb d "D" then
        let '(ss, r3) := span_digits r2 in
        match ss, r3 with
        | String _ _, EmptyString =>
            Some (parse_digits 0 cs, parse_digits 0 ss, 0)
        | String _ _, String sign r4 =>
            let '(ms, r5) := span_digits r4 in
            match ms, r5 with
            | String _ _, EmptyString =>
                if Ascii.eqb sign "+"
                then Some (parse_digits 0 cs, parse_digits 0 ss,
                           parse_digits 0 ms)
                else if Ascii.eqb sign "-"
                then Some (parse_digits 0 cs, parse_digits 0 ss,
                           - parse_digits 0 ms)
                else None
            | _, _ => None
            end
        | _, _ => None
        end
      else None
  | _, _ => None
  end.

(** The loop [for (let i = 0; i < count; i++) rolls.push(...)] *)
Fixpoint roll_many (count : nat) (sides : Z) (g : Rng) : list Z * Rng :=
  match count with
  | O => ([], g)
  | S n =>
      let '(r, g1) := roll_die sides g in
      let '(rs, g2) := roll_many n sides g1 in
      (r :: rs, g2)
  end.

(** [rollDice(notation, rng)]: the total and the rolls; nothing when the
    notation does not match (the source throws). *)
Definition rollDice (notation : string) (g : Rng)
  : option (Z * list Z * Rng) :=
  match match_notation notation with
  | None => None
  | Some (count, sides, modifier) =>
      let '(rolls, g') := roll_many (Z.to_nat count) sides g in
      Some (Z.max 0 (fold_left Z.add rolls 0 + modifier), rolls, g')
  end.

End Dice.

(** ** Improvisation handlers (consolidated/improvisation-manage.ts) *)

Module Improvisation.
Import Random Js Dice Characters.

Inductive School : Type :=
| abjuration | conjuration | divination | enchantment
| evocation | illusion | necromancy | transmutation.

Inductive EffectType : Type :=
| damage | healing | status | utility | control | summoning.

Definition school_name (s : School) : string :=
  match s with
  | abjuration => "abjuration" | conjuration => "conjuration"
  | divination => "divination" | enchantment => "enchantment"
  | evocation => "evocation" | illusion => "illusion"
  | necromancy => "necromancy" | transmutation => "transmutation"
  end.

Definition effect_name (e : EffectType) : string :=
  match e with
  | damage => "damage" | healing => "healing" | status => "status"
  | utility => "utility" | control => "control" | summoning => "summoning"
  end.

Inductive Outcome : Type :=
| mastery | success | fizzle | backfire | catastrophic.

#[global] Instance Outcome_eq_dec : EqDecision Outcome.
Proof. solve_decision. Defined.

(** An entry of [WILD_SURGE_TABLE]. *)
Record WildSurge : Type := mkWildSurge {
  ws_roll : Z;
  ws_name : string;
  ws_effect : string
}.

(** The parsed input of [synthesize]; the fields that are only copied
    into the spellbook row (targeting, components, saving throw,
    concentration, duration) are left out. *)
Record SynthesizeArgs : Type := mkSynthesizeArgs {
  casterId : string;
  proposedName : option string;
  estimatedLevel : Z;
  school : School;
  effectType : EffectType;
  effectDice : option string;
  materialValue : option Z;
  encounterId : option string;
  circumstanceModifiers : option (list string)
}.

(** A row of [synthesized_spells]. *)
Record SpellRow : Type := mkSpellRow {
  sp_character_id : string;
  sp_name : string;
  sp_level : Z;
  sp_school : School;
  sp_effect_type : EffectType;
  sp_effect_dice : option string;
  sp_synthesis_dc : Z;
  sp_times_cast : Z
}.

Record SynthesisResult : Type := mkSynthesisResult {
  r_success : bool;
  r_outcome : Outcome;
  r_roll : Z;
  r_modifier : Z;
  r_total : Z;
  r_dc : Z;
  r_dcBreakdown : Obj;
  r_spellName : string;
  r_spellMastered : bool;
  r_spellSlotConsumed : bool;
  r_damage : option Z;
  r_healing : option Z;
  r_addedToSpellbook : option bool;
  r_backfireDamage : option Z;
  r_wildSurge : option WildSurge
}.

(** [getAbilityModifier]: [Math.floor((score - 10) / 2)] *)
Definition getAbilityModifier (score : Z) : Z := (score - 10) / 2.

(** The caster's name, known spells and spellcasting modifier, with the
    defaults the handler keeps when [findById] finds no caster. *)
Definition caster_profile (id : string) (chars : CharacterTable)
  : string * list string * Z :=
  match findById id chars with
  | Some caster =>
      let intScore :=
        match c_stats caster !! "int"%string with
        | Some v => v
        | None => default 10 (c_stats caster !! "intelligence"%string)
        end in
      let level := if c_level caster =? 0 then 1 else c_level caster in
      let profBonus := level / 4 + 2 in
      (c_name caster, default [] (c_knownSpells caster),
       getAbilityModifier intScore + profBonus)
  | None => ("Caster"%string, [], 0)
  end.

(** The body of the loop over [circumstanceModifiers]: the running dc and
    the breakdown after one modifier string. *)
Definition circumstance_step (acc : Z * Obj) (modifier : string) : Z * Obj :=
  let lowerMod := toLowerCase modifier in
  let acc1 :=
    if includes lowerMod "ley line" || includes lowerMod "magical nexus"
    then (fst acc - 3, set_key "leyLine" (-3) (snd acc)) else acc in
  let acc2 :=
    if includes lowerMod "blood moon" || includes lowerMod "eclipse"
    then (fst acc1 - 2, set_key "celestialEvent" (-2) (snd acc1)) else acc1 in
  if includes lowerMod "desperation" || includes lowerMod "urgency"
  then (fst acc2 + 2, set_key "desperation" 2 (snd acc2)) else acc2.

(** The three tests of the loop body, by the key they write. *)
Definition mentions_ley_line (modifier : string) : bool :=
  includes (toLowerCase modifier) "ley line"
  || includes (toLowerCase modifier) "magical nexus".

Definition mentions_celestial_event (modifier : string) : bool :=
  includes (toLowerCase modifier) "blood moon"
  || includes (toLowerCase modifier) "eclipse".

Definition mentions_desperation (modifier : string) : bool :=
  includes (toLowerCase modifier) "desperation"
  || includes (toLowerCase modifier) "urgency".

(** How many of the modifier strings pass a test, and how many of those
    come after the first. *)
Definition matching (test : string -> bool) (modifiers : list string) : nat :=
  length (List.filter test modifiers).

Definition repeats (test : string -> bool) (modifiers : list string) : Z :=
  Z.of_nat (Nat.pred (matching test modifiers)).

(** What the loop keeps true of the running dc and the breakdown once
    [nL], [nC] and [nD] modifier strings passed the three tests: each key is
    present, with its one value, exactly when its test passed at least once,
    and the dc is the sum of the breakdown plus one further adjustment for
    every pass after the first. *)
Definition tracks (nL nC nD : nat) (acc : Z * Obj) : Prop :=
  get_key "leyLine" (snd acc) = (if Nat.eqb nL 0 then None else Some (-3)) /\
  get_key "celestialEvent" (snd acc) = (if Nat.eqb nC 0 then None else Some (-2)) /\
  get_key "desperation" (snd acc) = (if Nat.eqb nD 0 then None else Some 2) /\
  fst acc = sum_values (snd acc)
            - 3 * Z.of_nat (Nat.pred nL)
            - 2 * Z.of_nat (Nat.pred nC)
            + 2 * Z.of_nat (Nat.pred nD).

(** "Calculate DC": the dc and [dcBreakdown]. *)
Definition synthesis_dc (args : SynthesizeArgs) (knownSpells : list string)
  : Z * Obj :=
  let dc := 10 + estimatedLevel args * 2 in
  let dcBreakdown : Obj :=
    [("base"%string, 10); ("spellLevel"%string, estimatedLevel args * 2)] in
  let '(dc, dcBreakdown) :=
    if truthy_string (encounterId args)
    then (dc + 2, set_key "inCombat" 2 dcBreakdown)
    else (dc, dcBreakdown) in
  let hasRelatedSpell :=
    existsb (fun spell =>
      includes (toLowerCase spell) (school_name (school args)) ||
      includes (toLowerCase spell) (effect_name (effectType args)))
      knownSpells in
  let '(dc, dcBreakdown) :=
    if negb hasRelatedSpell
    then (dc + 3, set_key "novelEffect" 3 dcBreakdown)
    else (dc - 2, set_key "relatedSpell" (-2) dcBreakdown) in
  let '(dc, dcBreakdown) :=
    if truthy_number (materialValue args)
    then
      let reduction := Z.min 5 (default 0 (materialValue args) / 100) in
      (dc - reduction, set_key "materialReduction" (- reduction) dcBreakdown)
    else (dc, dcBreakdown) in
  match circumstanceModifiers args with
  | Some modifiers => fold_left circumstance_step modifiers (dc, dcBreakdown)
  | None => (dc, dcBreakdown)
  end.

(** The chain of tests that picks the outcome. *)
Definition pick_outcome (d20Roll total dc : Z) : Outcome :=
  let isNat20 := d20Roll =? 20 in
  let isNat1 := d20Roll =? 1 in
  let margin := total - dc in
  if isNat20 || (10 <=? margin) then mastery
  else if dc <=? total then success
  else if -5 <=? margin then fizzle
  else if isNat1 || (margin <=? -10) then catastrophic
  else backfire.

Section Synthesize.

(** [WILD_SURGE_TABLE] of schema/improvisation.ts is a parameter of the
    handler. *)
Variable WILD_SURGE_TABLE : list WildSurge.

(** [WILD_SURGE_TABLE.find(ws => ws.roll === surgeRoll) || WILD_SURGE_TABLE[0]] *)
Definition surge_entry (surgeRoll : Z) : option WildSurge :=
  match List.find (fun ws => ws_roll ws =? surgeRoll) WILD_SURGE_TABLE with
  | Some ws => Some ws
  | None => head WILD_SURGE_TABLE
  end.

(** [handleSynthesize].  [g] is the generator [seedrandom(seed)] returns;
    the result comes with the rows of [synthesized_spells] after the call.
    The INSERT of a mastered spell is taken to run; when it throws, the
    code catches the error, answers [addedToSpellbook: false] and stores no
    row. *)
Definition handleSynthesize (args : SynthesizeArgs) (chars : CharacterTable)
    (spells : list SpellRow) (g : Rng)
  : Result SynthesisResult * list SpellRow :=
  let '(casterName, knownSpells, spellcastingModifier) :=
    caster_profile (casterId args) chars in
  let '(dc, dcBreakdown) := synthesis_dc args knownSpells in
  let '(d20Roll, g1) := roll_die 20 g in
  let total := d20Roll + spellcastingModifier in
  let outcome := pick_outcome d20Roll total dc in
  let spellName :=
    if truthy_string (proposedName args) then default ""%string (proposedName args)
    else (casterName ++ "'s " ++ school_name (school args) ++ " "
          ++ effect_name (effectType args))%string in
  let result dmg heal added bf surge :=
    mkSynthesisResult
      (bool_decide (outcome = mastery) || bool_decide (outcome = success))
      outcome d20Roll spellcastingModifier total dc dcBreakdown spellName
      (bool_decide (outcome = mastery))
      (negb (bool_decide (outcome = mastery)))
      dmg heal added bf surge in
  match outcome with
  | mastery | success =>
      let effect :=
        if truthy_string (effectDice args)
        then match rollDice (default ""%string (effectDice args)) g1 with
             | Some (t, _, _) => Some (Some t)
             | None => None
             end
        else Some None in
      match effect with
      | None => (Throw InvalidDiceNotation, spells)
      | Some rolled =>
          let dmg := match effectType args with damage => rolled | _ => None end in
          let heal := match effectType args with healing => rolled | _ => None end in
          if bool_decide (outcome = mastery)
          then
            (* Save to spellbook *)
            (Ok (result dmg heal (Some true) None None),
             spells ++ [mkSpellRow (casterId args) spellName
                          (estimatedLevel args) (school args) (effectType args)
                          (if truthy_string (effectDice args)
                           then effectDice args else None)
                          dc 1])
          else (Ok (result dmg heal None None None), spells)
      end
  | backfire =>
      match rollDice (pretty (estimatedLevel args) ++ "d6")%string g1 with
      | Some (t, _, _) => (Ok (result None None None (Some t) None), spells)
      | None => (Throw InvalidDiceNotation, spells)
      end
  | catastrophic =>
      let '(surgeRoll, _) := roll_die 20 g1 in
      (Ok (result None None None None (surge_entry surgeRoll)), spells)
  | fizzle => (Ok (result None None None None None), spells)
  end.

End Synthesize.

End Improvisation.

(** ** Custom effects: the advance_durations action *)

Module Effects.

Inductive ActorType : Type := character | npc.

#[global] Instance ActorType_eq_dec : EqDecision ActorType.
Proof. solve_decision. Defined.

Inductive DurationType : Type :=
| rounds | minutes | hours | days | permanent | until_removed.

#[global] Instance DurationType_eq_dec : EqDecision DurationType.
Proof. solve_decision. Defined.

(** A stored custom effect, with the fields duration handling reads. *)
Record CustomEffect : Type := mkEffect {
  e_target_id : string;
  e_target_type : ActorType;
  e_name : string;
  e_duration_type : DurationType;
  e_rounds_remaining : Z;
  e_is_active : bool
}.

#[global] Instance CustomEffect_eq_dec : EqDecision CustomEffect.
Proof. solve_decision. Defined.

(** The table [custom_effects], keyed by the effect id. *)
Abbreviation EffectTable := (gmap Z CustomEffect).

(** The raw input the caller sends for the action: any field may be
    missing and [rounds] may be any number. *)
Record RawAdvance : Type := mkRawAdvance {
  raw_targetId : option string;
  raw_targetType : option string;
  raw_rounds : option Q
}.

(** [z.infer<typeof AdvanceDurationsSchema>] *)
Record AdvanceArgs : Type := mkAdvanceArgs {
  ad_targetId : string;
  ad_targetType : ActorType;
  ad_rounds : Z
}.

(** [Number.isInteger], the test behind [.int()] *)
Definition is_integer (q : Q) : bool := Qeq_bool q (inject_Z (Qfloor q)).

(** [z.number().int().min(1).default(1)] *)
Definition parse_rounds (r : option Q) : option Z :=
  match r with
  | None => Some 1
  | Some q =>
      if is_integer q && Qle_bool (inject_Z 1) q then Some (Qfloor q)
      else None
  end.

(** [z.enum(['character', 'npc'])] *)
Definition parse_actor_type (s : option string) : option ActorType :=
  match s with
  | Some s =>
      if String.eqb s "character" then Some character
      else if String.eqb s "npc" then Some npc
      else None
  | None => None
  end.

(** [AdvanceDurationsSchema.parse]: nothing when the input is rejected. *)
Definition AdvanceDurationsSchema (raw : RawAdvance) : option AdvanceArgs :=
  match raw_targetId raw, parse_actor_type (raw_targetType raw),
        parse_rounds (raw_rounds raw) with
  | Some tid, Some ty, Some n => Some (mkAdvanceArgs tid ty n)
  | _, _, _ => None
  end.

(** An effect the round counter applies to: active, on the target, with a
    duration counted in rounds. *)
Definition ticks (targetId : string) (targetType : ActorType)
    (e : CustomEffect) : bool :=
  e_is_active e && bool_decide (e_target_id e = targetId)
  && bool_decide (e_target_type e = targetType)
  && bool_decide (e_duration_type e = rounds).

Definition tick (n : Z) (e : CustomEffect) : CustomEffect :=
  let left := e_rounds_remaining e - n in
  mkEffect (e_target_id e) (e_target_type e) (e_name e) (e_duration_type e)
           left (0 <? left).

(** Modelled from the spec: [CustomEffectsRepository.advanceRounds]
    of storage/repos/custom-effects.repo.ts.  It decrements the rounds counter of every active effect on the
    target and returns the effects that remain ([advanced]) and those that
    ran out ([expired]); an expired effect is flagged inactive. *)
Definition advanceRounds (targetId : string) (targetType : ActorType)
    (n : Z) (t : EffectTable)
  : list CustomEffect * list CustomEffect * EffectTable :=
  let t' := (fun e => if ticks targetId targetType e then tick n e else e) <$> t in
  let touched :=
    tick n <$> filter (fun e => ticks targetId targetType e = true)
                      (snd <$> map_to_list t) in
  (filter (fun e => e_is_active e = true) touched,
   filter (fun e => e_is_active e = false) touched,
   t').

(** Modelled from the spec: [CustomEffectsRepository.cleanupExpired], which
    deletes the effects flagged inactive and returns how many there were. *)
Definition cleanupExpired (t : EffectTable) : nat * EffectTable :=
  (size (filter (fun kv => e_is_active (snd kv) = false) t),
   filter (fun kv => e_is_active (snd kv) = true) t).

Record AdvanceResponse : Type := mkAdvanceResponse {
  ar_rounds : Z;
  ar_expiredEffects : list string;
  ar_remainingEffects : list (string * Z);
  ar_cleanedUp : nat
}.

Definition handleAdvanceDurations (args : AdvanceArgs) (t : EffectTable)
  : AdvanceResponse * EffectTable :=
  let '(advanced, expired, t1) :=
    advanceRounds (ad_targetId args) (ad_targetType args) (ad_rounds args) t in
  let '(cleanedUp, t2) := cleanupExpired t1 in
  (mkAdvanceResponse (ad_rounds args) (e_name <$> expired)
     ((fun e => (e_name e, e_rounds_remaining e)) <$> advanced) cleanedUp,
   t2).

Inductive ManageResponse : Type :=
| ValidationError
| Advanced (r : AdvanceResponse).

(** Modelled from the spec: the action router of utils/action-router.ts,
    which parses the input through the schema of the chosen action and, when
    the input is accepted, invokes the handler of the action; a rejected
    input never reaches the handler. *)
Definition advance_durations (raw : RawAdvance) (t : EffectTable)
  : ManageResponse * EffectTable :=
  match AdvanceDurationsSchema raw with
  | None => (ValidationError, t)
  | Some args =>
      let '(r, t') := handleAdvanceDurations args t in (Advanced r, t')
  end.

End Effects.

(** ** Inventory: what the repository keeps *)

Module InventoryProps.
Import Inventory.

(** How many of an item a character holds: the quantity of the entry, 0
    when there is none. *)
Definition held (cid iid : string) (t : Table) : Z :=
  from_option quantity 0 (t !! (cid, iid)).

(** A slot is only recorded on an equipped row. *)
Definition slot_needs_equipped (t : Table) : Prop :=
  forall k r, t !! k = Some r -> is_Some (slot r) -> equipped r <> 0.

(** Every entry holds at least one item. *)
Definition quantities_positive (t : Table) : Prop :=
  forall k r, t !! k = Some r -> 0 < quantity r.

(** The quantity a call passes (equipping passes none). *)
Definition call_quantity (k : Call) : option Z :=
  match k with
  | CallAdd _ _ q | CallRemove _ _ q | CallTransfer _ _ _ q => Some q
  | CallEquip _ _ _ | CallUnequip _ _ => None
  end.

Definition positive_call (k : Call) : Prop :=
  forall q, call_quantity k = Some q -> 0 < q.

Definition equipment_call (k : Call) : Prop := call_quantity k = None.

End InventoryProps.

(** ** Combat: what the handlers show (combat-tools.ts) *)

Module CombatView.
Import Combat.

(** [Math.round]: the nearest integer, a half going up. *)
Definition js_round (x : Q) : Z := Qfloor (x + (1 # 2)).

(** The two characters of the bar, the full block and the light shade. *)
Inductive Cell : Type := block | shade.

#[global] Instance Cell_eq_dec : EqDecision Cell.
Proof. solve_decision. Defined.

(** [ch.repeat(n)], which throws a RangeError on a negative count. *)
Definition repeat_cell (ch : Cell) (n : Z) : option (list Cell) :=
  if n <? 0 then None else Some (replicate (Z.to_nat n) ch).

(** [createHpBar]: the cells between the brackets; nothing when [repeat]
    throws. *)
Definition createHpBar (percentage : Q) : option (list Cell) :=
  let filled := js_round (percentage / inject_Z 10) in
  let empty := 10 - filled in
  match repeat_cell block filled, repeat_cell shade empty with
  | Some a, Some b => Some (a ++ b)
  | _, _ => None
  end.

(** [p.maxHp > 0 ? (p.hp / p.maxHp) * 100 : 0] of [formatCombatStateText] *)
Definition hpPct (p : Participant) : Q :=
  if 0 <? p_maxHp p
  then (inject_Z (p_hp p) / inject_Z (p_maxHp p) * inject_Z 100)%Q
  else 0%Q.

(** [state.participants.find(p => p.id === id)] *)
Definition find_participant (id : string) (ps : list Participant)
  : option Participant :=
  List.find (fun p => String.eqb (p_id p) id) ps.

(** An entry of [participants] in the state object ([conditions] is not
    part of [Participant] here and is left out). *)
Record ParticipantJson : Type := mkParticipantJson {
  j_id : string;
  j_name : string;
  j_hp : Z;
  j_maxHp : Z;
  j_initiative : Z;
  j_isEnemy : bool;
  j_isDefeated : bool;
  j_isCurrentTurn : bool
}.

Record StateJson : Type := mkStateJson {
  sj_encounterId : string;
  sj_round : Z;
  sj_currentTurnIndex : nat;
  sj_currentTurn : option (string * string * bool);
  sj_turnOrder : list string;
  sj_participants : list ParticipantJson
}.

(** The participant whose turn it is: the first one carrying the id at
    [turnOrder[currentTurnIndex]]. *)
Definition current_participant (state : CombatState) : option Participant :=
  match turnOrder state !! currentTurnIndex state with
  | Some id => find_participant id (participants state)
  | None => None
  end.

(** [buildStateJson] *)
Definition buildStateJson (state : CombatState) (encounterId : string)
  : StateJson :=
  let currentParticipant := current_participant state in
  mkStateJson encounterId (round state) (currentTurnIndex state)
    ((fun p => (p_id p, p_name p, p_isEnemy p)) <$> currentParticipant)
    ((fun id =>
        match find_participant id (participants state) with
        | Some p => if String.eqb (p_name p) "" then id else p_name p
        | None => id
        end) <$> turnOrder state)
    ((fun p =>
        mkParticipantJson (p_id p) (p_name p) (p_hp p) (p_maxHp p)
          (p_initiative p) (p_isEnemy p) (p_hp p <=? 0)
          (match currentParticipant with
           | Some cur => String.eqb (p_id p) (p_id cur)
           | None => false
           end)) <$> participants state).

(** The entry of [syncResults] for a participant, given whether a
    character with its id is stored. *)
Definition sync_entry (chars : Characters.CharacterTable) (p : Participant)
  : SyncResult :=
  mkSync (p_id p) (p_name p) (p_hp p)
         (bool_decide (is_Some (chars !! p_id p))).

End CombatView.

(** ** Theft: search, and what the store keeps (theft-manage.ts) *)

Module TheftView.
Import Random Theft.

Record SearchItem : Type := mkSearchItem {
  si_itemId : string;
  si_heatLevel : HeatLevel;
  si_stolenFrom : string;
  si_reportedToGuards : bool;
  si_bounty : Z
}.

Record SearchResponse : Type := mkSearchResponse {
  sr_characterId : string;
  sr_stolenItemCount : nat;
  sr_detectionRisk : string;
  sr_hottestItem : HeatLevel;
  sr_items : list SearchItem
}.

(** The chain of tests that names the risk of the hottest item. *)
Definition risk_of (hottest : HeatLevel) : string :=
  match hottest with
  | burning => "very high"
  | hot => "high"
  | warm => "moderate"
  | cool => "low"
  | cold => "none"
  end.

Section Search.

(** [compareHeatLevels] of schema/theft.ts and
    [TheftRepository.getStolenItemsHeldBy] are parameters of the handler. *)
Variable compareHeatLevels : HeatLevel -> HeatLevel -> Z.
Variable getStolenItemsHeldBy : string -> TheftStore -> list TheftRecord.

(** The loop that keeps the hottest heat level seen, starting from cold. *)
Definition hotter (hottest : HeatLevel) (item : TheftRecord) : HeatLevel :=
  if 0 <? compareHeatLevels (heatLevel item) hottest
  then heatLevel item else hottest.

Definition handleSearch (characterId : string) (s : TheftStore)
  : SearchResponse :=
  let stolenItems := getStolenItemsHeldBy characterId s in
  let hottest := fold_left hotter stolenItems cold in
  mkSearchResponse characterId (length stolenItems) (risk_of hottest) hottest
    ((fun i => mkSearchItem (itemId i) (heatLevel i) (stolenFrom i)
                 (reportedToGuards i) (bounty i)) <$> stolenItems).

End Search.

(** The order of the heat levels, coldest first. *)
Definition heat_rank (h : HeatLevel) : nat :=
  match h with
  | cold => 0 | cool => 1 | warm => 2 | hot => 3 | burning => 4
  end.

(** A comparison that is positive exactly on a hotter first argument. *)
Definition compares_by_rank (compare : HeatLevel -> HeatLevel -> Z) : Prop :=
  forall a b, 0 < compare a b <-> (heat_rank b < heat_rank a)%nat.

(** The difference of the ranks, a comparison of that kind. *)
Definition rank_difference (a b : HeatLevel) : Z :=
  Z.of_nat (heat_rank a) - Z.of_nat (heat_rank b).

(** Every record is stored under its item id and names a victim other
    than the thief. *)
Definition records_sound (s : TheftStore) : Prop :=
  forall item r, records s !! item = Some r ->
    itemId r = item /\ stolenFrom r <> stolenBy r.

(** A generator that gives numbers in [0, 1), as [Math.random] and
    [seedrandom] do. *)
Definition unit_draws (g : Rng) : Prop :=
  forall n, (0 <= draws g n /\ draws g n < 1)%Q.

End TheftView.

(** ** Improvisation: stunts, effect lists and the spellbook *)

Module Stunts.
Import Random Js Dice Characters Improvisation.

(** [SkillEnum] *)
Inductive Skill : Type :=
| acrobatics | animal_handling | arcana | athletics | deception
| history | insight | intimidation | investigation | medicine
| nature | perception | performance | persuasion | religion
| sleight_of_hand | stealth | survival.

(** [rollD20(advantage, disadvantage, rng)]: the roll kept, the rolls
    shown, and the generator afterwards. *)
Definition rollD20 (advantage disadvantage : bool) (g : Rng)
  : Z * list Z * Rng :=
  let '(roll1, g1) := roll_die 20 g in
  if negb advantage && negb disadvantage then (roll1, [roll1], g1)
  else
    let '(roll2, g2) := roll_die 20 g1 in
    if advantage && negb disadvantage
    then (Z.max roll1 roll2, [roll1; roll2], g2)
    else if disadvantage && negb advantage
    then (Z.min roll1 roll2, [roll1; roll2], g2)
    else (roll1, [roll1], g2).

(** The parsed input of [stunt], without the fields the handler does not
    read ([actorType], [targetTypes], [narrativeIntent], [actionCost]) and
    without [encounterId], which only enters the seed. *)
Record StuntArgs : Type := mkStuntArgs {
  su_actorId : string;
  su_targetIds : option (list string);
  su_skill : Skill;
  su_dc : Z;
  su_advantage : bool;
  su_disadvantage : bool;
  su_successDamage : option string;
  su_failureDamage : option string;
  su_damageType : option string;
  su_applyCondition : option string;
  su_savingThrowAbility : option string;
  su_savingThrowDc : option Z;
  su_halfDamageOnSave : bool
}.

Record TargetResult : Type := mkTargetResult {
  tr_id : string;
  tr_damage : Z;
  tr_saved : bool;
  tr_condition : option string
}.

Record StuntResult : Type := mkStuntResult {
  sr_success : bool;
  sr_roll : Z;
  sr_rolls : list Z;
  sr_modifier : Z;
  sr_total : Z;
  sr_dc : Z;
  sr_criticalSuccess : bool;
  sr_criticalFailure : bool;
  sr_actor : string;
  sr_damage : option Z;
  sr_damageType : option string;
  sr_targets : option (list TargetResult);
  sr_selfDamage : option Z
}.

Section Stunt.

(** [SKILL_TO_ABILITY] of schema/improvisation.ts, the ability each skill
    uses, is a parameter of the handler. *)
Variable SKILL_TO_ABILITY : Skill -> string.

(** [getSkillModifier] *)
Definition getSkillModifier (stats : gmap string Z) (skill : Skill) : Z :=
  let ability := SKILL_TO_ABILITY skill in
  let abilityScore :=
    match stats !! String.substring 0 3 ability with
    | Some v => v
    | None => default 10 (stats !! ability)
    end in
  (abilityScore - 10) / 2.

(** One turn of the loop over [targetIds]. *)
Definition resolve_target (args : StuntArgs) (dmg : Z)
    (acc : list TargetResult * Rng) (id : string) : list TargetResult * Rng :=
  let '(targets, g) := acc in
  let '(targetDamage, saved, g') :=
    if truthy_string (su_savingThrowAbility args)
       && truthy_number (su_savingThrowDc args)
    then
      let '(saveRoll, g1) := roll_die 20 g in
      let saved := default 0 (su_savingThrowDc args) <=? saveRoll in
      if saved && su_halfDamageOnSave args then (dmg / 2, saved, g1)
      else if saved then (0, saved, g1)
      else (dmg, saved, g1)
    else (dmg, false, g) in
  (targets ++ [mkTargetResult id targetDamage saved
                 (if negb saved && truthy_string (su_applyCondition args)
                  then su_applyCondition args else None)],
   g').

(** [handleStunt].  [g] is the generator [seedrandom(seed)] returns. *)
Definition handleStunt (args : StuntArgs) (chars : CharacterTable) (g : Rng)
  : Result StuntResult :=
  let '(actorName, skillModifier) :=
    match findById (su_actorId args) chars with
    | Some actor => (c_name actor, getSkillModifier (c_stats actor) (su_skill args))
    | None => ("Actor"%string, 0)
    end in
  let '(roll, rolls, g1) := rollD20 (su_advantage args) (su_disadvantage args) g in
  let total := roll + skillModifier in
  let isNat20 := roll =? 20 in
  let isNat1 := roll =? 1 in
  let beatDC := su_dc args <=? total in
  let criticalSuccess := isNat20 || (beatDC && (su_dc args + 10 <=? total)) in
  let criticalFailure := isNat1 || (negb beatDC && (total <=? su_dc args - 10)) in
  let success := isNat20 || (beatDC && negb isNat1) in
  let result dmg dmgType targets self :=
    mkStuntResult success roll rolls skillModifier total (su_dc args)
      criticalSuccess criticalFailure actorName dmg dmgType targets self in
  if success && truthy_string (su_successDamage args) then
    match rollDice (default ""%string (su_successDamage args)) g1 with
    | None => Throw InvalidDiceNotation
    | Some (t, _, g2) =>
        let dmg := if criticalSuccess then t * 2 else t in
        let dmgType :=
          if truthy_string (su_damageType args) then su_damageType args
          else Some "bludgeoning"%string in
        Ok (result (Some dmg) dmgType
              (match su_targetIds args with
               | Some ids => Some (fst (fold_left (resolve_target args dmg) ids ([], g2)))
               | None => None
               end)
              None)
    end
  else if negb success && criticalFailure
          && truthy_string (su_failureDamage args) then
    match rollDice (default ""%string (su_failureDamage args)) g1 with
    | None => Throw InvalidDiceNotation
    | Some (t, _, _) => Ok (result None None None (Some t))
    end
  else Ok (result None None None None).

End Stunt.

(** [z.enum(['boon', 'curse', 'neutral', 'transformative'])] *)
Inductive Category : Type := boon | curse | neutral | transformative.

#[global] Instance Category_eq_dec : EqDecision Category.
Proof. solve_decision. Defined.

Section GetEffects.

(** The effects [effectsRepo.getEffectsOnTarget] returns for the request,
    with the category each carries. *)
Context {Effect : Type}.
Variable category : Effect -> Category.

Record EffectsResponse : Type := mkEffectsResponse {
  er_count : nat;
  er_boons : list Effect;
  er_curses : list Effect;
  er_other : list Effect;
  er_effects : list Effect
}.

(** The answer of [handleGetEffects] for the effects the repository
    returned. *)
Definition getEffectsResponse (effects : list Effect) : EffectsResponse :=
  mkEffectsResponse (length effects)
    (filter (fun e => category e = boon) effects)
    (filter (fun e => category e = curse) effects)
    (filter (fun e => category e <> boon /\ category e <> curse) effects)
    effects.

End GetEffects.

(** The order of [ORDER BY level, name]: by level, then by name, byte by
    byte. *)
Definition spell_order (a b : SpellRow) : Prop :=
  sp_level a < sp_level b \/
  (sp_level a = sp_level b /\ String.leb (sp_name a) (sp_name b) = true).

#[global] Instance spell_order_dec (a b : SpellRow) : Decision (spell_order a b).
Proof. unfold spell_order. solve_decision. Defined.

#[global] Instance School_eq_dec : EqDecision School.
Proof. solve_decision. Defined.

(** The [WHERE] clause: [character_id = ?], and [school = ?] when a school
    is asked for. *)
Definition selected (characterId : string) (school : option School)
    (row : SpellRow) : bool :=
  bool_decide (sp_character_id row = characterId)
  && match school with
     | Some s => bool_decide (sp_school row = s)
     | None => true
     end.

(** [SELECT * FROM synthesized_spells WHERE character_id = ?
     (AND school = ?) ORDER BY level, name] *)
Definition select_spells (characterId : string) (school : option School)
    (spells : list SpellRow) : list SpellRow :=
  merge_sort spell_order
    (filter (fun row => selected characterId school row = true) spells).

(** The loop that files each row under its level. *)
Definition file_by_level (byLevel : gmap Z (list SpellRow)) (row : SpellRow)
  : gmap Z (list SpellRow) :=
  <[sp_level row := default [] (byLevel !! sp_level row) ++ [row]]> byLevel.

Record SpellbookResponse : Type := mkSpellbookResponse {
  sb_characterId : string;
  sb_count : nat;
  sb_spellsByLevel : gmap Z (list SpellRow);
  sb_spells : list SpellRow
}.

(** [handleGetSpellbook] *)
Definition handleGetSpellbook (characterId : string) (school : option School)
    (spells : list SpellRow) : SpellbookResponse :=
  let rows := select_spells characterId school spells in
  mkSpellbookResponse characterId (length rows)
    (fold_left file_by_level rows ∅) rows.

(** The numbers a die can show. *)
Definition on_die (sides : Z) (r : Z) : Prop := 1 <= r <= sides.

(** What one entry of [targets] holds for a stunt that deals [dmg]: a
    target that saved carries no condition and takes half the damage,
    rounded down, or none; any other target takes all of it, with the
    condition when one is given. *)
Definition target_settled (args : StuntArgs) (dmg : Z) (tr : TargetResult)
  : Prop :=
  if tr_saved tr
  then truthy_string (su_savingThrowAbility args) = true /\
       truthy_number (su_savingThrowDc args) = true /\
       tr_condition tr = None /\
       tr_damage tr = (if su_halfDamageOnSave args then dmg / 2 else 0)
  else tr_damage tr = dmg /\
       tr_condition tr = (if truthy_string (su_applyCondition args)
                          then su_applyCondition args else None).

End Stunts.

(** * Properties *)

(** ** Rounding to binary64 *)

Module Float64Facts.
Import Float64.

Lemma pow2_pos (e : Z) : (0 < pow2 e)%Q.
Proof. apply Qpower_0_lt. reflexivity. Qed.

Lemma pow2_le (a b : Z) : a <= b -> (pow2 a <= pow2 b)%Q.
Proof. intros H. apply Qpower_le_compat_l; [exact H | discriminate]. Qed.

Lemma pow2_lt_inv (a b : Z) : (pow2 a < pow2 b)%Q -> a < b.
Proof. intros H. apply (Qpower_lt_compat_l_inv (2 # 1)); [exact H | reflexivity]. Qed.

Lemma pow2_minus (a b : Z) : (pow2 (a - b) == pow2 a / pow2 b)%Q.
Proof. apply Qpower_minus. discriminate. Qed.

Lemma pow2_nonneg (a : Z) : 0 <= a -> (pow2 a == inject_Z (2 ^ a))%Q.
Proof. intros H. unfold pow2. rewrite Zpower_Qpower by exact H. reflexivity. Qed.

Lemma ratio_lt (n A B d : Z) :
  0 < B -> 0 < d -> n * B < A * d ->
  (inject_Z n / inject_Z d < inject_Z A / inject_Z B)%Q.
Proof.
  intros HB Hd H.
  assert (HBq : (0 < inject_Z B)%Q) by (rewrite <- (Zlt_Qlt 0); exact HB).
  assert (Hdq : (0 < inject_Z d)%Q) by (rewrite <- (Zlt_Qlt 0); exact Hd).
  apply Qlt_shift_div_r; [exact Hdq |].
  assert (E : (inject_Z A / inject_Z B * inject_Z d
               == (inject_Z A * inject_Z d) / inject_Z B)%Q)
    by (field; intros E0; rewrite E0 in HBq; discriminate HBq).
  rewrite E. apply Qlt_shift_div_l; [exact HBq |].
  rewrite <- !inject_Z_mult, <- Zlt_Qlt. exact H.
Qed.

Lemma ilog2_spec (x : Q) :
  (0 < x)%Q -> (pow2 (ilog2 x) <= x /\ x < pow2 (ilog2 x + 1))%Q.
Proof.
  intros Hx. destruct x as [n d].
  assert (Hn : 0 < n) by (unfold Qlt in Hx; simpl in Hx; lia).
  unfold ilog2. cbn [Qnum Qden].
  set (ln := Z.log2 n). set (ld := Z.log2 (Z.pos d)).
  destruct (Z.log2_spec n Hn) as [Hn1 Hn2]. fold ln in Hn1, Hn2.
  destruct (Z.log2_spec (Z.pos d) ltac:(lia)) as [Hd1 Hd2]. fold ld in Hd1, Hd2.
  assert (Lln : 0 <= ln) by apply Z.log2_nonneg.
  assert (Lld : 0 <= ld) by apply Z.log2_nonneg.
  assert (P1 : 0 < 2 ^ ln) by (apply Z.pow_pos_nonneg; lia).
  assert (P2 : 0 < 2 ^ ld) by (apply Z.pow_pos_nonneg; lia).
  assert (Ex : (n # d == inject_Z n / inject_Z (Z.pos d))%Q) by apply Qmake_Qdiv.
  assert (Hup : (n # d < pow2 (ln - ld + 1))%Q).
  { replace (ln - ld + 1) with ((ln + 1) - ld) by lia.
    rewrite pow2_minus, !pow2_nonneg by lia. rewrite Ex.
    apply ratio_lt; [lia | lia |]. nia. }
  assert (Hlo : (pow2 (ln - ld - 1) < n # d)%Q).
  { replace (ln - ld - 1) with (ln - (ld + 1)) by lia.
    rewrite pow2_minus, !pow2_nonneg by lia. rewrite Ex.
    apply ratio_lt; [lia | apply Z.pow_pos_nonneg; lia |]. nia. }
  destruct (Qle_bool (pow2 (ln - ld)) (n # d)) eqn:E.
  - apply Qle_bool_iff in E. split; assumption.
  - assert (Hlt : (n # d < pow2 (ln - ld))%Q).
    { apply Qnot_le_lt. intros H. apply Qle_bool_iff in H. congruence. }
    replace (ln - ld - 1 + 1) with (ln - ld) by lia.
    split; [apply Qlt_le_weak, Hlo | exact Hlt].
Qed.

Lemma round_half_even_bounds (x : Q) :
  Qfloor x <= round_half_even x <= Qfloor x + 1.
Proof.
  unfold round_half_even.
  destruct (x - inject_Z (Qfloor x) ?= 1 # 2)%Q; [destruct (Z.even _) | |]; lia.
Qed.

Lemma round_half_even_mono (x y : Q) :
  (x <= y)%Q -> round_half_even x <= round_half_even y.
Proof.
  intros H. pose proof (Qfloor_resp_le _ _ H) as Hf.
  destruct (Z.eq_dec (Qfloor x) (Qfloor y)) as [E | E].
  - unfold round_half_even. rewrite <- E.
    destruct (Qcompare_spec (x - inject_Z (Qfloor x)) (1 # 2)) as [Hx | Hx | Hx];
      destruct (Qcompare_spec (y - inject_Z (Qfloor x)) (1 # 2)) as [Hy | Hy | Hy];
      try (destruct (Z.even (Qfloor x))); try lia; exfalso; lra.
  - pose proof (round_half_even_bounds x). pose proof (round_half_even_bounds y).
    lia.
Qed.

Lemma round_half_even_Z (n : Z) : round_half_even (inject_Z n) = n.
Proof.
  unfold round_half_even. rewrite Qfloor_Z.
  destruct (Qcompare_spec (inject_Z n - inject_Z n) (1 # 2)) as [H | H | H];
    [exfalso; lra | reflexivity | exfalso; lra].
Qed.

Lemma pow2_quotient (e : Z) : (pow2 e / pow2 (e - 52) == inject_Z (2 ^ 52))%Q.
Proof.
  rewrite <- pow2_minus. replace (e - (e - 52)) with 52 by lia.
  apply pow2_nonneg. lia.
Qed.

Lemma pow2_succ_quotient (e : Z) :
  (pow2 (e + 1) / pow2 (e - 52) == inject_Z (2 ^ 53))%Q.
Proof.
  rewrite <- pow2_minus. replace (e + 1 - (e - 52)) with 53 by lia.
  apply pow2_nonneg. lia.
Qed.

(** The nearest number stays in the binade of [x], its upper end included. *)
Lemma nearest_binade (x : Q) :
  (0 < x)%Q ->
  (pow2 (ilog2 x) <= nearest x /\ nearest x <= pow2 (ilog2 x + 1))%Q.
Proof.
  intros Hx. destruct (ilog2_spec x Hx) as [Hlo Hhi].
  unfold nearest. set (e := ilog2 x) in *.
  pose proof (pow2_pos (e - 52)) as Hu. set (ulp := pow2 (e - 52)) in *.
  assert (H1 : (inject_Z (2 ^ 52) <= x / ulp)%Q).
  { rewrite <- (pow2_quotient e). fold ulp.
    apply Qmult_le_compat_r; [exact Hlo |]. apply Qlt_le_weak, Qinv_lt_0_compat, Hu. }
  assert (H2 : (x / ulp <= inject_Z (2 ^ 53))%Q).
  { rewrite <- (pow2_succ_quotient e). fold ulp.
    apply Qmult_le_compat_r; [apply Qlt_le_weak, Hhi |].
    apply Qlt_le_weak, Qinv_lt_0_compat, Hu. }
  apply round_half_even_mono in H1, H2. rewrite round_half_even_Z in H1, H2.
  rewrite Zle_Qle in H1, H2.
  assert (E1 : (pow2 e == inject_Z (2 ^ 52) * ulp)%Q).
  { rewrite <- (pow2_quotient e). fold ulp. field.
    intros E0. rewrite E0 in Hu. discriminate Hu. }
  assert (E2 : (pow2 (e + 1) == inject_Z (2 ^ 53) * ulp)%Q).
  { rewrite <- (pow2_succ_quotient e). fold ulp. field.
    intros E0. rewrite E0 in Hu. discriminate Hu. }
  rewrite E1, E2. split; apply Qmult_le_compat_r; try assumption;
    apply Qlt_le_weak, Hu.
Qed.

Lemma ilog2_mono (x y : Q) :
  (0 < x)%Q -> (x <= y)%Q -> ilog2 x <= ilog2 y.
Proof.
  intros Hx Hxy.
  destruct (ilog2_spec x Hx) as [Hlo _].
  destruct (ilog2_spec y ltac:(lra)) as [_ Hhi].
  assert (H : (pow2 (ilog2 x) < pow2 (ilog2 y + 1))%Q) by lra.
  apply pow2_lt_inv in H. lia.
Qed.

Lemma nearest_mono (x y : Q) :
  (0 < x)%Q -> (x <= y)%Q -> (nearest x <= nearest y)%Q.
Proof.
  intros Hx Hxy. assert (Hy : (0 < y)%Q) by lra.
  pose proof (ilog2_mono x y Hx Hxy) as He.
  destruct (Z.eq_dec (ilog2 x) (ilog2 y)) as [E | E].
  - unfold nearest. rewrite E.
    pose proof (pow2_pos (ilog2 y - 52)) as Hu.
    apply Qmult_le_compat_r; [| apply Qlt_le_weak, Hu].
    rewrite <- Zle_Qle. apply round_half_even_mono.
    apply Qmult_le_compat_r; [exact Hxy |].
    apply Qlt_le_weak, Qinv_lt_0_compat, Hu.
  - destruct (nearest_binade x Hx) as [_ Hx2].
    destruct (nearest_binade y Hy) as [Hy1 _].
    pose proof (pow2_le (ilog2 x + 1) (ilog2 y) ltac:(lia)). lra.
Qed.

Lemma nearest_pos (x : Q) : (0 < x)%Q -> (0 < nearest x)%Q.
Proof.
  intros Hx. destruct (nearest_binade x Hx) as [H _].
  pose proof (pow2_pos (ilog2 x)). lra.
Qed.

Lemma nearest_comp (x y : Q) : (0 < x)%Q -> (x == y)%Q -> (nearest x == nearest y)%Q.
Proof.
  intros Hx E. apply Qle_antisym; apply nearest_mono; lra.
Qed.

(** Rounding to binary64 keeps the order. *)
Lemma binary64_mono (x y : Q) : (x <= y)%Q -> (binary64 x <= binary64 y)%Q.
Proof.
  intros H. unfold binary64.
  destruct (Qcompare_spec x 0) as [Hx | Hx | Hx];
    destruct (Qcompare_spec y 0) as [Hy | Hy | Hy]; try (exfalso; lra).
  - lra.
  - apply Qlt_le_weak, nearest_pos, Hy.
  - pose proof (nearest_pos (- x) ltac:(lra)). lra.
  - pose proof (nearest_mono (- y) (- x) ltac:(lra) ltac:(lra)). lra.
  - pose proof (nearest_pos (- x) ltac:(lra)).
    pose proof (nearest_pos y Hy). lra.
  - apply nearest_mono; assumption.
Qed.

Lemma binary64_comp (x y : Q) : (x == y)%Q -> (binary64 x == binary64 y)%Q.
Proof. intros E. apply Qle_antisym; apply binary64_mono; lra. Qed.

Lemma round_half_even_comp (x y : Q) :
  (x == y)%Q -> round_half_even x = round_half_even y.
Proof.
  intros E.
  pose proof (round_half_even_mono x y ltac:(lra)).
  pose proof (round_half_even_mono y x ltac:(lra)). lia.
Qed.

Lemma nearest_Z (n : Z) :
  0 < n <= 2 ^ 53 -> (nearest (inject_Z n) == inject_Z n)%Q.
Proof.
  intros [Hn Hmax].
  assert (Hx : (0 < inject_Z n)%Q) by (rewrite <- (Zlt_Qlt 0); exact Hn).
  destruct (ilog2_spec _ Hx) as [Hlo Hhi].
  unfold nearest. set (e := ilog2 (inject_Z n)) in *.
  assert (He0 : 0 <= e).
  { assert (H : (pow2 0 < pow2 (e + 1))%Q).
    { eapply Qle_lt_trans; [| exact Hhi].
      change (pow2 0) with (inject_Z 1). rewrite <- Zle_Qle. lia. }
    apply pow2_lt_inv in H. lia. }
  assert (He53 : e <= 53).
  { assert (H : (pow2 e < pow2 54)%Q).
    { eapply Qle_lt_trans; [exact Hlo |].
      rewrite (pow2_nonneg 54) by lia. rewrite <- Zlt_Qlt. lia. }
    apply pow2_lt_inv in H. lia. }
  pose proof (pow2_pos (e - 52)) as Hu.
  destruct (Z.eq_dec e 53) as [E53 | NE].
  - assert (En : n = 2 ^ 53).
    { rewrite E53, (pow2_nonneg 53) in Hlo by lia.
      rewrite <- Zle_Qle in Hlo. lia. }
    rewrite E53. replace (53 - 52) with 1 by lia.
    assert (Eu : (pow2 1 == inject_Z 2)%Q) by (apply pow2_nonneg; lia).
    assert (Eq1 : (inject_Z n / pow2 1 == inject_Z (2 ^ 52))%Q).
    { rewrite Eu, En. reflexivity. }
    rewrite (round_half_even_comp _ _ Eq1), round_half_even_Z, Eu, En.
    reflexivity.
  - assert (Hk : 0 <= 52 - e) by lia.
    assert (Eu : (pow2 (e - 52) == / inject_Z (2 ^ (52 - e)))%Q).
    { replace (e - 52) with (- (52 - e)) by lia.
      unfold pow2. rewrite Qpower_opp. fold (pow2 (52 - e)).
      rewrite pow2_nonneg by lia. reflexivity. }
    assert (Hp : (0 < inject_Z (2 ^ (52 - e)))%Q).
    { rewrite <- (Zlt_Qlt 0). apply Z.pow_pos_nonneg; lia. }
    assert (Eq1 : (inject_Z n / pow2 (e - 52) == inject_Z (n * 2 ^ (52 - e)))%Q).
    { rewrite Eu, inject_Z_mult. field.
      intros E0. rewrite E0 in Hp. discriminate Hp. }
    rewrite (round_half_even_comp _ _ Eq1), round_half_even_Z, Eu, inject_Z_mult.
    field. intros E0. rewrite E0 in Hp. discriminate Hp.
Qed.

(** An integer of magnitude at most 2^53 is a binary64 number. *)
Lemma binary64_Z (n : Z) :
  Z.abs n <= 2 ^ 53 -> (binary64 (inject_Z n) == inject_Z n)%Q.
Proof.
  intros H. unfold binary64.
  destruct (Qcompare_spec (inject_Z n) 0) as [E | L | G].
  - symmetry. exact E.
  - assert (Hn : n < 0) by (rewrite (Zlt_Qlt n 0); exact L).
    assert (E : (- inject_Z n == inject_Z (- n))%Q)
      by (rewrite inject_Z_opp; reflexivity).
    assert (Hpos : (0 < - inject_Z n)%Q) by lra.
    rewrite (nearest_comp _ _ Hpos E), nearest_Z by lia.
    rewrite inject_Z_opp. ring.
  - assert (Hn : 0 < n) by (rewrite (Zlt_Qlt 0 n); exact G).
    apply nearest_Z. lia.
Qed.

Lemma ilog2_unique (x : Q) (e : Z) :
  (pow2 e <= x)%Q -> (x < pow2 (e + 1))%Q -> ilog2 x = e.
Proof.
  intros Hlo Hhi.
  assert (Hx : (0 < x)%Q) by (pose proof (pow2_pos e); lra).
  destruct (ilog2_spec x Hx) as [Slo Shi].
  assert (H1 : (pow2 e < pow2 (ilog2 x + 1))%Q) by lra.
  assert (H2 : (pow2 (ilog2 x) < pow2 (e + 1))%Q) by lra.
  apply pow2_lt_inv in H1, H2. lia.
Qed.

(** A binary64 number below 1 is at most [1 - 2^-53]. *)
Lemma binary64_below_one (d : Q) :
  (binary64 d == d)%Q -> (d < 1)%Q -> (d <= below_one)%Q.
Proof.
  intros Hd H1. apply Qnot_lt_le. intros Hb.
  assert (E53 : (pow2 (-53) == 1 # 9007199254740992)%Q) by reflexivity.
  assert (Em1 : (pow2 (-1) == 1 # 2)%Q) by reflexivity.
  assert (E0 : (pow2 (-1 + 1) == 1)%Q) by reflexivity.
  unfold below_one in Hb. rewrite E53 in Hb.
  assert (Hpos : (0 < d)%Q) by lra.
  assert (He : ilog2 d = -1).
  { apply ilog2_unique; [rewrite Em1; lra | rewrite E0; exact H1]. }
  unfold binary64 in Hd.
  destruct (Qcompare_spec d 0) as [C | C | C]; [lra | lra |].
  unfold nearest in Hd. rewrite He in Hd.
  replace (-1 - 52) with (-53) in Hd by lia.
  set (m := round_half_even (d / pow2 (-53))) in *.
  rewrite E53 in Hd.
  assert (A : (inject_Z (2 ^ 53 - 1) < inject_Z m)%Q).
  { change (inject_Z (2 ^ 53 - 1)) with (9007199254740991 # 1)%Q. lra. }
  assert (B : (inject_Z m < inject_Z (2 ^ 53))%Q).
  { change (inject_Z (2 ^ 53)) with (9007199254740992 # 1)%Q. lra. }
  rewrite <- Zlt_Qlt in A, B. lia.
Qed.

(** The largest binary64 below 1 times 100 rounds to a number below 100,
    so [Math.random() * 100] never reaches 100. *)
Lemma percent_below_100 (x : Q) :
  (x <= below_one)%Q -> (binary64 (x * inject_Z 100) < inject_Z 100)%Q.
Proof.
  intros H.
  assert (Hm : (x * inject_Z 100 <= below_one * inject_Z 100)%Q)
    by (apply Qmult_le_compat_r; [exact H | discriminate]).
  apply binary64_mono in Hm.
  eapply Qle_lt_trans; [exact Hm |]. vm_compute. reflexivity.
Qed.

(** Numbers the tests below use: 0.1, a sum that is not exact, a tie going
    to the even significand, and a negative number. *)
Example binary64_runs :
  (binary64 (1 # 10) == 3602879701896397 # 36028797018963968)%Q /\
  (binary64 (inject_Z 80 + binary64 (1 # 10))
   == 2818268204315443 # 35184372088832)%Q /\
  (binary64 (inject_Z (2 ^ 53 + 1)) == inject_Z (2 ^ 53))%Q /\
  (binary64 (inject_Z (2 ^ 53 + 3)) == inject_Z (2 ^ 53 + 4))%Q /\
  (binary64 (- (1 # 10)) == - (3602879701896397 # 36028797018963968))%Q /\
  (binary64 (below_one * inject_Z 100)
   == 7036874417766399 # 70368744177664)%Q.
Proof. vm_compute. repeat split; reflexivity. Qed.

End Float64Facts.

(** ** Inventory: transfer and equipment *)

Module InventoryFacts.
Import Inventory.

Lemma rows_stmt_run (w : Table -> Table) (c : Conn) : rows (stmt_run w c) = w (rows c).
Proof. reflexivity. Qed.

Lemma lookup_sql_unequip_slot (cid s : string) (t : Table) (k : string * string) :
  sql_unequip_slot cid s t !! k =
  (fun r => if decide (k.1 = cid /\ slot r = Some s)
            then mkRow (quantity r) 0 None else r) <$> t !! k.
Proof.
  unfold sql_unequip_slot. rewrite map_lookup_imap.
  destruct (t !! k); reflexivity.
Qed.

Lemma lookup_sql_upsert (cid iid : string) (q : Z) (t : Table) (k : string * string) :
  sql_upsert cid iid q t !! k =
  if decide ((cid, iid) = k)
  then Some (match t !! (cid, iid) with
             | None => mkRow q 0 None
             | Some r => mkRow (quantity r + q) (equipped r) (slot r)
             end)
  else t !! k.
Proof.
  unfold sql_upsert.
  destruct (t !! (cid, iid)) eqn:E; rewrite lookup_insert; reflexivity.
Qed.

(** A write that only clears equipment, or keeps the equipment columns of
    the rows it leaves, keeps the invariant. *)
Lemma equip_invariant_weaken (t t' : Table) :
  equip_invariant t ->
  (forall k r', t' !! k = Some r' ->
     equipped r' = 0 \/
     exists r, t !! k = Some r /\ equipped r = equipped r' /\ slot r = slot r') ->
  equip_invariant t'.
Proof.
  intros [Hs Ho] Hw. split.
  - intros cid iid r' Hr' He.
    destruct (Hw _ _ Hr') as [Hz | (r & Hr & Heq & Hsl)]; [congruence |].
    rewrite <- Hsl. apply (Hs cid iid r Hr). congruence.
  - intros cid i1 i2 r1' r2' H1 H2 He1 He2 Hsl.
    destruct (Hw _ _ H1) as [Hz | (r1 & Hr1 & Heq1 & Hsl1)]; [congruence |].
    destruct (Hw _ _ H2) as [Hz | (r2 & Hr2 & Heq2 & Hsl2)]; [congruence |].
    apply (Ho cid i1 i2 r1 r2 Hr1 Hr2); congruence.
Qed.

Lemma equip_invariant_empty : equip_invariant (∅ : Table).
Proof.
  split.
  - intros cid iid r H. rewrite lookup_empty in H. discriminate.
  - intros cid i1 i2 r1 r2 H. rewrite lookup_empty in H. discriminate.
Qed.

Lemma equip_invariant_delete (cid iid : string) (t : Table) :
  equip_invariant t -> equip_invariant (sql_delete cid iid t).
Proof.
  intros Hi. apply (equip_invariant_weaken t); [exact Hi |].
  intros k r' H. unfold sql_delete in H. rewrite lookup_delete in H.
  destruct (decide ((cid, iid) = k)); [discriminate |]. right. eauto.
Qed.

Lemma equip_invariant_decrement (q : Z) (cid iid : string) (t : Table) :
  equip_invariant t -> equip_invariant (sql_decrement q cid iid t).
Proof.
  intros Hi. apply (equip_invariant_weaken t); [exact Hi |].
  intros k r' H. unfold sql_decrement in H. rewrite lookup_alter in H.
  destruct (decide ((cid, iid) = k)) as [<- |]; [| right; eauto].
  destruct (t !! (cid, iid)) as [r |] eqn:E; [| discriminate].
  simpl in H. injection H as <-. right. exists r. auto.
Qed.

Lemma equip_invariant_upsert (cid iid : string) (q : Z) (t : Table) :
  equip_invariant t -> equip_invariant (sql_upsert cid iid q t).
Proof.
  intros Hi. apply (equip_invariant_weaken t); [exact Hi |].
  intros k r' H. rewrite lookup_sql_upsert in H.
  destruct (decide ((cid, iid) = k)) as [<- |]; [| right; eauto].
  injection H as <-.
  destruct (t !! (cid, iid)) as [r |] eqn:E; [right; exists r; auto | left; reflexivity].
Qed.

Lemma equip_invariant_unequip (cid iid : string) (t : Table) :
  equip_invariant t -> equip_invariant (sql_unequip cid iid t).
Proof.
  intros Hi. apply (equip_invariant_weaken t); [exact Hi |].
  intros k r' H. unfold sql_unequip in H. rewrite lookup_alter in H.
  destruct (decide ((cid, iid) = k)) as [<- |]; [| right; eauto].
  destruct (t !! (cid, iid)) as [r |] eqn:E; [| discriminate].
  simpl in H. injection H as <-. left. reflexivity.
Qed.

Lemma equip_invariant_unequip_slot (cid s : string) (t : Table) :
  equip_invariant t -> equip_invariant (sql_unequip_slot cid s t).
Proof.
  intros Hi. apply (equip_invariant_weaken t); [exact Hi |].
  intros k r' H. rewrite lookup_sql_unequip_slot in H.
  destruct (t !! k) as [r |] eqn:E; [| discriminate].
  simpl in H. injection H as <-.
  destruct (decide _); [left; reflexivity | right; exists r; auto].
Qed.

(** After the first statement of [equipItem] no row of the character is
    left in the slot. *)
Lemma slot_free_after_unequip_slot (cid s : string) (t : Table) (iid : string) (r : InvRow) :
  sql_unequip_slot cid s t !! (cid, iid) = Some r -> slot r <> Some s.
Proof.
  rewrite lookup_sql_unequip_slot.
  destruct (t !! (cid, iid)) as [r0 |]; [| discriminate].
  simpl. intros H. injection H as <-.
  destruct (decide _) as [[_ Hs] | Hn]; simpl; [discriminate |].
  intros Hs. apply Hn. split; [reflexivity | exact Hs].
Qed.

Lemma equip_invariant_equip (s cid iid : string) (t : Table) :
  equip_invariant t ->
  (forall i r, t !! (cid, i) = Some r -> slot r <> Some s) ->
  equip_invariant (sql_equip s cid iid t).
Proof.
  intros [Hs Ho] Hfree. unfold sql_equip. split.
  - intros c i r H He. rewrite lookup_alter in H.
    destruct (decide ((cid, iid) = (c, i))) as [Hk |].
    + destruct (t !! (cid, iid)); [| discriminate].
      simpl in H. injection H as <-. simpl. eauto.
    + eapply Hs; eauto.
  - intros c i1 i2 r1 r2 H1 H2 He1 He2 Hsl.
    rewrite lookup_alter in H1. rewrite lookup_alter in H2.
    destruct (decide ((cid, iid) = (c, i1))) as [K1 |];
    destruct (decide ((cid, iid) = (c, i2))) as [K2 |].
    + congruence.
    + injection K1 as -> ->.
      destruct (t !! (c, i1)); [| discriminate].
      simpl in H1. injection H1 as <-. simpl in Hsl.
      exfalso. apply (Hfree i2 r2 H2). congruence.
    + injection K2 as -> ->.
      destruct (t !! (c, i2)); [| discriminate].
      simpl in H2. injection H2 as <-. simpl in Hsl.
      exfalso. apply (Hfree i1 r1 H1). congruence.
    + eapply Ho; eauto.
Qed.

Lemma equip_invariant_call (k : Call) (c : Conn) :
  equip_invariant (rows c) -> equip_invariant (rows (call k c)).
Proof.
  intros Hi. destruct k as [cid iid q | cid iid q | cid iid s | cid iid | f t iid q];
    simpl.
  - apply equip_invariant_upsert, Hi.
  - unfold removeItem. destruct (rows c !! (cid, iid)) as [row |]; [| exact Hi].
    destruct (quantity row <? q); [exact Hi |].
    destruct (quantity row =? q); simpl;
      [apply equip_invariant_delete | apply equip_invariant_decrement]; exact Hi.
  - apply equip_invariant_equip.
    + apply equip_invariant_unequip_slot, Hi.
    + intros i r. apply slot_free_after_unequip_slot.
  - apply equip_invariant_unequip, Hi.
  - unfold transferItem. destruct (rows c !! (f, iid)) as [row |]; [| exact Hi].
    destruct (quantity row <? q); [exact Hi |].
    destruct (negb (equipped row =? 0)); [exact Hi |].
    simpl. apply equip_invariant_upsert.
    destruct (quantity row =? q); simpl;
      [apply equip_invariant_delete | apply equip_invariant_decrement]; exact Hi.
Qed.

(** C8.  Every sequence of repository calls (add, remove, equip, unequip,
    transfer; in particular every sequence of equipItem and unequipItem)
    run on a table that satisfies the equipment invariant leaves a table
    that satisfies it: every row with [equipped] set has a slot that is not
    NULL, and no two equipped rows of one character share a slot. *)
Theorem equip_invariant_calls (ks : list Call) (c : Conn) :
  equip_invariant (rows c) -> equip_invariant (rows (calls ks c)).
Proof.
  revert c. induction ks as [| k ks IH]; intros c Hi; simpl.
  - exact Hi.
  - apply IH, equip_invariant_call, Hi.
Qed.

(** Equipping a second item into an occupied slot frees the slot first. *)
Example equip_replaces :
  let c := calls [CallAdd "hero" "sword" 1; CallAdd "hero" "axe" 1;
                  CallEquip "hero" "sword" "mainhand";
                  CallEquip "hero" "axe" "mainhand"] open_db in
  rows c !! ("hero", "sword") = Some (mkRow 1 0 None) /\
  rows c !! ("hero", "axe") = Some (mkRow 1 1 (Some "mainhand")).
Proof. vm_compute. split; reflexivity. Qed.

Lemma equip_invariant_calls_witness :
  equip_invariant
    (rows (calls [CallAdd "hero" "sword" 1; CallAdd "hero" "axe" 1;
                  CallEquip "hero" "sword" "mainhand";
                  CallEquip "hero" "axe" "mainhand";
                  CallUnequip "hero" "axe"] open_db)).
Proof. apply equip_invariant_calls. exact equip_invariant_empty. Defined.

Lemma transfer_refused_dec (src : option InvRow) (q : Z) :
  transfer_refused src q ->
  match src with
  | None => True
  | Some r => (quantity r <? q) = true \/ negb (equipped r =? 0) = true
  end.
Proof.
  intros [-> | (r & -> & [Hq | He])]; [exact I | left | right].
  - apply Z.ltb_lt, Hq.
  - apply negb_true_iff, Z.eqb_neq, He.
Qed.

(** The writes of a transfer whose statements all run.  A transfer whose
    source entry is absent, holds less than [q] or is equipped returns false
    and leaves the connection as it was.  Otherwise the first write, [t1],
    decrements the source entry by [q], deleting it when it held exactly
    [q]; the second, [t2], adds [q] to the destination entry, inserting it
    when absent; the only snapshot committed is [t2]. *)
Lemma transfer_writes (src dst item : string) (q : Z) (c : Conn) :
  (transfer_refused (rows c !! (src, item)) q ->
   transferItem src dst item q c = (false, c)) /\
  (forall r, rows c !! (src, item) = Some r ->
     q <= quantity r -> equipped r = 0 ->
     exists t1 t2 : Table,
       transferItem src dst item q c = (true, mkConn t2 (t2 :: committed c)) /\
       t1 !! (src, item) =
         (if quantity r =? q then None
          else Some (mkRow (quantity r - q) (equipped r) (slot r))) /\
       (forall k, k <> (src, item) -> t1 !! k = rows c !! k) /\
       t2 !! (dst, item) =
         Some (match t1 !! (dst, item) with
               | None => mkRow q 0 None
               | Some d => mkRow (quantity d + q) (equipped d) (slot d)
               end) /\
       (forall k, k <> (dst, item) -> t2 !! k = t1 !! k) /\
       (src <> dst ->
        t2 !! (src, item) =
          (if quantity r =? q then None
           else Some (mkRow (quantity r - q) (equipped r) (slot r))) /\
        t2 !! (dst, item) =
          Some (match rows c !! (dst, item) with
                | None => mkRow q 0 None
                | Some d => mkRow (quantity d + q) (equipped d) (slot d)
                end))).
Proof.
  split.
  - intros Href. apply transfer_refused_dec in Href. unfold transferItem.
    destruct (rows c !! (src, item)) as [r |]; [| reflexivity].
    destruct Href as [-> | Heq]; [reflexivity |].
    destruct (quantity r <? q); [reflexivity |]. rewrite Heq. reflexivity.
  - intros r Hr Hq He.
    set (t1 := if quantity r =? q then sql_delete src item (rows c)
               else sql_decrement q src item (rows c)).
    exists t1, (sql_upsert dst item q t1).
    assert (H1 : t1 !! (src, item) =
                 (if quantity r =? q then None
                  else Some (mkRow (quantity r - q) (equipped r) (slot r)))).
    { unfold t1. destruct (quantity r =? q).
      - apply lookup_delete_eq.
      - unfold sql_decrement. rewrite lookup_alter_eq, Hr. reflexivity. }
    assert (H2 : forall k, k <> (src, item) -> t1 !! k = rows c !! k).
    { intros k Hk. unfold t1. destruct (quantity r =? q).
      - apply lookup_delete_ne. congruence.
      - apply lookup_alter_ne. congruence. }
    assert (H3 : forall k, k <> (dst, item) ->
                   sql_upsert dst item q t1 !! k = t1 !! k).
    { intros k Hk. rewrite lookup_sql_upsert.
      destruct (decide ((dst, item) = k)); congruence. }
    assert (H4 : sql_upsert dst item q t1 !! (dst, item) =
                 Some (match t1 !! (dst, item) with
                       | None => mkRow q 0 None
                       | Some d => mkRow (quantity d + q) (equipped d) (slot d)
                       end)).
    { rewrite lookup_sql_upsert. destruct (decide _); congruence. }
    repeat split; try assumption.
    + unfold transferItem. rewrite Hr.
      replace (quantity r <? q) with false by (symmetry; apply Z.ltb_ge, Hq).
      rewrite He. simpl. unfold transaction, t1.
      destruct (quantity r =? q); reflexivity.
    + rewrite H3 by congruence. exact H1.
    + rewrite H4, H2 by congruence. reflexivity.
Qed.

(** A transfer that returns did what the transfer without keys does, and
    leaves the parent tables alone. *)
Lemma transferItem_returned (src dst item : string) (q : Z)
    (db db' : ForeignKeys.Db) (b : bool) :
  ForeignKeys.transferItem src dst item q db = (ForeignKeys.Returned b, db') ->
  transferItem src dst item q (ForeignKeys.conn db) = (b, ForeignKeys.conn db') /\
  ForeignKeys.characterIds db' = ForeignKeys.characterIds db /\
  ForeignKeys.itemIds db' = ForeignKeys.itemIds db.
Proof.
  unfold ForeignKeys.transferItem, transferItem.
  destruct (rows (ForeignKeys.conn db) !! (src, item)) as [r |];
    [| intros [= <- <-]; auto].
  destruct (quantity r <? q); [intros [= <- <-]; auto |].
  destruct (negb (equipped r =? 0)); [intros [= <- <-]; auto |].
  unfold ForeignKeys.transaction, ForeignKeys.run_upsert, transaction.
  destruct (quantity r =? q); cbn [rows];
    destruct (ForeignKeys.upsert_allowed _ _ _ _); intros [= <- <-];
    repeat split; reflexivity.
Qed.

(** An add that returns did what the add without keys does. *)
Lemma addItem_returned (cid iid : string) (q : Z) (db db' : ForeignKeys.Db) :
  ForeignKeys.addItem cid iid q db = (ForeignKeys.Returned tt, db') ->
  ForeignKeys.conn db' = addItem cid iid q (ForeignKeys.conn db) /\
  ForeignKeys.characterIds db' = ForeignKeys.characterIds db /\
  ForeignKeys.itemIds db' = ForeignKeys.itemIds db.
Proof.
  unfold ForeignKeys.addItem, ForeignKeys.run_upsert, addItem.
  destruct (ForeignKeys.upsert_allowed _ _ _ _); intros [= <-].
  repeat split; reflexivity.
Qed.

(** A call that throws leaves the database as it was. *)
Lemma thrown_changes_nothing (src dst item : string) (q : Z)
    (db db' : ForeignKeys.Db) :
  (ForeignKeys.addItem dst item q db = (ForeignKeys.ForeignKeyViolation, db') ->
   db' = db) /\
  (ForeignKeys.transferItem src dst item q db
   = (ForeignKeys.ForeignKeyViolation, db') -> db' = db).
Proof.
  split.
  - unfold ForeignKeys.addItem.
    destruct (ForeignKeys.run_upsert _ _ _ _ _); intros [= <-]; reflexivity.
  - unfold ForeignKeys.transferItem.
    destruct (rows (ForeignKeys.conn db) !! (src, item)) as [r |];
      [| discriminate].
    destruct (quantity r <? q); [discriminate |].
    destruct (negb (equipped r =? 0)); [discriminate |].
    destruct (ForeignKeys.transaction _ _); intros [= <-]; reflexivity.
Qed.

(** C4, as amended.  A transfer whose source entry is absent, holds less
    than [q] or is equipped returns false and leaves the database as it
    was.  Otherwise the source write [t1] decrements the source entry by
    [q], deleting it when it held exactly [q], and then:
    - when the destination has an entry for the item, or the destination
      character and the item are stored, the call returns true; the second
      write [t2] adds [q] to the destination entry, inserting it when
      absent; both writes run in one transaction whose only committed
      snapshot is [t2], so [t1] is never visible; when the two characters
      differ the final entries are the decremented source and the
      incremented destination;
    - when the destination has no entry and the destination character or
      the item is not stored, the insert violates a foreign key: the call
      throws, the transaction is rolled back, and the database is as it
      was, the source entry included. *)
Theorem transferItem_spec (src dst item : string) (q : Z)
    (db : ForeignKeys.Db) :
  let c := ForeignKeys.conn db in
  let stored :=
    dst ∈ ForeignKeys.characterIds db /\ item ∈ ForeignKeys.itemIds db in
  (transfer_refused (rows c !! (src, item)) q ->
   ForeignKeys.transferItem src dst item q db
   = (ForeignKeys.Returned false, db)) /\
  (forall r, rows c !! (src, item) = Some r ->
     q <= quantity r -> equipped r = 0 ->
     exists t1 : Table,
       t1 !! (src, item) =
         (if quantity r =? q then None
          else Some (mkRow (quantity r - q) (equipped r) (slot r))) /\
       (forall k, k <> (src, item) -> t1 !! k = rows c !! k) /\
       (is_Some (t1 !! (dst, item)) \/ stored ->
        exists t2 : Table,
          ForeignKeys.transferItem src dst item q db
          = (ForeignKeys.Returned true,
             ForeignKeys.with_conn db (mkConn t2 (t2 :: committed c))) /\
          t2 !! (dst, item) =
            Some (match t1 !! (dst, item) with
                  | None => mkRow q 0 None
                  | Some d => mkRow (quantity d + q) (equipped d) (slot d)
                  end) /\
          (forall k, k <> (dst, item) -> t2 !! k = t1 !! k) /\
          (src <> dst ->
           t2 !! (src, item) =
             (if quantity r =? q then None
              else Some (mkRow (quantity r - q) (equipped r) (slot r))) /\
           t2 !! (dst, item) =
             Some (match rows c !! (dst, item) with
                   | None => mkRow q 0 None
                   | Some d => mkRow (quantity d + q) (equipped d) (slot d)
                   end))) /\
       (t1 !! (dst, item) = None -> ~ stored ->
        ForeignKeys.transferItem src dst item q db
        = (ForeignKeys.ForeignKeyViolation, db))).
Proof.
  intros c stored. split.
  - intros Href. apply transfer_refused_dec in Href.
    unfold ForeignKeys.transferItem. fold c.
    destruct (rows c !! (src, item)) as [r |]; [| reflexivity].
    destruct Href as [-> | Heq]; [reflexivity |].
    destruct (quantity r <? q); [reflexivity |]. rewrite Heq. reflexivity.
  - intros r Hr Hq He.
    destruct (proj2 (transfer_writes src dst item q c) r Hr Hq He)
      as (t1 & t2 & Ht & H1 & H2 & H3 & H4 & H5).
    assert (Et1 : t1 = if quantity r =? q then sql_delete src item (rows c)
                       else sql_decrement q src item (rows c)).
    { apply map_eq. intros k. destruct (decide (k = (src, item))) as [-> |].
      - rewrite H1. destruct (quantity r =? q).
        + symmetry. apply lookup_delete_eq.
        + unfold sql_decrement. rewrite lookup_alter_eq, Hr. reflexivity.
      - rewrite H2 by assumption. destruct (quantity r =? q).
        + symmetry. apply lookup_delete_ne. congruence.
        + symmetry. apply lookup_alter_ne. congruence. }
    assert (Et2 : t2 = sql_upsert dst item q t1).
    { revert Ht. unfold transferItem. fold c. rewrite Hr.
      replace (quantity r <? q) with false by (symmetry; apply Z.ltb_ge, Hq).
      rewrite He. cbn. unfold transaction. rewrite Et1.
      destruct (quantity r =? q); cbn; intros [= <-]; reflexivity. }
    assert (Hrun : ForeignKeys.transferItem src dst item q db
                   = if ForeignKeys.upsert_allowed db dst item t1
                     then (ForeignKeys.Returned true,
                           ForeignKeys.with_conn db
                             (mkConn t2 (t2 :: committed c)))
                     else (ForeignKeys.ForeignKeyViolation, db)).
    { unfold ForeignKeys.transferItem. fold c. rewrite Hr.
      replace (quantity r <? q) with false by (symmetry; apply Z.ltb_ge, Hq).
      rewrite He. cbn.
      unfold ForeignKeys.transaction, ForeignKeys.run_upsert.
      rewrite Et2, Et1.
      destruct (quantity r =? q); cbn [rows stmt_run];
        destruct (ForeignKeys.upsert_allowed _ _ _ _); reflexivity. }
    exists t1. split; [exact H1 |]. split; [exact H2 |]. split.
    + intros Hok. exists t2.
      replace (ForeignKeys.upsert_allowed db dst item t1) with true in Hrun.
      * split; [exact Hrun |]. split; [exact H3 |].
        split; [exact H4 | exact H5].
      * symmetry. unfold ForeignKeys.upsert_allowed.
        apply orb_true_iff. destruct Hok as [Hd | [Hc Hi]].
        -- left. apply bool_decide_eq_true, Hd.
        -- right. apply andb_true_iff.
           split; apply bool_decide_eq_true; assumption.
    + intros Hd Hns. rewrite Hrun.
      replace (ForeignKeys.upsert_allowed db dst item t1) with false;
        [reflexivity |].
      symmetry. unfold ForeignKeys.upsert_allowed.
      apply orb_false_iff. split.
      * apply bool_decide_eq_false. rewrite Hd. intros [x Hx]. discriminate.
      * apply andb_false_iff.
        destruct (decide (dst ∈ ForeignKeys.characterIds db)) as [Hc | Hc].
        -- right. apply bool_decide_eq_false. intros Hi. apply Hns.
           split; assumption.
        -- left. apply bool_decide_eq_false, Hc.
Qed.

Lemma transferItem_spec_witness :
  let db :=
    snd (ForeignKeys.addItem "alice" "potion" 3
           (ForeignKeys.stocked ["alice"; "bob"] ["potion"])) in
  let c := ForeignKeys.conn db in
  exists t1 t2 : Table,
    t1 !! ("alice", "potion") = Some (mkRow 1 0 None) /\
    ForeignKeys.transferItem "alice" "bob" "potion" 2 db
    = (ForeignKeys.Returned true,
       ForeignKeys.with_conn db (mkConn t2 (t2 :: committed c))) /\
    t2 !! ("alice", "potion") = Some (mkRow 1 0 None) /\
    t2 !! ("bob", "potion") = Some (mkRow 2 0 None).
Proof.
  intros db c.
  destruct (proj2 (transferItem_spec "alice" "bob" "potion" 2 db)
              (mkRow 3 0 None) eq_refl ltac:(simpl; lia) eq_refl)
    as (t1 & H1 & _ & Hok & _).
  destruct Hok as (t2 & Ht & _ & _ & Hne).
  { right. split; vm_compute; reflexivity. }
  destruct Hne as [Ha Hb]; [discriminate |].
  exists t1, t2. repeat split; assumption.
Defined.

(** C4 as stated fails: the source holds enough and is not equipped, yet
    the items are not moved when the destination character is not stored.
    The call throws and the database is as it was. *)
Lemma transfer_to_unknown_counterexample :
  let db :=
    snd (ForeignKeys.addItem "alice" "potion" 3
           (ForeignKeys.stocked ["alice"] ["potion"])) in
  rows (ForeignKeys.conn db) !! ("alice", "potion")%string
  = Some (mkRow 3 0 None) /\
  ForeignKeys.transferItem "alice" "bob" "potion" 2 db
  = (ForeignKeys.ForeignKeyViolation, db) /\
  fst (ForeignKeys.transferItem "alice" "bob" "potion" 2 db)
  <> ForeignKeys.Returned true /\
  fst (ForeignKeys.transferItem "alice" "bob" "potion" 2 db)
  <> ForeignKeys.Returned false.
Proof.
  intros db. split; [vm_compute; reflexivity |].
  assert (E : ForeignKeys.transferItem "alice" "bob" "potion" 2 db
              = (ForeignKeys.ForeignKeyViolation, db))
    by (vm_compute; reflexivity).
  split; [exact E |]. rewrite E. split; discriminate.
Qed.

(** A transfer between two characters, and a character giving to itself:
    the row is deleted and inserted again, so the count is unchanged. *)
Example transfer_runs :
  let c := addItem "alice" "potion" 3 open_db in
  rows (snd (transferItem "alice" "bob" "potion" 3 c)) !! ("alice", "potion") = None /\
  rows (snd (transferItem "alice" "bob" "potion" 3 c)) !! ("bob", "potion")
    = Some (mkRow 3 0 None) /\
  rows (snd (transferItem "alice" "alice" "potion" 3 c)) !! ("alice", "potion")
    = Some (mkRow 3 0 None) /\
  length (committed (snd (transferItem "alice" "bob" "potion" 3 c)))
    = S (length (committed c)).
Proof. vm_compute. repeat split; reflexivity. Qed.


End InventoryFacts.

(** ** Combat: end of encounter *)

Module CombatFacts.
Import Characters Combat.

Lemma update_hp_lookup (id : string) (hp : Z) (t : CharacterTable) (j : string) :
  update_hp id hp t !! j =
  if decide (id = j) then with_hp hp <$> t !! j else t !! j.
Proof.
  unfold update_hp. rewrite lookup_alter.
  destruct (decide (id = j)) as [-> |]; reflexivity.
Qed.

(** The table the loop leaves is the table after one hp write per
    participant, in order: the write on an id that is not stored does
    nothing. *)
Lemma sync_participant_table (acc : CharacterTable * list SyncResult)
    (p : Participant) :
  fst (sync_participant acc p) = update_hp (p_id p) (p_hp p) (fst acc).
Proof.
  destruct acc as [chars rs]. unfold sync_participant, findById. simpl.
  destruct (chars !! p_id p) eqn:E; simpl; [reflexivity |].
  apply map_eq. intros j. rewrite update_hp_lookup.
  destruct (decide (p_id p = j)) as [<- |]; [rewrite E |]; reflexivity.
Qed.

Lemma sync_fold_table (ps : list Participant)
    (acc : CharacterTable * list SyncResult) :
  fst (fold_left sync_participant ps acc) =
  fold_left (fun t p => update_hp (p_id p) (p_hp p) t) ps (fst acc).
Proof.
  revert acc. induction ps as [| p ps IH]; intros acc; simpl; [reflexivity |].
  rewrite IH, sync_participant_table. reflexivity.
Qed.

Lemma last_with_id_cons (id : string) (p : Participant) (ps : list Participant) :
  last_with_id id (p :: ps) =
  match last_with_id id ps with
  | Some q => Some q
  | None => if decide (p_id p = id) then Some p else None
  end.
Proof.
  unfold last_with_id. rewrite filter_cons.
  destruct (decide (p_id p = id)); [| destruct (last _); reflexivity].
  destruct (filter _ ps) as [| q qs] eqn:E; [reflexivity |].
  rewrite last_cons. destruct (last (q :: qs)) eqn:L; [reflexivity |].
  apply last_None in L. discriminate.
Qed.

(** What the loop leaves under each id: the hp of the last participant
    that carries the id, on the record that was stored. *)
Lemma sync_table_lookup (ps : list Participant) (t : CharacterTable) (id : string) :
  fold_left (fun t p => update_hp (p_id p) (p_hp p) t) ps t !! id =
  match last_with_id id ps with
  | Some q => with_hp (p_hp q) <$> t !! id
  | None => t !! id
  end.
Proof.
  revert t. induction ps as [| p ps IH]; intros t; simpl; [reflexivity |].
  rewrite IH, last_with_id_cons, update_hp_lookup.
  destruct (last_with_id id ps) as [q |];
    destruct (decide (p_id p = id)); try reflexivity.
  destruct (t !! id); reflexivity.
Qed.

Lemma last_with_id_NoDup (ps : list Participant) (p : Participant) :
  NoDup (p_id <$> ps) -> p ∈ ps -> last_with_id (p_id p) ps = Some p.
Proof.
  induction ps as [| q ps IH]; intros Hnd Hin.
  - inversion Hin.
  - rewrite fmap_cons in Hnd. apply NoDup_cons in Hnd as [Hq Hnd].
    rewrite last_with_id_cons. apply elem_of_cons in Hin as [-> | Hin].
    + destruct (last_with_id (p_id q) ps) as [r |] eqn:L.
      * exfalso. apply Hq. unfold last_with_id in L.
        apply last_Some_elem_of, list_elem_of_filter in L as [Hr Hrin].
        rewrite <- Hr. apply list_elem_of_fmap. eauto.
      * destruct (decide (p_id q = p_id q)); congruence.
    + rewrite (IH Hnd Hin). reflexivity.
Qed.

Lemma last_with_id_absent (ps : list Participant) (id : string) :
  id ∉ p_id <$> ps -> last_with_id id ps = None.
Proof.
  intros Hn. destruct (last_with_id id ps) as [q |] eqn:L; [| reflexivity].
  exfalso. apply Hn. unfold last_with_id in L.
  apply last_Some_elem_of, list_elem_of_filter in L as [Hq Hin].
  rewrite <- Hq. apply list_elem_of_fmap. eauto.
Qed.

Section Facts.

Context {Engine ActionResult : Type}.
Variable newEngine : string -> Engine.
Variable loadState : CombatState -> Engine -> Engine.
Variable getState : Engine -> option CombatState.
Variable getCurrentParticipant : Engine -> option Participant.
Variable executeAttack :
  string -> string -> Z -> Z -> Z -> Engine -> option ActionResult * Engine.
Variable executeHeal :
  string -> string -> Z -> Engine -> option ActionResult * Engine.
Variable nextTurnWithConditions : Engine -> Engine.

(** C1, as amended.  When the encounter is in memory with final state
    [final] and no two participants of [final] share an id,
    [handleEndEncounter] returns and leaves a character table in which every
    participant whose id is the id of a stored character finds its final hp
    in that record (the other fields kept), while an id that is not stored
    stays absent and a stored character that is no participant is left
    untouched. *)
Theorem end_encounter_write_back (sessionId encounterId : string)
    (w : Server) (engine : Engine) (final : CombatState) :
  combatManager w !! namespaced sessionId encounterId = Some engine ->
  getState engine = Some final ->
  NoDup (p_id <$> participants final) ->
  exists syncResults w',
    handleEndEncounter getState sessionId encounterId w = (Ok syncResults, w') /\
    hp_written_back final (characters w) (characters w') /\
    others_untouched final (characters w) (characters w').
Proof.
  intros Hm Hs Hnd. unfold handleEndEncounter. rewrite Hm, Hs.
  destruct (sync_all (participants final) (characters w)) as [chars rs] eqn:E.
  exists rs, (mkServer (delete (namespaced sessionId encounterId) (combatManager w))
                (encounters w) chars).
  assert (Hc : chars = fold_left (fun t p => update_hp (p_id p) (p_hp p) t)
                         (participants final) (characters w)).
  { change chars with (fst (chars, rs)). rewrite <- E. unfold sync_all.
    rewrite sync_fold_table. reflexivity. }
  split; [reflexivity |]. simpl. split.
  - intros p Hin ch Hch. rewrite Hc, sync_table_lookup.
    rewrite (last_with_id_NoDup _ _ Hnd Hin), Hch. reflexivity.
  - intros id Hid. rewrite Hc, sync_table_lookup.
    destruct Hid as [Hnone | Hout].
    + rewrite Hnone. destruct (last_with_id id (participants final)); reflexivity.
    + rewrite (last_with_id_absent _ _ Hout). reflexivity.
Qed.





End Facts.

(** The encounter of scenario 1 after the goblin was hit for 7 and the hero
    for 3, with the hero stored as a character. *)
Lemma end_encounter_write_back_witness :
  let final :=
    mkCombatState [mkParticipant "hero" "Valeros" 2 15 false 17 20;
                   mkParticipant "goblin" "Goblin" 1 9 true 0 7]
                  ["hero"; "goblin"]%string 0 2 in
  let w :=
    mkServer {[ "s1:enc"%string := Some final ]} ∅
             {[ "hero"%string := mkCharacter "Valeros" ∅ 20 20 1 None ]} in
  exists syncResults w',
    handleEndEncounter snapshot_get "s1" "enc" w = (Ok syncResults, w') /\
    hp_written_back final (characters w) (characters w') /\
    others_untouched final (characters w) (characters w').
Proof.
  intros final w.
  apply (end_encounter_write_back snapshot_get "s1" "enc" w (Some final) final);
    [reflexivity | reflexivity |].
  simpl. apply NoDup_cons. split; [| apply NoDup_singleton].
  intros H. apply list_elem_of_singleton in H. discriminate H.
Defined.

Example end_encounter_scenario :
  let final :=
    mkCombatState [mkParticipant "hero" "Valeros" 2 15 false 17 20;
                   mkParticipant "goblin" "Goblin" 1 9 true 0 7]
                  ["hero"; "goblin"]%string 0 2 in
  let hero := mkCharacter "Valeros" ∅ 20 20 1 None in
  let w :=
    mkServer {[ "s1:enc"%string := Some final ]} ∅ {[ "hero"%string := hero ]} in
  let r := handleEndEncounter snapshot_get "s1" "enc" w in
  fst r = Ok [mkSync "hero" "Valeros" 17 true; mkSync "goblin" "Goblin" 0 false] /\
  characters (snd r) !! "hero"%string = Some (with_hp 17 hero) /\
  characters (snd r) !! "goblin"%string = None /\
  combatManager (snd r) !! "s1:enc"%string = None.
Proof. vm_compute. repeat split; reflexivity. Qed.

(** C1 as stated fails when two participants share an id: both write to
    the same stored character, and the record keeps the hp of the later
    one, which is not the hp of the earlier one. *)
Lemma end_encounter_shared_id_counterexample :
  let final :=
    mkCombatState [mkParticipant "hero" "Valeros" 2 15 false 5 20;
                   mkParticipant "hero" "Mirror image" 0 9 false 3 20]
                  ["hero"; "hero"]%string 0 1 in
  let hero := mkCharacter "Valeros" ∅ 20 20 1 None in
  let w :=
    mkServer {[ "s1:enc"%string := Some final ]} ∅ {[ "hero"%string := hero ]} in
  let r := handleEndEncounter snapshot_get "s1" "enc" w in
  fst r = Ok [mkSync "hero" "Valeros" 5 true; mkSync "hero" "Mirror image" 3 true] /\
  characters (snd r) !! "hero"%string = Some (with_hp 3 hero) /\
  ~ hp_written_back final (characters w) (characters (snd r)).
Proof.
  intros final hero w r. split; [vm_compute; reflexivity |].
  split; [vm_compute; reflexivity |].
  intros H.
  specialize (H (mkParticipant "hero" "Valeros" 2 15 false 5 20)
                ltac:(apply list_elem_of_here) hero eq_refl).
  vm_compute in H. discriminate H.
Qed.

Example autoload_runs :
  let state :=
    mkCombatState [mkParticipant "hero" "Valeros" 2 15 false 17 20;
                   mkParticipant "goblin" "Goblin" 1 9 true 4 7]
                  ["hero"; "goblin"]%string 0 2 in
  let w : @Server (option CombatState) :=
    mkServer {[ "other:enc"%string := Some state ]}
             {[ "enc"%string := state ]} ∅ in
  fst (handleGetEncounterState snapshot_new snapshot_load snapshot_get
         "s1" "enc" w) = Ok ("enc"%string, state) /\
  combatManager (snd (handleGetEncounterState snapshot_new snapshot_load
                        snapshot_get "s1" "enc" w))
    !! "s1:enc"%string = Some (Some state) /\
  fst (handleGetEncounterState snapshot_new snapshot_load snapshot_get
         "s1" "nowhere" w) = Throw (EncounterNotFound "nowhere").
Proof. vm_compute. repeat split; reflexivity. Qed.


End CombatFacts.

(** ** Theft: steal, register_fence, recognize *)

Module TheftFacts.
Import Random Float64 Theft.

Lemma is_victim_stolen_from (npc : string) (s : TheftStore) :
  is_victim npc s <-> getItemsStolenFrom npc s <> [].
Proof.
  unfold is_victim, getItemsStolenFrom. split.
  - intros (item & r & Hr & Hv) Hnil.
    assert (Hin : r ∈ filter (fun r => stolenFrom r = npc)
                         (snd <$> map_to_list (records s))).
    { apply list_elem_of_filter. split; [exact Hv |].
      apply list_elem_of_fmap. exists (item, r). split; [reflexivity |].
      apply elem_of_map_to_list, Hr. }
    rewrite Hnil in Hin. inversion Hin.
  - intros Hne.
    destruct (filter _ _) as [| r rs] eqn:E; [congruence |].
    assert (Hin : r ∈ filter (fun r => stolenFrom r = npc)
                         (snd <$> map_to_list (records s))).
    { rewrite E. apply list_elem_of_here. }
    apply list_elem_of_filter in Hin as [Hv Hin].
    apply list_elem_of_fmap in Hin as ([item r'] & -> & Hin).
    apply elem_of_map_to_list in Hin. exists item, r'. split; assumption.
Qed.

(** C6.  A steal whose thief is the victim returns an error and leaves the
    store as it was.  Any other steal returns the record it created: the
    record is stored under the item id, names the victim and the thief, has
    heat level burning and carries exactly the witnesses supplied (none
    when the field is missing); no other record and no fence changes. *)
Theorem handleSteal_spec (args : StealArgs) (s : TheftStore) :
  (st_thiefId args = st_victimId args ->
   exists message, handleSteal args s = (StealError message, s)) /\
  (st_thiefId args <> st_victimId args ->
   exists record s',
     handleSteal args s
       = (StealOk record burning (length (default [] (st_witnesses args))), s') /\
     records s' !! st_itemId args = Some record /\
     itemId record = st_itemId args /\
     stolenFrom record = st_victimId args /\
     stolenBy record = st_thiefId args /\
     heatLevel record = burning /\
     witnesses record = default [] (st_witnesses args) /\
     (forall item, item <> st_itemId args ->
        records s' !! item = records s !! item) /\
     fences s' = fences s).
Proof.
  unfold handleSteal. split; intros H.
  - destruct (decide _); [eauto | contradiction].
  - destruct (decide _); [contradiction |]. simpl.
    eexists _, _. split; [reflexivity |]. simpl.
    rewrite lookup_insert_eq. repeat split.
    intros item Hi. apply lookup_insert_ne. congruence.
Qed.

Lemma handleSteal_spec_witness :
  let args := mkStealArgs "rogue" "merchant" "ring" (Some ["guard"%string]) None in
  exists record s',
    handleSteal args no_thefts = (StealOk record burning 1, s') /\
    records s' !! "ring"%string = Some record /\
    itemId record = "ring"%string /\
    stolenFrom record = "merchant"%string /\
    stolenBy record = "rogue"%string /\
    heatLevel record = burning /\
    witnesses record = ["guard"%string] /\
    (forall item, item <> "ring"%string ->
       records s' !! item = records no_thefts !! item) /\
    fences s' = fences no_thefts.
Proof.
  intros args.
  apply (proj2 (handleSteal_spec args no_thefts)). discriminate.
Defined.

Example self_theft_rejected :
  handleSteal (mkStealArgs "A" "A" "x" None None) no_thefts
  = (StealError "A character cannot steal from themselves", no_thefts).
Proof. reflexivity. Qed.

(** C5, as amended.  A register_fence request for an npc that some theft
    record names as [stolenFrom] returns an error and leaves the store as
    it was, so no fence is created; and whenever a registration succeeds,
    the npc it registered is, in the store it leaves, a fence and not the
    victim of any recorded theft. *)
Theorem register_fence_guard (args : RegisterFenceArgs) (s : TheftStore) :
  (is_victim (rf_npcId args) s ->
   exists message n, handleRegisterFence args s = (RegisterFenceError message n, s)) /\
  (forall fence s',
     handleRegisterFence args s = (RegisterFenceOk fence, s') ->
     is_fence (rf_npcId args) s' /\ ~ is_victim (rf_npcId args) s').
Proof.
  unfold handleRegisterFence. split.
  - intros Hv. apply is_victim_stolen_from in Hv.
    destruct (getItemsStolenFrom (rf_npcId args) s) as [| r rs]; [congruence |].
    simpl. eauto.
  - intros fence s' H.
    destruct (getItemsStolenFrom (rf_npcId args) s) as [| r rs] eqn:E;
      simpl in H; [| discriminate].
    injection H as <- <-. split.
    + unfold is_fence. simpl. rewrite lookup_insert_eq. eauto.
    + intros Hv. apply is_victim_stolen_from in Hv. apply Hv.
      unfold getItemsStolenFrom in *. simpl. exact E.
Qed.

Lemma register_fence_guard_witness :
  let steal := mkStealArgs "rogue" "merchant" "ring" None None in
  let args := mkRegisterFenceArgs "merchant" None (2 # 5) hot 100 None 7 in
  let s := snd (handleSteal steal no_thefts) in
  exists message n,
    handleRegisterFence args s = (RegisterFenceError message n, s).
Proof.
  intros steal args s.
  apply (proj1 (register_fence_guard args s)).
  exists "ring"%string, (mkTheftRecord "ring" "merchant" "rogue" None [] burning false 0).
  split; reflexivity.
Defined.

(** The consequence C5 draws fails: nothing stops a theft from an npc that
    is already a fence.  Registering the merchant and then stealing from it
    are both accepted and leave the merchant a fence and a victim. *)
Lemma fence_then_victim_counterexample :
  let register := mkRegisterFenceArgs "merchant" None (2 # 5) hot 100 None 7 in
  let steal := mkStealArgs "rogue" "merchant" "ring" None None in
  (exists fence, fst (handleRegisterFence register no_thefts) = RegisterFenceOk fence) /\
  (exists record,
     fst (handleSteal steal (snd (handleRegisterFence register no_thefts)))
     = StealOk record burning 0) /\
  ~ fence_victim_exclusive
      (requests [ReqRegisterFence register; ReqSteal steal] no_thefts).
Proof.
  intros register steal. split; [eexists; reflexivity |].
  split; [eexists; reflexivity |].
  intros H. apply (H "merchant"%string). split.
  - unfold is_fence. vm_compute. eauto.
  - exists "ring"%string,
      (mkTheftRecord "ring" "merchant" "rogue" None [] burning false 0).
    split; reflexivity.
Qed.

Lemma Qltb_lt (x y : Q) : Qltb x y = true <-> (x < y)%Q.
Proof.
  unfold Qltb. rewrite negb_true_iff. split.
  - intros H. apply Qnot_le_lt. intros Hle.
    apply Qle_bool_iff in Hle. congruence.
  - intros H. destruct (Qle_bool y x) eqn:E; [| reflexivity].
    apply Qle_bool_iff in E. exfalso. exact (Qlt_not_le _ _ H E).
Qed.

Lemma Qmin'_min (x y : Q) : (Qmin' x y == Qmin x y)%Q.
Proof.
  unfold Qmin'. destruct (Qle_bool x y) eqn:E.
  - apply Qle_bool_iff in E. symmetry. apply Q.min_l, E.
  - symmetry. apply Q.min_r. apply Qlt_le_weak, Qnot_le_lt.
    intros H. apply Qle_bool_iff in H. congruence.
Qed.

Section RecognizeFacts.

Variable HEAT_VALUES : HeatLevel -> Z.

(** C7.  For a recognize check on an item that has a theft record: when
    the npc is the record's [stolenFrom] the item is recognised with
    reaction hostile and no number is drawn; else when the npc is among the
    witnesses it is recognised with reaction suspicious and no number is
    drawn; else one number is drawn, the roll is that number times 100, and
    the item is recognised exactly when the roll is strictly below
    min(100, heatValue + bounty/10), so a roll equal to the threshold is not
    recognised.  The roll and the threshold are the binary64 numbers the
    handler computes: the product, the quotient and the sum are each
    rounded. *)
Theorem handleRecognize_order (args : RecognizeArgs) (s : TheftStore)
    (g : Rng) (record : TheftRecord) :
  getTheftRecord (rc_itemId args) s = Some record ->
  let r := handleRecognize HEAT_VALUES args s g in
  let rolled := binary64 (draws g (drawn g) * inject_Z 100)%Q in
  let chance :=
    Qmin (inject_Z 100)
         (binary64 (inject_Z (HEAT_VALUES (heatLevel record))
                    + binary64 (inject_Z (bounty record) / inject_Z 10)))%Q in
  (rc_npcId args = stolenFrom record ->
   r = (mkRecognizeResponse true true (Some "original_owner"%string)
          (Some "hostile"%string) None None, g)) /\
  (rc_npcId args <> stolenFrom record ->
   rc_npcId args ∈ witnesses record ->
   r = (mkRecognizeResponse true true (Some "witness"%string)
          (Some "suspicious"%string) None None, g)) /\
  (rc_npcId args <> stolenFrom record ->
   rc_npcId args ∉ witnesses record ->
   drawn (snd r) = S (drawn g) /\
   isStolen (fst r) = true /\
   (recognized (fst r) = true <-> (rolled < chance)%Q) /\
   ((rolled == chance)%Q -> recognized (fst r) = false) /\
   (recognized (fst r) = true -> reaction (fst r) = Some "suspicious"%string)).
Proof.
  intros Hrec r rolled chance. unfold r, handleRecognize. rewrite Hrec.
  split; [| split].
  - intros Ho. destruct (decide _); [reflexivity | contradiction].
  - intros Ho Hw. destruct (decide _); [contradiction |].
    destruct (decide _); [reflexivity | contradiction].
  - intros Ho Hw. destruct (decide _); [contradiction |].
    destruct (decide _); [contradiction |]. simpl.
    fold rolled.
    assert (Hc : (recognitionChance HEAT_VALUES record == chance)%Q)
      by apply Qmin'_min.
    destruct (Qltb rolled (recognitionChance HEAT_VALUES record)) eqn:E; simpl.
    + apply Qltb_lt in E. rewrite Hc in E.
      repeat split; try reflexivity; try (intros; exact E).
      intros Heq. rewrite Heq in E. exfalso. exact (Qlt_irrefl _ E).
    + repeat split; try reflexivity; try discriminate.
      intros Hlt. rewrite <- Hc in Hlt. apply Qltb_lt in Hlt. congruence.
Qed.

End RecognizeFacts.

(** A freshly stolen item with no bounty, heat values as the specification
    lists them: the threshold is 80, and a roll of exactly 80 does not
    recognise the item. *)
Lemma handleRecognize_order_witness :
  let steal := mkStealArgs "rogue" "merchant" "ring" (Some ["guard"%string]) None in
  let s := snd (handleSteal steal no_thefts) in
  let g := mkRng (fun _ => 4 # 5) 0 in
  let args := mkRecognizeArgs "stranger" "rogue" "ring" in
  let r := handleRecognize spec_heat_values args s g in
  drawn (snd r) = 1%nat /\
  isStolen (fst r) = true /\
  (recognized (fst r) = true <->
   (binary64 ((4 # 5) * inject_Z 100)
    < Qmin (inject_Z 100)
        (binary64 (inject_Z 80 + binary64 (inject_Z 0 / inject_Z 10))))%Q) /\
  ((binary64 ((4 # 5) * inject_Z 100)
    == Qmin (inject_Z 100)
         (binary64 (inject_Z 80 + binary64 (inject_Z 0 / inject_Z 10))))%Q ->
   recognized (fst r) = false) /\
  (recognized (fst r) = true -> reaction (fst r) = Some "suspicious"%string).
Proof.
  intros steal s g args r.
  apply (proj2 (proj2 (handleRecognize_order spec_heat_values args s g
                         (mkTheftRecord "ring" "merchant" "rogue" None
                            ["guard"%string] burning false 0) eq_refl))).
  - discriminate.
  - intros H. apply list_elem_of_singleton in H. discriminate H.
Defined.

Example recognize_runs :
  let steal := mkStealArgs "rogue" "merchant" "ring" (Some ["guard"%string]) None in
  let s := snd (handleSteal steal no_thefts) in
  let at_threshold := mkRng (fun _ => 4 # 5) 0 in
  let below := mkRng (fun _ => 79 # 100) 0 in
  fst (handleRecognize spec_heat_values (mkRecognizeArgs "merchant" "rogue" "ring") s below)
    = mkRecognizeResponse true true (Some "original_owner") (Some "hostile") None None /\
  fst (handleRecognize spec_heat_values (mkRecognizeArgs "guard" "rogue" "ring") s below)
    = mkRecognizeResponse true true (Some "witness") (Some "suspicious") None None /\
  fst (handleRecognize spec_heat_values (mkRecognizeArgs "stranger" "rogue" "ring") s below)
    = mkRecognizeResponse true true (Some "suspicion") (Some "suspicious") (Some 79) (Some 80) /\
  fst (handleRecognize spec_heat_values (mkRecognizeArgs "stranger" "rogue" "ring") s at_threshold)
    = mkRecognizeResponse false true None None (Some 80) (Some 80).
Proof. vm_compute. repeat split; reflexivity. Qed.

(** Rounding makes a tie: for a burning item with bounty 1 and the draw
    0.8009999999999999, the exact product 80.09999999999999... is below the
    exact sum 80.1, but both round to the same binary64 number, and the item
    is not recognised. *)
Example recognize_tie_after_rounding :
  let record :=
    mkTheftRecord "ring" "merchant" "rogue" None [] burning true 1 in
  let s := mkTheftStore {[ "ring"%string := record ]} ∅ in
  let draw := (3607383301523767 # 4503599627370496)%Q in
  let g := mkRng (fun _ => draw) 0 in
  (binary64 draw == draw)%Q /\
  (draw * inject_Z 100 < inject_Z 80 + inject_Z 1 / inject_Z 10)%Q /\
  (binary64 (draw * inject_Z 100)
   == binary64 (inject_Z 80 + binary64 (inject_Z 1 / inject_Z 10)))%Q /\
  fst (handleRecognize spec_heat_values
         (mkRecognizeArgs "stranger" "rogue" "ring") s g)
  = mkRecognizeResponse false true None None (Some 80) (Some 80).
Proof. vm_compute. repeat split; reflexivity. Qed.

End TheftFacts.

(** ** Improvisation: arcane synthesis *)

Module ImprovisationFacts.
Import Random Js Dice Characters Improvisation.

Lemma get_set_key_eq (k : string) (v : Z) (o : Obj) :
  get_key k (set_key k v o) = Some v.
Proof.
  unfold set_key. destruct (has_key k o) eqn:H.
  - induction o as [| [k' v'] o IH]; simpl in *; [discriminate |].
    destruct (String.eqb k k') eqn:E; simpl; rewrite E; [reflexivity |].
    apply IH. exact H.
  - induction o as [| [k' v'] o IH]; simpl in *.
    + rewrite String.eqb_refl. reflexivity.
    + destruct (String.eqb k k'); [discriminate | apply IH, H].
Qed.

Lemma get_set_key_ne (k k' : string) (v : Z) (o : Obj) :
  String.eqb k' k = false -> get_key k' (set_key k v o) = get_key k' o.
Proof.
  intros Hne. unfold set_key. destruct (has_key k o).
  - induction o as [| [k0 v0] o IH]; simpl; [reflexivity |].
    destruct (String.eqb k k0) eqn:E; simpl.
    + apply String.eqb_eq in E. subst k0. rewrite Hne. reflexivity.
    + destruct (String.eqb k' k0); [reflexivity | exact IH].
  - induction o as [| [k0 v0] o IH]; simpl.
    + rewrite Hne. reflexivity.
    + destruct (String.eqb k' k0); [reflexivity | exact IH].
Qed.

Lemma has_key_get_key (k : string) (o : Obj) :
  has_key k o = false <-> get_key k o = None.
Proof.
  induction o as [| [k' v'] o IH]; simpl; [tauto |].
  destruct (String.eqb k k'); simpl; [split; discriminate | exact IH].
Qed.

Lemma sum_values_app (o1 o2 : Obj) :
  sum_values (o1 ++ o2) = sum_values o1 + sum_values o2.
Proof.
  induction o1 as [| kv o1 IH]; simpl; [reflexivity |].
  unfold sum_values in *. simpl. rewrite IH. lia.
Qed.

(** Assigning a key adds the new value and takes away the one the key
    had. *)
Lemma sum_values_set_key (k : string) (v : Z) (o : Obj) :
  sum_values (set_key k v o) = sum_values o + v - default 0 (get_key k o).
Proof.
  unfold set_key. destruct (has_key k o) eqn:H.
  - induction o as [| [k' v'] o IH]; simpl in *; [discriminate |].
    destruct (String.eqb k k') eqn:E; unfold sum_values in *; simpl.
    + lia.
    + rewrite IH by exact H. lia.
  - apply has_key_get_key in H. rewrite H, sum_values_app.
    unfold sum_values. simpl. lia.
Qed.

Lemma sum_values_set_fresh (k : string) (v : Z) (o : Obj) :
  get_key k o = None -> sum_values (set_key k v o) = sum_values o + v.
Proof. intros H. rewrite sum_values_set_key, H. simpl. lia. Qed.

Lemma sum_values_set_same (k : string) (v : Z) (o : Obj) :
  get_key k o = Some v -> sum_values (set_key k v o) = sum_values o.
Proof. intros H. rewrite sum_values_set_key, H. simpl. lia. Qed.

Lemma tracks_ley_line (nL nC nD : nat) (acc : Z * Obj) :
  tracks nL nC nD acc ->
  tracks (S nL) nC nD (fst acc - 3, set_key "leyLine" (-3) (snd acc)).
Proof.
  intros (HL & HC & HD & Hsum). unfold tracks. simpl fst. simpl snd.
  rewrite get_set_key_eq, !get_set_key_ne by reflexivity.
  repeat split; try assumption.
  rewrite sum_values_set_key, HL, Hsum.
  destruct nL as [| n]; simpl Nat.eqb; simpl Nat.pred; simpl default; lia.
Qed.

Lemma tracks_celestial_event (nL nC nD : nat) (acc : Z * Obj) :
  tracks nL nC nD acc ->
  tracks nL (S nC) nD (fst acc - 2, set_key "celestialEvent" (-2) (snd acc)).
Proof.
  intros (HL & HC & HD & Hsum). unfold tracks. simpl fst. simpl snd.
  rewrite get_set_key_eq, !get_set_key_ne by reflexivity.
  repeat split; try assumption.
  rewrite sum_values_set_key, HC, Hsum.
  destruct nC as [| n]; simpl Nat.eqb; simpl Nat.pred; simpl default; lia.
Qed.

Lemma tracks_desperation (nL nC nD : nat) (acc : Z * Obj) :
  tracks nL nC nD acc ->
  tracks nL nC (S nD) (fst acc + 2, set_key "desperation" 2 (snd acc)).
Proof.
  intros (HL & HC & HD & Hsum). unfold tracks. simpl fst. simpl snd.
  rewrite get_set_key_eq, !get_set_key_ne by reflexivity.
  repeat split; try assumption.
  rewrite sum_values_set_key, HD, Hsum.
  destruct nD as [| n]; simpl Nat.eqb; simpl Nat.pred; simpl default; lia.
Qed.

Lemma matching_cons (test : string -> bool) (m : string) (ms : list string) :
  matching test (m :: ms) =
  ((if test m then 1 else 0) + matching test ms)%nat.
Proof. unfold matching. simpl. destruct (test m); reflexivity. Qed.

Lemma tracks_step (nL nC nD : nat) (acc : Z * Obj) (m : string) :
  tracks nL nC nD acc ->
  tracks ((if mentions_ley_line m then 1 else 0) + nL)
         ((if mentions_celestial_event m then 1 else 0) + nC)
         ((if mentions_desperation m then 1 else 0) + nD)
         (circumstance_step acc m).
Proof.
  intros H. unfold circumstance_step.
  fold (mentions_ley_line m). fold (mentions_celestial_event m).
  fold (mentions_desperation m).
  destruct (mentions_ley_line m); [apply tracks_ley_line in H |];
    (destruct (mentions_celestial_event m);
       [apply tracks_celestial_event in H |]);
    (destruct (mentions_desperation m); [apply tracks_desperation in H |]);
    exact H.
Qed.

Lemma tracks_loop (ms : list string) (nL nC nD : nat) (acc : Z * Obj) :
  tracks nL nC nD acc ->
  tracks (matching mentions_ley_line ms + nL)
         (matching mentions_celestial_event ms + nC)
         (matching mentions_desperation ms + nD)
         (fold_left circumstance_step ms acc).
Proof.
  revert nL nC nD acc. induction ms as [| m ms IH]; intros nL nC nD acc H.
  - exact H.
  - simpl fold_left. rewrite !matching_cons.
    apply (tracks_step _ _ _ _ m), IH in H.
    replace ((if mentions_ley_line m then 1 else 0)
             + matching mentions_ley_line ms + nL)%nat
      with (matching mentions_ley_line ms
            + ((if mentions_ley_line m then 1 else 0) + nL))%nat by lia.
    replace ((if mentions_celestial_event m then 1 else 0)
             + matching mentions_celestial_event ms + nC)%nat
      with (matching mentions_celestial_event ms
            + ((if mentions_celestial_event m then 1 else 0) + nC))%nat by lia.
    replace ((if mentions_desperation m then 1 else 0)
             + matching mentions_desperation ms + nD)%nat
      with (matching mentions_desperation ms
            + ((if mentions_desperation m then 1 else 0) + nD))%nat by lia.
    exact H.
Qed.

(** The dc and the breakdown of "Calculate DC". *)
Lemma synthesis_dc_tracks (args : SynthesizeArgs) (knownSpells : list string) :
  let modifiers := default [] (circumstanceModifiers args) in
  tracks (matching mentions_ley_line modifiers)
         (matching mentions_celestial_event modifiers)
         (matching mentions_desperation modifiers)
         (synthesis_dc args knownSpells).
Proof.
  intros modifiers. unfold synthesis_dc.
  set (related := existsb _ knownSpells).
  set (red := Z.min 5 (default 0 (materialValue args) / 100)).
  assert (H0 : forall acc, tracks 0 0 0 acc ->
             tracks (matching mentions_ley_line modifiers)
                    (matching mentions_celestial_event modifiers)
                    (matching mentions_desperation modifiers)
                    match circumstanceModifiers args with
                    | Some ms => fold_left circumstance_step ms acc
                    | None => acc
                    end).
  { intros acc H. unfold modifiers.
    destruct (circumstanceModifiers args) as [ms |]; simpl default.
    - apply (tracks_loop ms) in H. rewrite !Nat.add_0_r in H. exact H.
    - exact H. }
  destruct (truthy_string (encounterId args)), (negb related),
           (truthy_number (materialValue args));
    apply H0; unfold tracks, sum_values; simpl;
    repeat split; try reflexivity; lia.
Qed.

Section SynthesizeFacts.

Variable WILD_SURGE_TABLE : list WildSurge.

(** The dc and the breakdown a result reports are those of "Calculate DC". *)
Lemma result_dc (args : SynthesizeArgs) (chars : CharacterTable)
    (spells spells' : list SpellRow) (g : Rng) (result : SynthesisResult) :
  handleSynthesize WILD_SURGE_TABLE args chars spells g = (Ok result, spells') ->
  (r_dc result, r_dcBreakdown result)
  = synthesis_dc args (snd (fst (caster_profile (casterId args) chars))).
Proof.
  unfold handleSynthesize.
  destruct (caster_profile _ _) as [[name known] modifier]. simpl snd.
  destruct (synthesis_dc args known) as [dc bd].
  destruct (roll_die 20 g) as [d20 g1].
  destruct (pick_outcome _ _ _); intros H;
    repeat match type of H with
    | context [match ?x with _ => _ end] => destruct x
    | context [if ?x then _ else _] => destruct x
    end;
    try discriminate; injection H as <- _; reflexivity.
Qed.

(** C10, as amended.  In every synthesize result the reported dc is the
    sum of the values of dcBreakdown, less 3 for every string after the
    first that mentions a ley line or magical nexus, less 2 for every string
    after the first that mentions a blood moon or eclipse, plus 2 for every
    string after the first that mentions desperation or urgency: the
    adjustment is applied once per matching string while dcBreakdown holds
    one entry per circumstance.  So the dc equals the sum of dcBreakdown
    whenever no circumstance is matched by more than one string. *)
Theorem synthesize_dc_breakdown (args : SynthesizeArgs) (chars : CharacterTable)
    (spells spells' : list SpellRow) (g : Rng) (result : SynthesisResult) :
  handleSynthesize WILD_SURGE_TABLE args chars spells g = (Ok result, spells') ->
  let modifiers := default [] (circumstanceModifiers args) in
  r_dc result
    = sum_values (r_dcBreakdown result)
      - 3 * repeats mentions_ley_line modifiers
      - 2 * repeats mentions_celestial_event modifiers
      + 2 * repeats mentions_desperation modifiers /\
  get_key "leyLine" (r_dcBreakdown result)
    = (if Nat.eqb (matching mentions_ley_line modifiers) 0
       then None else Some (-3)) /\
  get_key "celestialEvent" (r_dcBreakdown result)
    = (if Nat.eqb (matching mentions_celestial_event modifiers) 0
       then None else Some (-2)) /\
  get_key "desperation" (r_dcBreakdown result)
    = (if Nat.eqb (matching mentions_desperation modifiers) 0
       then None else Some 2) /\
  ((matching mentions_ley_line modifiers <= 1)%nat ->
   (matching mentions_celestial_event modifiers <= 1)%nat ->
   (matching mentions_desperation modifiers <= 1)%nat ->
   r_dc result = sum_values (r_dcBreakdown result)).
Proof.
  intros H modifiers. apply result_dc in H.
  pose proof (synthesis_dc_tracks args
                (snd (fst (caster_profile (casterId args) chars)))) as T.
  rewrite <- H in T. destruct T as (HL & HC & HD & Hsum).
  simpl fst in Hsum. simpl snd in *. fold modifiers in HL, HC, HD, Hsum.
  repeat split; try assumption.
  intros H1 H2 H3. rewrite Hsum.
  destruct (matching mentions_ley_line modifiers) as [| [| ?]];
    destruct (matching mentions_celestial_event modifiers) as [| [| ?]];
    destruct (matching mentions_desperation modifiers) as [| [| ?]];
    simpl Nat.pred; lia.
Qed.

(** A natural 1 through the chain of tests: the margin decides first, and
    the test of the natural 1 is reached only below the fizzle band. *)
Lemma pick_outcome_natural_one (total dc : Z) :
  pick_outcome 1 total dc =
  if 10 <=? total - dc then mastery
  else if dc <=? total then success
  else if -5 <=? total - dc then fizzle
  else catastrophic.
Proof.
  unfold pick_outcome. simpl.
  destruct (10 <=? total - dc), (dc <=? total), (-5 <=? total - dc);
    reflexivity.
Qed.

(** The outcome a result reports is the one the chain picks for its roll,
    total and dc, and the wild surge is the table entry of a second d20,
    rolled on a catastrophic outcome only. *)
Lemma result_outcome (args : SynthesizeArgs) (chars : CharacterTable)
    (spells spells' : list SpellRow) (g : Rng) (result : SynthesisResult) :
  handleSynthesize WILD_SURGE_TABLE args chars spells g = (Ok result, spells') ->
  r_roll result = fst (roll_die 20 g) /\
  r_outcome result
  = pick_outcome (r_roll result) (r_total result) (r_dc result) /\
  r_wildSurge result
  = (if bool_decide (r_outcome result = catastrophic)
     then surge_entry WILD_SURGE_TABLE
            (fst (roll_die 20 (snd (roll_die 20 g))))
     else None).
Proof.
  unfold handleSynthesize.
  destruct (caster_profile _ _) as [[name known] modifier].
  destruct (synthesis_dc args known) as [dc bd].
  destruct (roll_die 20 g) as [d20 g1]. cbn [fst snd].
  destruct (pick_outcome d20 (d20 + modifier) dc) eqn:EO; intros H;
    repeat match type of H with
    | context [match ?x with _ => _ end] => destruct x eqn:?
    | context [if ?x then _ else _] => destruct x eqn:?
    end;
    try discriminate; injection H as <- _; cbn; rewrite ?EO;
    repeat split; reflexivity.
Qed.

(** C2, as amended.  In a synthesize result whose d20 is a natural 1 the
    outcome is catastrophic, with the wild-surge entry of a second d20,
    exactly when the total misses the dc by more than 5.  Closer to the dc
    the margin decides as for any other roll: fizzle on a margin of -5 to
    -1, success on 0 to 9, mastery from 10; no wild surge is rolled there.
    A natural 1 is never a backfire. *)
Theorem synthesize_natural_one (args : SynthesizeArgs) (chars : CharacterTable)
    (spells spells' : list SpellRow) (g : Rng) (result : SynthesisResult) :
  handleSynthesize WILD_SURGE_TABLE args chars spells g = (Ok result, spells') ->
  r_roll result = 1 ->
  let margin := r_total result - r_dc result in
  (r_outcome result = catastrophic <-> margin < -5) /\
  (r_outcome result = fizzle <-> -5 <= margin < 0) /\
  (r_outcome result = success <-> 0 <= margin < 10) /\
  (r_outcome result = mastery <-> 10 <= margin) /\
  r_outcome result <> backfire /\
  (margin < -5 ->
   r_wildSurge result
   = surge_entry WILD_SURGE_TABLE (fst (roll_die 20 (snd (roll_die 20 g))))) /\
  (-5 <= margin -> r_wildSurge result = None).
Proof.
  intros H H1 margin. subst margin.
  destruct (result_outcome _ _ _ _ _ _ H) as (_ & Ho & Hw).
  rewrite H1, pick_outcome_natural_one in Ho. rewrite Hw, Ho.
  destruct (Z.leb_spec 10 (r_total result - r_dc result));
    destruct (Z.leb_spec (r_dc result) (r_total result));
    destruct (Z.leb_spec (-5) (r_total result - r_dc result));
    cbn; repeat split; intros; try discriminate; try reflexivity; try lia.
Qed.

End SynthesizeFacts.

Lemma synthesize_natural_one_witness :
  let table := [mkWildSurge 1 "Reversal" "The spell turns on its caster"] in
  let g := mkRng (fun _ => 0%Q) 0 in
  let args :=
    mkSynthesizeArgs "nobody" None 2 evocation damage None None None None in
  exists result,
    handleSynthesize table args ∅ [] g = (Ok result, []) /\
    r_roll result = 1 /\
    r_total result - r_dc result = -16 /\
    r_outcome result = catastrophic /\
    r_wildSurge result
    = Some (mkWildSurge 1 "Reversal" "The spell turns on its caster").
Proof.
  intros table g args.
  destruct (handleSynthesize table args ∅ [] g) as [[result |] spells'] eqn:E;
    [| vm_compute in E; discriminate].
  assert (Es : spells' = []) by (vm_compute in E; congruence).
  subst spells'.
  assert (H1 : r_roll result = 1)
    by (vm_compute in E; injection E as <-; reflexivity).
  assert (Hm : r_total result - r_dc result = -16)
    by (vm_compute in E; injection E as <-; reflexivity).
  destruct (synthesize_natural_one table args ∅ [] [] g result E H1)
    as (Hc & _ & _ & _ & _ & Hs & _).
  exists result. split; [reflexivity |]. split; [exact H1 |].
  split; [exact Hm |]. split; [apply Hc; lia |].
  rewrite Hs by lia. vm_compute. reflexivity.
Defined.

(** C2 as stated fails: a caster with intelligence 20 at level 1 (modifier
    +7) who knows an evocation spell rolls a natural 1 on a level 1
    evocation; the total is 8 against dc 10, margin -2, and the outcome is
    fizzle with no wild surge.  With a material component worth 500 the dc
    is 5 and the same natural 1 is a success. *)
Lemma natural_one_fizzle_counterexample :
  let mage :=
    mkCharacter "Elara" {[ "int"%string := 20 ]} 12 12 1
                (Some ["Evocation bolt"%string]) in
  let chars : CharacterTable := {[ "mage"%string := mage ]} in
  let table := [mkWildSurge 1 "Reversal" "The spell turns on its caster"] in
  let g := mkRng (fun _ => 0%Q) 0 in
  let plain :=
    mkSynthesizeArgs "mage" None 1 evocation damage None None None None in
  let costly :=
    mkSynthesizeArgs "mage" None 1 evocation damage None (Some 500) None None in
  (exists result,
     handleSynthesize table plain chars [] g = (Ok result, []) /\
     r_roll result = 1 /\ r_total result = 8 /\ r_dc result = 10 /\
     r_outcome result = fizzle /\ r_outcome result <> catastrophic /\
     r_wildSurge result = None) /\
  (exists result,
     handleSynthesize table costly chars [] g = (Ok result, []) /\
     r_roll result = 1 /\ r_total result = 8 /\ r_dc result = 5 /\
     r_outcome result = success /\ r_outcome result <> catastrophic /\
     r_wildSurge result = None).
Proof.
  intros mage chars table g plain costly.
  split; eexists; (split; [vm_compute; reflexivity |]);
    repeat split; try reflexivity; discriminate.
Qed.

Lemma synthesize_dc_breakdown_witness :
  let g := mkRng (fun _ => 1 # 2) 0 in
  let args :=
    mkSynthesizeArgs "nobody" None 3 evocation damage None (Some 250)
      (Some "enc-1"%string)
      (Some ["standing on a Ley Line"; "under the blood moon"]%string) in
  let result :=
    mkSynthesisResult false fizzle 11 0 11 14
      [("base", 10); ("spellLevel", 6); ("inCombat", 2); ("novelEffect", 3);
       ("materialReduction", -2); ("leyLine", -3); ("celestialEvent", -2)]%string
      "Caster's evocation damage" false true None None None None None in
  handleSynthesize [] args ∅ [] g = (Ok result, []) /\
  r_dc result = sum_values (r_dcBreakdown result).
Proof.
  intros g args result.
  assert (H : handleSynthesize [] args ∅ [] g = (Ok result, []))
    by (vm_compute; reflexivity).
  split; [exact H |].
  apply (proj2 (proj2 (proj2 (proj2
           (synthesize_dc_breakdown [] args ∅ [] [] g result H)))));
    vm_compute; lia.
Defined.

(** C10 as stated fails when two strings mention a ley line: the dc goes
    down by 3 twice, the breakdown holds a single -3. *)
Lemma repeated_ley_line_counterexample :
  let g := mkRng (fun _ => 1 # 2) 0 in
  let args :=
    mkSynthesizeArgs "nobody" None 1 evocation damage None None None
      (Some ["on a ley line"; "Ley Line convergence"]%string) in
  exists result,
    handleSynthesize [] args ∅ [] g = (Ok result, []) /\
    r_dc result = 9 /\
    r_dcBreakdown result
      = [("base", 10); ("spellLevel", 2); ("novelEffect", 3); ("leyLine", -3)]%string /\
    sum_values (r_dcBreakdown result) = 12 /\
    r_dc result <> sum_values (r_dcBreakdown result).
Proof.
  intros g args. eexists. split; [vm_compute; reflexivity |].
  repeat split; try reflexivity. vm_compute. discriminate.
Qed.

End ImprovisationFacts.

(** ** Custom effects: advance_durations *)

Module EffectsFacts.
Import Effects.

Lemma parse_rounds_below_one (q : Q) :
  (q < 1)%Q -> parse_rounds (Some q) = None.
Proof.
  intros H. unfold parse_rounds.
  destruct (Qle_bool (inject_Z 1) q) eqn:E.
  - apply Qle_bool_iff in E. exfalso. exact (Qlt_not_le _ _ H E).
  - rewrite andb_false_r. reflexivity.
Qed.

(** C3, as amended.  An advance_durations input whose rounds is 0, or any
    number below 1, is rejected by the schema of the action (rounds is an
    integer of at least 1, and 1 when the field is missing): the handler is
    not run, the caller gets a validation error, and every stored effect is
    left as it was. *)
Theorem advance_durations_rejects_zero (raw : RawAdvance) (t : EffectTable)
    (q : Q) :
  raw_rounds raw = Some q -> (q < 1)%Q ->
  AdvanceDurationsSchema raw = None /\
  advance_durations raw t = (ValidationError, t).
Proof.
  intros Hr Hq.
  assert (H : AdvanceDurationsSchema raw = None).
  { unfold AdvanceDurationsSchema. rewrite Hr, (parse_rounds_below_one q Hq).
    destruct (raw_targetId raw), (parse_actor_type (raw_targetType raw));
      reflexivity. }
  split; [exact H |]. unfold advance_durations. rewrite H. reflexivity.
Qed.

Lemma advance_durations_rejects_zero_witness :
  let raw := mkRawAdvance (Some "hero"%string) (Some "character"%string) (Some 0%Q) in
  let t : EffectTable :=
    {[ 1 := mkEffect "hero" character "Bless" rounds 3 true ]} in
  AdvanceDurationsSchema raw = None /\
  advance_durations raw t = (ValidationError, t).
Proof.
  intros raw t.
  apply (advance_durations_rejects_zero raw t 0%Q); reflexivity.
Defined.

(** C3 as stated fails: the action does not accept rounds = 0. *)
Lemma advance_zero_counterexample :
  let raw := mkRawAdvance (Some "hero"%string) (Some "character"%string) (Some 0%Q) in
  let t : EffectTable :=
    {[ 1 := mkEffect "hero" character "Bless" rounds 3 true ]} in
  ~ (exists args, AdvanceDurationsSchema raw = Some args) /\
  fst (advance_durations raw t) = ValidationError.
Proof.
  intros raw t. split; [| reflexivity].
  intros [args H]. vm_compute in H. discriminate H.
Qed.

(** What the schema accepts: a missing rounds counts as 1, a whole number
    of at least 1 is kept, a fraction is rejected. *)
Example schema_accepts :
  AdvanceDurationsSchema (mkRawAdvance (Some "hero"%string) (Some "npc"%string) None)
    = Some (mkAdvanceArgs "hero" npc 1) /\
  AdvanceDurationsSchema (mkRawAdvance (Some "hero"%string) (Some "npc"%string) (Some (4 # 2)))
    = Some (mkAdvanceArgs "hero" npc 2) /\
  AdvanceDurationsSchema (mkRawAdvance (Some "hero"%string) (Some "npc"%string) (Some (3 # 2)))
    = None /\
  AdvanceDurationsSchema (mkRawAdvance (Some "hero"%string) (Some "monster"%string) (Some 1%Q))
    = None.
Proof. vm_compute. repeat split; reflexivity. Qed.

(** One round on a target with a three-round and a one-round effect. *)
Example advance_one_round :
  let t : EffectTable :=
    {[ 1 := mkEffect "hero" character "Bless" rounds 3 true;
       2 := mkEffect "hero" character "Shield" rounds 1 true;
       3 := mkEffect "goblin" npc "Curse" rounds 2 true ]} in
  let r := advance_durations
             (mkRawAdvance (Some "hero"%string) (Some "character"%string) None) t in
  fst r = Advanced (mkAdvanceResponse 1 ["Shield"%string] [("Bless"%string, 2)] 1) /\
  snd r !! 1 = Some (mkEffect "hero" character "Bless" rounds 2 true) /\
  snd r !! 2 = None /\
  snd r !! 3 = Some (mkEffect "goblin" npc "Curse" rounds 2 true).
Proof. vm_compute. repeat split; reflexivity. Qed.

End EffectsFacts.

(** ** Inventory: removal, round trips, ownership, equipment *)

Module InventoryMore.
Import Inventory InventoryProps.

Lemma upsert_other (cid iid : string) (q : Z) (t : Table) (k : string * string) :
  k <> (cid, iid) -> sql_upsert cid iid q t !! k = t !! k.
Proof.
  intros Hk. unfold sql_upsert.
  destruct (t !! (cid, iid)); apply lookup_insert_ne; congruence.
Qed.

Lemma upsert_same (cid iid : string) (q : Z) (t : Table) :
  sql_upsert cid iid q t !! (cid, iid) =
  Some (match t !! (cid, iid) with
        | None => mkRow q 0 None
        | Some r => mkRow (quantity r + q) (equipped r) (slot r)
        end).
Proof.
  unfold sql_upsert. destruct (t !! (cid, iid)); apply lookup_insert_eq.
Qed.

Lemma unequip_slot_lookup (cid s : string) (t : Table) (k : string * string) :
  sql_unequip_slot cid s t !! k =
  (fun r => if decide (k.1 = cid /\ slot r = Some s)
            then mkRow (quantity r) 0 None else r) <$> t !! k.
Proof.
  unfold sql_unequip_slot. rewrite map_lookup_imap.
  destruct (t !! k); reflexivity.
Qed.

(** X1.  [removeItem] returns false and changes nothing when the entry is
    missing or holds less than [q]; otherwise it returns true, deletes the
    entry when it held exactly [q] and lowers its quantity by [q] when it
    held more, leaves every other entry alone and commits once.  Whether
    the entry is equipped plays no part. *)
Theorem removeItem_spec (cid iid : string) (q : Z) (c : Conn) :
  (rows c !! (cid, iid) = None -> removeItem cid iid q c = (false, c)) /\
  (forall r, rows c !! (cid, iid) = Some r -> quantity r < q ->
     removeItem cid iid q c = (false, c)) /\
  (forall r, rows c !! (cid, iid) = Some r -> q <= quantity r ->
     exists c',
       removeItem cid iid q c = (true, c') /\
       rows c' !! (cid, iid) =
         (if quantity r =? q then None
          else Some (mkRow (quantity r - q) (equipped r) (slot r))) /\
       (forall k, k <> (cid, iid) -> rows c' !! k = rows c !! k) /\
       committed c' = rows c' :: committed c).
Proof.
  unfold removeItem. split; [| split].
  - intros ->. reflexivity.
  - intros r -> Hq. apply Z.ltb_lt in Hq. rewrite Hq. reflexivity.
  - intros r Hr Hq. rewrite Hr.
    replace (quantity r <? q) with false by (symmetry; apply Z.ltb_ge, Hq).
    destruct (quantity r =? q); eexists; (split; [reflexivity |]); simpl.
    + unfold sql_delete. rewrite lookup_delete_eq.
      repeat split. intros k Hk. apply lookup_delete_ne. congruence.
    + unfold sql_decrement. rewrite lookup_alter_eq, Hr.
      repeat split. intros k Hk. apply lookup_alter_ne. congruence.
Qed.

Lemma removeItem_spec_witness :
  let c := equipItem "hero" "sword" "mainhand" (addItem "hero" "sword" 2 open_db) in
  exists c',
    removeItem "hero" "sword" 2 c = (true, c') /\
    rows c' !! ("hero", "sword") = None /\
    (forall k, k <> ("hero", "sword") -> rows c' !! k = rows c !! k) /\
    committed c' = rows c' :: committed c.
Proof.
  intros c.
  apply (proj2 (proj2 (removeItem_spec "hero" "sword" 2 c))
           (mkRow 2 1 (Some "mainhand"))); [reflexivity | simpl; lia].
Defined.

(** The upsert of [q] followed by the removal of [q], on the table. *)
Lemma upsert_then_remove (cid iid : string) (q : Z) (c : Conn) :
  (forall r, rows c !! (cid, iid) = Some r -> 0 < quantity r) ->
  fst (removeItem cid iid q (addItem cid iid q c)) = true /\
  rows (snd (removeItem cid iid q (addItem cid iid q c))) = rows c.
Proof.
  intros Hpos. unfold removeItem, addItem. simpl rows.
  rewrite upsert_same.
  destruct (rows c !! (cid, iid)) as [r |] eqn:Hr; simpl quantity.
  - specialize (Hpos r eq_refl).
    replace (quantity r + q <? q) with false by (symmetry; apply Z.ltb_ge; lia).
    replace (quantity r + q =? q) with false by (symmetry; apply Z.eqb_neq; lia).
    simpl. split; [reflexivity |]. apply map_eq. intros k.
    unfold sql_decrement. rewrite lookup_alter.
    destruct (decide ((cid, iid) = k)) as [<- |].
    + rewrite upsert_same, Hr. simpl.
      replace (quantity r + q - q) with (quantity r) by lia.
      destruct r; reflexivity.
    + apply upsert_other. congruence.
  - rewrite Z.ltb_irrefl, Z.eqb_refl. simpl. split; [reflexivity |].
    apply map_eq. intros k. unfold sql_delete. rewrite lookup_delete.
    destruct (decide ((cid, iid) = k)) as [<- |]; [symmetry; exact Hr |].
    apply upsert_other. congruence.
Qed.

(** X2.  [addItem] throws exactly when the character has no entry for the
    item and the character or the item is not stored, and the database is
    then as it was.  An add of [q] that returned, followed by removing [q],
    gives back the table there was, provided the entry was missing or held
    a positive quantity: the removal succeeds and every entry, with its
    equipment columns, is as before. *)
Theorem add_then_remove (cid iid : string) (q : Z) (db : ForeignKeys.Db) :
  let c := ForeignKeys.conn db in
  let added := ForeignKeys.addItem cid iid q db in
  (fst added = ForeignKeys.ForeignKeyViolation <->
   rows c !! (cid, iid) = None /\
   ~ (cid ∈ ForeignKeys.characterIds db /\ iid ∈ ForeignKeys.itemIds db)) /\
  (fst added = ForeignKeys.ForeignKeyViolation -> snd added = db) /\
  (fst added = ForeignKeys.Returned tt ->
   (forall r, rows c !! (cid, iid) = Some r -> 0 < quantity r) ->
   ForeignKeys.characterIds (snd added) = ForeignKeys.characterIds db /\
   ForeignKeys.itemIds (snd added) = ForeignKeys.itemIds db /\
   fst (removeItem cid iid q (ForeignKeys.conn (snd added))) = true /\
   rows (snd (removeItem cid iid q (ForeignKeys.conn (snd added)))) = rows c).
Proof.
  intros c added. subst added.
  unfold ForeignKeys.addItem, ForeignKeys.run_upsert,
    ForeignKeys.upsert_allowed. fold c.
  destruct (bool_decide (is_Some (rows c !! (cid, iid)))) eqn:Erow;
    [| destruct (bool_decide (cid ∈ ForeignKeys.characterIds db)) eqn:Ec;
       [destruct (bool_decide (iid ∈ ForeignKeys.itemIds db)) eqn:Ei |] ];
    cbn [orb andb fst snd ForeignKeys.with_conn ForeignKeys.conn
         ForeignKeys.characterIds ForeignKeys.itemIds].
  - apply bool_decide_eq_true in Erow. split; [| split].
    + split; [discriminate |]. intros [Hn _]. rewrite Hn in Erow.
      destruct Erow as [x Hx]. discriminate.
    + discriminate.
    + intros _ Hpos. split; [reflexivity |]. split; [reflexivity |].
      apply (upsert_then_remove cid iid q c Hpos).
  - apply bool_decide_eq_true in Ec, Ei. split; [| split].
    + split; [discriminate |]. intros [_ Hn]. exfalso. apply Hn. auto.
    + discriminate.
    + intros _ Hpos. split; [reflexivity |]. split; [reflexivity |].
      apply (upsert_then_remove cid iid q c Hpos).
  - apply bool_decide_eq_false in Erow, Ei. split; [| split].
    + split; [| reflexivity]. intros _. split; [| tauto].
      destruct (rows c !! (cid, iid)) eqn:E; [| reflexivity].
      exfalso. apply Erow. eauto.
    + reflexivity.
    + discriminate.
  - apply bool_decide_eq_false in Erow, Ec. split; [| split].
    + split; [| reflexivity]. intros _. split; [| tauto].
      destruct (rows c !! (cid, iid)) eqn:E; [| reflexivity].
      exfalso. apply Erow. eauto.
    + reflexivity.
    + discriminate.
Qed.

Lemma add_then_remove_witness :
  let db :=
    snd (ForeignKeys.addItem "hero" "potion" 2
           (ForeignKeys.stocked ["hero"] ["potion"])) in
  let added := ForeignKeys.addItem "hero" "potion" 5 db in
  fst added = ForeignKeys.Returned tt /\
  fst (removeItem "hero" "potion" 5 (ForeignKeys.conn (snd added))) = true /\
  rows (snd (removeItem "hero" "potion" 5 (ForeignKeys.conn (snd added))))
  = rows (ForeignKeys.conn db).
Proof.
  intros db added.
  assert (Hret : fst added = ForeignKeys.Returned tt)
    by (vm_compute; reflexivity).
  split; [exact Hret |].
  apply (proj2 (proj2 (add_then_remove "hero" "potion" 5 db)) Hret).
  intros r H.
  assert (E : r = mkRow 2 0 None) by (vm_compute in H; congruence).
  rewrite E. simpl. lia.
Defined.

(** An add for a character that is not stored throws and adds nothing. *)
Example add_for_unknown_character :
  let db := ForeignKeys.stocked ["hero"] ["potion"] in
  ForeignKeys.addItem "ghost" "potion" 1 db
  = (ForeignKeys.ForeignKeyViolation, db) /\
  ForeignKeys.addItem "hero" "elixir" 1 db
  = (ForeignKeys.ForeignKeyViolation, db) /\
  fst (ForeignKeys.addItem "hero" "potion" 1 db) = ForeignKeys.Returned tt.
Proof. vm_compute. repeat split; reflexivity. Qed.

(** X3.  An accepted transfer moves [q] and nothing else: for every
    character, the quantity held of the item afterwards is the quantity held
    before, less [q] for the source and plus [q] for the destination (so a
    character giving to itself holds what it held), and entries of other
    items are untouched.  A refused transfer changes no quantity. *)
Theorem transfer_conserves (src dst item : string) (q : Z) (c : Conn) :
  let r := transferItem src dst item q c in
  (fst r = false -> snd r = c) /\
  (fst r = true ->
   (forall x, held x item (rows (snd r)) =
              held x item (rows c)
              - (if decide (x = src) then q else 0)
              + (if decide (x = dst) then q else 0)) /\
   (forall x i, i <> item -> rows (snd r) !! (x, i) = rows c !! (x, i))).
Proof.
  unfold transferItem.
  destruct (rows c !! (src, item)) as [row |] eqn:Hr;
    [| simpl; split; [reflexivity | discriminate]].
  destruct (quantity row <? q); [simpl; split; [reflexivity | discriminate] |].
  destruct (negb (equipped row =? 0));
    [simpl; split; [reflexivity | discriminate] |].
  cbn [fst snd]. split; [discriminate |]. intros _.
  unfold transaction. simpl rows.
  set (t1 := rows (if quantity row =? q
                   then stmt_run (sql_delete src item) (mkConn (rows c) [])
                   else stmt_run (sql_decrement q src item) (mkConn (rows c) []))).
  assert (H1 : forall x, held x item t1 =
                 held x item (rows c) - (if decide (x = src) then q else 0)).
  { intros x. unfold held, t1.
    destruct (quantity row =? q) eqn:E; simpl rows.
    - apply Z.eqb_eq in E. unfold sql_delete. rewrite lookup_delete.
      destruct (decide (x = src)) as [-> |].
      + destruct (decide _); [| congruence]. rewrite Hr. simpl. lia.
      + destruct (decide _); [congruence |]. lia.
    - unfold sql_decrement. rewrite lookup_alter.
      destruct (decide (x = src)) as [-> |].
      + destruct (decide _); [| congruence]. rewrite Hr. simpl. lia.
      + destruct (decide _); [congruence |]. lia. }
  assert (H2 : forall x i, i <> item -> t1 !! (x, i) = rows c !! (x, i)).
  { intros x i Hi. unfold t1. destruct (quantity row =? q); simpl rows.
    - apply lookup_delete_ne. congruence.
    - apply lookup_alter_ne. congruence. }
  split.
  - intros x. rewrite <- H1. unfold held.
    destruct (decide (x = dst)) as [-> |].
    + rewrite upsert_same. destruct (t1 !! (dst, item)); simpl; lia.
    + rewrite upsert_other by congruence. lia.
  - intros x i Hi. rewrite upsert_other by congruence. apply H2, Hi.
Qed.

Lemma transfer_conserves_witness :
  let c := addItem "bob" "potion" 1 (addItem "alice" "potion" 3 open_db) in
  let r := transferItem "alice" "bob" "potion" 3 c in
  (forall x, held x "potion" (rows (snd r)) =
             held x "potion" (rows c)
             - (if decide (x = "alice"%string) then 3 else 0)
             + (if decide (x = "bob"%string) then 3 else 0)) /\
  (forall x i, i <> "potion"%string -> rows (snd r) !! (x, i) = rows c !! (x, i)).
Proof.
  intros c r.
  apply (proj2 (transfer_conserves "alice" "bob" "potion" 3 c)). reflexivity.
Defined.

(** X4.  [findItemOwners] lists exactly the characters that have an entry
    for the item, each of them once. *)
Theorem findItemOwners_spec (iid : string) (c : Conn) :
  (forall cid, cid ∈ findItemOwners iid c <-> is_Some (rows c !! (cid, iid))) /\
  NoDup (findItemOwners iid c).
Proof.
  unfold findItemOwners. split.
  - intros cid. rewrite list_elem_of_fmap. split.
    + intros ([[c0 i0] r] & -> & Hin). apply list_elem_of_filter in Hin as [Hi Hin].
      simpl in Hi. subst i0. apply elem_of_map_to_list in Hin. simpl. eauto.
    + intros [r Hr]. exists ((cid, iid), r). split; [reflexivity |].
      apply list_elem_of_filter. split; [reflexivity |].
      apply elem_of_map_to_list, Hr.
  - apply NoDup_fmap_2_strong.
    + intros [[c1 i1] r1] [[c2 i2] r2] H1 H2 Heq. simpl in Heq. subst c2.
      apply list_elem_of_filter in H1 as [Hi1 H1].
      apply list_elem_of_filter in H2 as [Hi2 H2]. simpl in Hi1, Hi2. subst i1 i2.
      apply elem_of_map_to_list in H1. apply elem_of_map_to_list in H2.
      congruence.
    + apply NoDup_filter, NoDup_map_to_list.
Qed.

(** X5.  [equipItem] leaves the item, when the character has it, equipped
    in the slot with its quantity kept; no other entry of the character is
    left in that slot; entries of other characters are untouched.  When the
    character has no such item nothing is equipped, yet whatever was in the
    slot has been unequipped all the same.  The two statements commit
    separately, so the table with the slot emptied and nothing equipped is
    committed on the way. *)
Theorem equipItem_spec (cid iid s : string) (c : Conn) :
  let c' := equipItem cid iid s c in
  rows c' !! (cid, iid)
    = (fun r => mkRow (quantity r) 1 (Some s)) <$> rows c !! (cid, iid) /\
  (forall i r, i <> iid -> rows c' !! (cid, i) = Some r -> slot r <> Some s) /\
  (forall i r, i <> iid -> rows c !! (cid, i) = Some r -> slot r <> Some s ->
     rows c' !! (cid, i) = Some r) /\
  (forall i r, i <> iid -> rows c !! (cid, i) = Some r -> slot r = Some s ->
     rows c' !! (cid, i) = Some (mkRow (quantity r) 0 None)) /\
  (forall x i, x <> cid -> rows c' !! (x, i) = rows c !! (x, i)) /\
  committed c' = rows c' :: sql_unequip_slot cid s (rows c) :: committed c.
Proof.
  intros c'. unfold c', equipItem. simpl. unfold sql_equip.
  split; [| split; [| split; [| split; [| split]]]].
  - rewrite lookup_alter_eq, unequip_slot_lookup.
    destruct (rows c !! (cid, iid)) as [r |]; [| reflexivity].
    simpl. destruct (decide _); reflexivity.
  - intros i r Hi. rewrite lookup_alter_ne by congruence.
    rewrite unequip_slot_lookup.
    destruct (rows c !! (cid, i)) as [r0 |]; [| discriminate].
    simpl. intros H. injection H as <-.
    destruct (decide _) as [[_ Hs] | Hn]; simpl; [discriminate |].
    intros Hs. apply Hn. split; [reflexivity | exact Hs].
  - intros i r Hi Hr Hs. rewrite lookup_alter_ne by congruence.
    rewrite unequip_slot_lookup, Hr. simpl.
    destruct (decide _) as [[_ Hs'] |]; [contradiction | reflexivity].
  - intros i r Hi Hr Hs. rewrite lookup_alter_ne by congruence.
    rewrite unequip_slot_lookup, Hr. simpl.
    destruct (decide _) as [| Hn]; [reflexivity |].
    exfalso. apply Hn. split; [reflexivity | exact Hs].
  - intros x i Hx. rewrite lookup_alter_ne by congruence.
    rewrite unequip_slot_lookup.
    destruct (rows c !! (x, i)) as [r |]; [| reflexivity].
    simpl. destruct (decide _) as [[Hx' _] |]; [contradiction | reflexivity].
  - reflexivity.
Qed.

(** Equipping an item the character does not have empties the slot. *)
Example equip_unowned_empties_slot :
  let c := equipItem "hero" "sword" "mainhand" (addItem "hero" "sword" 1 open_db) in
  rows (equipItem "hero" "axe" "mainhand" c) !! ("hero", "sword")
    = Some (mkRow 1 0 None) /\
  rows (equipItem "hero" "axe" "mainhand" c) !! ("hero", "axe") = None.
Proof. vm_compute. split; reflexivity. Qed.

Lemma slot_needs_equipped_weaken (t t' : Table) :
  slot_needs_equipped t ->
  (forall k r', t' !! k = Some r' ->
     slot r' = None \/ equipped r' <> 0 \/
     exists r, t !! k = Some r /\ equipped r = equipped r' /\ slot r = slot r') ->
  slot_needs_equipped t'.
Proof.
  intros Hi Hw k r' Hr' [s Hs].
  destruct (Hw k r' Hr') as [Hn | [He | (r & Hr & Heq & Hsl)]];
    [congruence | exact He |].
  rewrite <- Heq. apply (Hi k r Hr). rewrite Hsl. eauto.
Qed.

Lemma slot_needs_equipped_stmt (t : Table) :
  slot_needs_equipped t ->
  (forall cid iid q, slot_needs_equipped (sql_upsert cid iid q t)) /\
  (forall cid iid, slot_needs_equipped (sql_delete cid iid t)) /\
  (forall q cid iid, slot_needs_equipped (sql_decrement q cid iid t)) /\
  (forall cid iid, slot_needs_equipped (sql_unequip cid iid t)) /\
  (forall cid s, slot_needs_equipped (sql_unequip_slot cid s t)) /\
  (forall s cid iid, slot_needs_equipped (sql_equip s cid iid t)).
Proof.
  intros Hi. repeat split; intros;
    apply (slot_needs_equipped_weaken t); try exact Hi; intros k r' H.
  - destruct (decide (k = (cid, iid))) as [-> |].
    + rewrite upsert_same in H. injection H as <-.
      destruct (t !! (cid, iid)) as [r |] eqn:E; [| left; reflexivity].
      right; right. exists r. auto.
    + rewrite upsert_other in H by exact n. right; right. eauto.
  - unfold sql_delete in H. rewrite lookup_delete in H.
    destruct (decide _); [discriminate |]. right; right. eauto.
  - unfold sql_decrement in H. rewrite lookup_alter in H.
    destruct (decide _) as [<- |]; [| right; right; eauto].
    destruct (t !! (cid, iid)) as [r |] eqn:E; [| discriminate].
    simpl in H. injection H as <-. right; right. exists r. auto.
  - unfold sql_unequip in H. rewrite lookup_alter in H.
    destruct (decide _) as [<- |]; [| right; right; eauto].
    destruct (t !! (cid, iid)) as [r |] eqn:E; [| discriminate].
    simpl in H. injection H as <-. left. reflexivity.
  - rewrite unequip_slot_lookup in H.
    destruct (t !! k) as [r |] eqn:E; [| discriminate].
    simpl in H. injection H as <-.
    destruct (decide _); [left; reflexivity | right; right; exists r; auto].
  - unfold sql_equip in H. rewrite lookup_alter in H.
    destruct (decide _) as [<- |]; [| right; right; eauto].
    destruct (t !! (cid, iid)) as [r |] eqn:E; [| discriminate].
    simpl in H. injection H as <-. right; left. simpl. discriminate.
Qed.

Lemma slot_needs_equipped_call (k : Call) (c : Conn) :
  slot_needs_equipped (rows c) -> slot_needs_equipped (rows (call k c)).
Proof.
  intros Hi.
  destruct k as [cid iid q | cid iid q | cid iid s | cid iid | f t iid q]; simpl.
  - apply slot_needs_equipped_stmt, Hi.
  - unfold removeItem. destruct (rows c !! (cid, iid)) as [row |]; [| exact Hi].
    destruct (quantity row <? q); [exact Hi |].
    destruct (quantity row =? q); simpl; apply slot_needs_equipped_stmt, Hi.
  - apply slot_needs_equipped_stmt. apply slot_needs_equipped_stmt, Hi.
  - apply slot_needs_equipped_stmt, Hi.
  - unfold transferItem. destruct (rows c !! (f, iid)) as [row |]; [| exact Hi].
    destruct (quantity row <? q); [exact Hi |].
    destruct (negb (equipped row =? 0)); [exact Hi |].
    simpl. apply slot_needs_equipped_stmt.
    destruct (quantity row =? q); simpl; apply slot_needs_equipped_stmt, Hi.
Qed.

(** X6.  The repository never leaves a slot on a row that is not equipped:
    every sequence of calls run on a table where a recorded slot implies
    [equipped] leaves such a table (the converse of the slot invariant, so
    that on every table the repository builds from an empty one a row has a
    slot exactly when it is equipped). *)
Theorem slot_needs_equipped_calls (ks : list Call) (c : Conn) :
  slot_needs_equipped (rows c) -> slot_needs_equipped (rows (calls ks c)).
Proof.
  revert c. induction ks as [| k ks IH]; intros c Hi; simpl; [exact Hi |].
  apply IH, slot_needs_equipped_call, Hi.
Qed.

Lemma slot_needs_equipped_calls_witness :
  slot_needs_equipped
    (rows (calls [CallAdd "hero" "sword" 1; CallEquip "hero" "sword" "mainhand";
                  CallTransfer "hero" "bard" "sword" 1;
                  CallUnequip "hero" "sword";
                  CallTransfer "hero" "bard" "sword" 1] open_db)).
Proof.
  apply slot_needs_equipped_calls. intros k r H.
  unfold open_db in H. simpl in H. rewrite lookup_empty in H. discriminate H.
Defined.

Lemma quantities_positive_call (k : Call) (c : Conn) :
  positive_call k -> quantities_positive (rows c) ->
  quantities_positive (rows (call k c)).
Proof.
  intros Hq Hi.
  assert (Hup : forall cid iid q t, 0 < q -> quantities_positive t ->
                  quantities_positive (sql_upsert cid iid q t)).
  { intros cid iid q t Hpos Ht k0 r H.
    destruct (decide (k0 = (cid, iid))) as [-> |].
    - rewrite upsert_same in H. injection H as <-.
      destruct (t !! (cid, iid)) as [r0 |] eqn:E; simpl; [| exact Hpos].
      specialize (Ht _ _ E). lia.
    - rewrite upsert_other in H by exact n. eapply Ht, H. }
  assert (Hrm : forall cid iid q row t, t !! (cid, iid) = Some row ->
                  (quantity row <? q) = false -> quantities_positive t ->
                  quantities_positive
                    (if quantity row =? q then sql_delete cid iid t
                     else sql_decrement q cid iid t)).
  { intros cid iid q row t Hrow Hlt Ht k0 r H.
    apply Z.ltb_ge in Hlt.
    destruct (quantity row =? q) eqn:E.
    - unfold sql_delete in H. rewrite lookup_delete in H.
      destruct (decide _); [discriminate |]. eapply Ht, H.
    - apply Z.eqb_neq in E. unfold sql_decrement in H. rewrite lookup_alter in H.
      destruct (decide _) as [<- |]; [| eapply Ht, H].
      rewrite Hrow in H. simpl in H. injection H as <-. simpl. lia. }
  assert (Heq : forall (f : InvRow -> InvRow) key t,
                  (forall r, quantity (f r) = quantity r) ->
                  quantities_positive t -> quantities_positive (alter f key t)).
  { intros f key t Hf Ht k0 r H. rewrite lookup_alter in H.
    destruct (decide _) as [<- |]; [| eapply Ht, H].
    destruct (t !! key) as [r0 |] eqn:E; [| discriminate].
    simpl in H. injection H as <-. rewrite Hf. eapply Ht, E. }
  destruct k as [cid iid q | cid iid q | cid iid s | cid iid | f t iid q]; simpl.
  - apply Hup; [apply Hq; reflexivity | exact Hi].
  - unfold removeItem. destruct (rows c !! (cid, iid)) as [row |] eqn:E; [| exact Hi].
    destruct (quantity row <? q) eqn:L; [exact Hi |].
    specialize (Hrm cid iid q row (rows c) E L Hi).
    destruct (quantity row =? q); exact Hrm.
  - apply Heq; [reflexivity |]. intros k0 r H.
    rewrite unequip_slot_lookup in H.
    destruct (rows c !! k0) as [r0 |] eqn:E; [| discriminate].
    simpl in H. injection H as <-. specialize (Hi _ _ E).
    destruct (decide _); exact Hi.
  - apply Heq; [reflexivity | exact Hi].
  - unfold transferItem. destruct (rows c !! (f, iid)) as [row |] eqn:E; [| exact Hi].
    destruct (quantity row <? q) eqn:L; [exact Hi |].
    destruct (negb (equipped row =? 0)); [exact Hi |].
    simpl. apply Hup; [apply Hq; reflexivity |].
    specialize (Hrm f iid q row (rows c) E L Hi).
    destruct (quantity row =? q); exact Hrm.
Qed.

(** X7.  Quantities stay positive: when every entry holds at least one
    item and every call that passes a quantity passes a positive one, the
    entries after any sequence of calls hold at least one item each (an
    entry that would drop to zero is deleted). *)
Theorem quantities_positive_calls (ks : list Call) (c : Conn) :
  Forall positive_call ks -> quantities_positive (rows c) ->
  quantities_positive (rows (calls ks c)).
Proof.
  revert c. induction ks as [| k ks IH]; intros c Hks Hi; simpl; [exact Hi |].
  apply Forall_cons in Hks as [Hk Hks].
  apply IH; [exact Hks |]. apply quantities_positive_call; assumption.
Qed.

Lemma quantities_positive_calls_witness :
  quantities_positive
    (rows (calls [CallAdd "hero" "potion" 2; CallRemove "hero" "potion" 2;
                  CallAdd "hero" "potion" 1;
                  CallTransfer "hero" "bard" "potion" 1] open_db)).
Proof.
  apply quantities_positive_calls.
  - repeat (apply Forall_cons; split;
            [intros q H; injection H as <-; lia |]).
    apply Forall_nil. exact I.
  - intros k r H. unfold open_db in H. simpl in H.
    rewrite lookup_empty in H. discriminate H.
Defined.

(** Adding zero of an item is accepted and leaves an entry of quantity 0. *)
Example add_zero_leaves_empty_entry :
  rows (addItem "hero" "potion" 0 open_db) !! ("hero", "potion")
  = Some (mkRow 0 0 None).
Proof. reflexivity. Qed.

(** X8.  An accepted transfer writes what [removeItem] from the source
    followed by [addItem] to the destination writes, but publishes one
    snapshot where the two calls publish two: the table in which the items
    have left the source and not reached the destination is committed by the
    pair and never by the transfer. *)
Theorem transfer_is_remove_then_add (src dst item : string) (q : Z) (c : Conn) :
  fst (transferItem src dst item q c) = true ->
  let moved := snd (transferItem src dst item q c) in
  let removed := snd (removeItem src item q c) in
  let pair := addItem dst item q removed in
  fst (removeItem src item q c) = true /\
  rows moved = rows pair /\
  committed moved = rows moved :: committed c /\
  committed pair = rows pair :: rows removed :: committed c.
Proof.
  unfold transferItem, removeItem, addItem.
  destruct (rows c !! (src, item)) as [row |]; [| discriminate].
  destruct (quantity row <? q); [discriminate |].
  destruct (negb (equipped row =? 0)); [discriminate |].
  intros _. destruct (quantity row =? q); repeat split; reflexivity.
Qed.

Lemma transfer_is_remove_then_add_witness :
  let c := addItem "alice" "potion" 3 open_db in
  let moved := snd (transferItem "alice" "bob" "potion" 2 c) in
  let removed := snd (removeItem "alice" "potion" 2 c) in
  let pair := addItem "bob" "potion" 2 removed in
  fst (removeItem "alice" "potion" 2 c) = true /\
  rows moved = rows pair /\
  committed moved = rows moved :: committed c /\
  committed pair = rows pair :: rows removed :: committed c.
Proof.
  intros c. apply (transfer_is_remove_then_add "alice" "bob" "potion" 2 c).
  reflexivity.
Defined.

(** An equipped stack can be removed though it cannot be transferred. *)
Example equipped_removed_not_transferred :
  let c := equipItem "hero" "sword" "mainhand" (addItem "hero" "sword" 1 open_db) in
  fst (transferItem "hero" "bard" "sword" 1 c) = false /\
  fst (removeItem "hero" "sword" 1 c) = true.
Proof. vm_compute. split; reflexivity. Qed.

(** X9.  Equipping and unequipping never create or delete an entry and
    never change a quantity: after any sequence of [equipItem] and
    [unequipItem] calls every key holds the quantity it held. *)
Theorem equipment_keeps_quantities (ks : list Call) (c : Conn) :
  Forall equipment_call ks ->
  forall k, quantity <$> rows (calls ks c) !! k = quantity <$> rows c !! k.
Proof.
  revert c. induction ks as [| k0 ks IH]; intros c Hks k; simpl; [reflexivity |].
  apply Forall_cons in Hks as [Hk Hks]. rewrite (IH _ Hks).
  assert (Ha : forall (f : InvRow -> InvRow) key (t : Table),
                 (forall r, quantity (f r) = quantity r) ->
                 quantity <$> alter f key t !! k = quantity <$> t !! k).
  { intros f key t Hf. rewrite lookup_alter.
    destruct (decide (key = k)) as [<- |]; [| reflexivity].
    destruct (t !! key); simpl; [rewrite Hf |]; reflexivity. }
  destruct k0 as [cid iid q | cid iid q | cid iid s | cid iid | f t iid q];
    try discriminate Hk; simpl.
  - unfold sql_equip. rewrite Ha by reflexivity.
    rewrite unequip_slot_lookup. destruct (rows c !! k); [| reflexivity].
    simpl. destruct (decide _); reflexivity.
  - unfold sql_unequip. apply Ha. reflexivity.
Qed.

Lemma equipment_keeps_quantities_witness :
  let c := addItem "hero" "axe" 1 (addItem "hero" "sword" 2 open_db) in
  quantity <$> rows (calls [CallEquip "hero" "sword" "mainhand";
                            CallEquip "hero" "axe" "mainhand";
                            CallUnequip "hero" "axe"] c)
                 !! ("hero"%string, "sword"%string)
  = Some 2.
Proof.
  intros c.
  rewrite (equipment_keeps_quantities
             [CallEquip "hero" "sword" "mainhand";
              CallEquip "hero" "axe" "mainhand"; CallUnequip "hero" "axe"] c).
  - vm_compute. reflexivity.
  - repeat (apply Forall_cons; split; [reflexivity |]).
    apply Forall_nil. exact I.
Defined.

End InventoryMore.

(** ** Combat: the state object, the hp bar, and how the handlers compose *)

Module CombatMore.
Import Characters Combat CombatView.

Lemma js_round_range (y : Q) (n : Z) :
  (0 <= js_round y <= n)%Z <->
  (- (1 # 2) <= y /\ y < inject_Z n + (1 # 2))%Q.
Proof.
  unfold js_round.
  pose proof (Qfloor_le (y + (1 # 2))) as Hlo.
  pose proof (Qlt_floor (y + (1 # 2))) as Hhi.
  rewrite inject_Z_plus in Hhi. change (inject_Z 1) with 1%Q in Hhi.
  set (k := Qfloor (y + (1 # 2))) in *. split.
  - intros [H0 Hn]. rewrite Zle_Qle in H0, Hn. change (inject_Z 0) with 0%Q in H0.
    set (f := inject_Z k) in *. set (m := inject_Z n) in *. split; lra.
  - intros [Hy0 Hyn].
    assert (A : (-1 < k)%Z).
    { rewrite Zlt_Qlt. change (inject_Z (-1)) with (-1 # 1)%Q.
      set (f := inject_Z k) in *. lra. }
    assert (B : (k < n + 1)%Z).
    { rewrite Zlt_Qlt. rewrite inject_Z_plus. change (inject_Z 1) with 1%Q.
      set (f := inject_Z k) in *. set (m := inject_Z n) in *. lra. }
    lia.
Qed.

(** X15.  [createHpBar] returns a bar exactly when the percentage is at
    least -5 and below 105, and the bar then has ten cells, the first
    [Math.round(percentage / 10)] of them full; outside that range
    [repeat] is given a negative count and the function throws.  So the bar
    of a participant with [0 <= hp <= maxHp] is always drawn, and a
    participant whose hp is at least 1.05 times its positive maxHp makes the
    formatter throw. *)
Theorem createHpBar_spec (percentage : Q) :
  (is_Some (createHpBar percentage)
   <-> (- inject_Z 5 <= percentage /\ percentage < inject_Z 105)%Q) /\
  (forall bar, createHpBar percentage = Some bar ->
     length bar = 10%nat /\
     bar = replicate (Z.to_nat (js_round (percentage / inject_Z 10))) block
           ++ replicate (Z.to_nat (10 - js_round (percentage / inject_Z 10))) shade) /\
  (forall p, (p_maxHp p <= 0)%Z \/ (0 <= p_hp p <= p_maxHp p)%Z ->
     is_Some (createHpBar (hpPct p))) /\
  (forall p, (0 < p_maxHp p)%Z -> (105 * p_maxHp p <= 100 * p_hp p)%Z ->
     createHpBar (hpPct p) = None).
Proof.
  assert (Hiff : forall q, is_Some (createHpBar q)
                 <-> (0 <= js_round (q / inject_Z 10) <= 10)%Z).
  { intros q. unfold createHpBar, repeat_cell.
    destruct (js_round (q / inject_Z 10) <? 0) eqn:E1.
    - apply Z.ltb_lt in E1. split; [intros [? H]; discriminate H | lia].
    - apply Z.ltb_ge in E1.
      destruct (10 - js_round (q / inject_Z 10) <? 0) eqn:E2.
      + apply Z.ltb_lt in E2. split; [intros [? H]; discriminate H | lia].
      + apply Z.ltb_ge in E2. split; [lia | eauto]. }
  assert (Hrange : forall q : Q,
             (0 <= js_round (q / inject_Z 10) <= 10)%Z
             <-> (- inject_Z 5 <= q /\ q < inject_Z 105)%Q).
  { intros q. rewrite js_round_range.
    change (inject_Z 10) with (10 # 1)%Q. change (inject_Z 5) with (5 # 1)%Q.
    change (inject_Z 105) with (105 # 1)%Q.
    assert (E : (q / (10 # 1) == q * (1 # 10))%Q) by (unfold Qdiv; reflexivity).
    rewrite E. split; intros [A B]; split; lra. }
  assert (Hpct : forall p, (0 < p_maxHp p)%Z ->
             (hpPct p * inject_Z (p_maxHp p)
              == inject_Z (100 * p_hp p))%Q /\ (0 < inject_Z (p_maxHp p))%Q).
  { intros p Hm. unfold hpPct.
    replace (0 <? p_maxHp p) with true by (symmetry; apply Z.ltb_lt; lia).
    rewrite Zlt_Qlt in Hm. change (inject_Z 0) with 0%Q in Hm.
    split; [| exact Hm]. rewrite inject_Z_mult.
    change (inject_Z 100) with (100 # 1)%Q. field.
    intros E. rewrite E in Hm. exact (Qlt_irrefl _ Hm). }
  split; [| split; [| split]].
  - rewrite Hiff. apply Hrange.
  - intros bar H. assert (Hs : is_Some (createHpBar percentage)) by eauto.
    apply Hiff in Hs. unfold createHpBar, repeat_cell in H.
    replace (js_round (percentage / inject_Z 10) <? 0) with false in H
      by (symmetry; apply Z.ltb_ge; lia).
    replace (10 - js_round (percentage / inject_Z 10) <? 0) with false in H
      by (symmetry; apply Z.ltb_ge; lia).
    injection H as <-. split; [| reflexivity].
    rewrite length_app, !length_replicate. lia.
  - intros p Hp. apply Hiff, Hrange.
    change (inject_Z 5) with (5 # 1)%Q. change (inject_Z 105) with (105 # 1)%Q.
    destruct (Z.le_gt_cases (p_maxHp p) 0) as [Hm | Hm].
    { unfold hpPct.
      replace (0 <? p_maxHp p) with false by (symmetry; apply Z.ltb_ge; lia).
      split; lra. }
    destruct Hp as [Hp | [Hlo Hhi]]; [lia |].
    destruct (Hpct p Hm) as [E Hpos].
    assert (H1 : (0 <= inject_Z (100 * p_hp p))%Q).
    { change 0%Q with (inject_Z 0). rewrite <- Zle_Qle. lia. }
    assert (H2 : (inject_Z (100 * p_hp p) <= (100 # 1) * inject_Z (p_maxHp p))%Q).
    { change (100 # 1)%Q with (inject_Z 100).
      rewrite <- inject_Z_mult, <- Zle_Qle. lia. }
    rewrite <- E in H1, H2.
    set (m := inject_Z (p_maxHp p)) in *. set (x := hpPct p) in *.
    split; nra.
  - intros p Hm Hbig.
    destruct (createHpBar (hpPct p)) as [bar |] eqn:Hb; [| reflexivity].
    exfalso. assert (Hs : is_Some (createHpBar (hpPct p))) by eauto.
    apply Hiff, Hrange in Hs. destruct Hs as [_ Hlt].
    destruct (Hpct p Hm) as [E Hpos].
    assert (H2 : ((105 # 1) * inject_Z (p_maxHp p) <= inject_Z (100 * p_hp p))%Q).
    { change (105 # 1)%Q with (inject_Z 105).
      rewrite <- inject_Z_mult, <- Zle_Qle. lia. }
    rewrite <- E in H2. change (inject_Z 105) with (105 # 1)%Q in Hlt.
    set (m := inject_Z (p_maxHp p)) in *. set (x := hpPct p) in *.
    nra.
Qed.

Example hp_bar_runs :
  createHpBar (inject_Z 45)
    = Some [block; block; block; block; block; shade; shade; shade; shade; shade] /\
  createHpBar (hpPct (mkParticipant "hero" "Valeros" 0 0 false 17 20))
    = Some (replicate 9 block ++ [shade]) /\
  createHpBar (hpPct (mkParticipant "hero" "Valeros" 0 0 false 20 10)) = None /\
  createHpBar (hpPct (mkParticipant "hero" "Valeros" 0 0 false (-1) 10)) = None.
Proof. vm_compute. repeat split; reflexivity. Qed.

Lemma createHpBar_spec_witness :
  let p := mkParticipant "hero" "Valeros" 2 15 false 17 20 in
  is_Some (createHpBar (hpPct p)) /\
  createHpBar (hpPct (mkParticipant "ogre" "Ogre" 0 3 true 21 20)) = None.
Proof.
  intros p. split.
  - apply (proj1 (proj2 (proj2 (createHpBar_spec 0)))). right. simpl. lia.
  - apply (proj2 (proj2 (proj2 (createHpBar_spec 0)))); simpl; lia.
Defined.

Lemma find_participant_Some (id : string) (ps : list Participant) (p : Participant) :
  find_participant id ps = Some p -> p ∈ ps /\ p_id p = id.
Proof.
  unfold find_participant. intros H. apply List.find_some in H as [Hin He].
  apply String.eqb_eq in He. split; [apply list_elem_of_In, Hin | exact He].
Qed.

Lemma find_participant_None (id : string) (ps : list Participant) :
  find_participant id ps = None <-> id ∉ p_id <$> ps.
Proof.
  unfold find_participant. split.
  - intros H Hin. apply list_elem_of_fmap in Hin as (p & -> & Hin).
    apply list_elem_of_In in Hin.
    pose proof (List.find_none _ _ H p Hin) as E. simpl in E.
    rewrite String.eqb_refl in E. discriminate E.
  - intros Hn. destruct (List.find _ ps) as [p |] eqn:E; [| reflexivity].
    exfalso. apply Hn. apply List.find_some in E as [Hin He].
    apply String.eqb_eq in He. subst id.
    apply list_elem_of_fmap. exists p. split; [reflexivity |].
    apply list_elem_of_In, Hin.
Qed.

Lemma filter_none {A : Type} (P : A -> Prop) `{!forall x, Decision (P x)}
    (l : list A) :
  (forall x, x ∈ l -> ~ P x) -> filter P l = [].
Proof.
  induction l as [| a l IH]; intros Hall; [reflexivity |].
  rewrite filter_cons. destruct (decide (P a)) as [Ha |].
  - exfalso. apply (Hall a); [apply list_elem_of_here | exact Ha].
  - apply IH. intros x Hx. apply Hall. apply list_elem_of_further, Hx.
Qed.

Lemma flagged_at_most_once (c0 : Participant) (ps : list Participant) :
  NoDup (p_id <$> ps) ->
  (length (filter (fun j => j_isCurrentTurn j = true)
             ((fun p =>
                 mkParticipantJson (p_id p) (p_name p) (p_hp p) (p_maxHp p)
                   (p_initiative p) (p_isEnemy p) (p_hp p <=? 0)%Z
                   (String.eqb (p_id p) (p_id c0))) <$> ps)) <= 1)%nat.
Proof.
  set (entry := fun p : Participant => mkParticipantJson _ _ _ _ _ _ _ _).
  induction ps as [| p ps IH]; intros Hnd; [simpl; lia |].
  rewrite fmap_cons in Hnd. apply NoDup_cons in Hnd as [Hp Hnd].
  rewrite fmap_cons, filter_cons.
  destruct (decide (j_isCurrentTurn (entry p) = true)) as [E |];
    [| apply IH, Hnd].
  unfold entry in E. simpl in E. apply String.eqb_eq in E.
  rewrite filter_none; [simpl; lia |].
  intros j Hj Hcur. apply list_elem_of_fmap in Hj as (p' & -> & Hin).
  unfold entry in Hcur. simpl in Hcur. apply String.eqb_eq in Hcur.
  apply Hp. rewrite E, <- Hcur. apply list_elem_of_fmap. eauto.
Qed.

(** X16.  The state object lists the participants of the state one entry
    each, in order: the entry of a participant carries its id, name, hp,
    maxHp, initiative and isEnemy, is flagged defeated exactly when the
    participant's hp is 0 or less, and is flagged as the current turn
    exactly when the participant's id is [turnOrder[currentTurnIndex]].
    The current turn is null exactly when [turnOrder[currentTurnIndex]] is
    out of range or names no participant, and is otherwise the id, name and
    isEnemy of a participant with that id.  With distinct ids at most one
    entry is flagged as the current turn. *)
Theorem buildStateJson_spec (state : CombatState) (encounterId : string) :
  let json := buildStateJson state encounterId in
  let current := turnOrder state !! currentTurnIndex state in
  Forall2
    (fun p j =>
       j_id j = p_id p /\ j_name j = p_name p /\ j_hp j = p_hp p /\
       j_maxHp j = p_maxHp p /\ j_initiative j = p_initiative p /\
       j_isEnemy j = p_isEnemy p /\
       (j_isDefeated j = true <-> (p_hp p <= 0)%Z) /\
       (j_isCurrentTurn j = true <-> current = Some (p_id p)))
    (participants state) (sj_participants json) /\
  (sj_currentTurn json = None <->
   forall id, current = Some id -> id ∉ p_id <$> participants state) /\
  (forall cur, sj_currentTurn json = Some cur ->
     exists p, p ∈ participants state /\ current = Some (p_id p) /\
               cur = (p_id p, p_name p, p_isEnemy p)) /\
  (NoDup (p_id <$> participants state) ->
   (length (filter (fun j => j_isCurrentTurn j = true) (sj_participants json))
    <= 1)%nat).
Proof.
  intros json current. unfold json, buildStateJson. simpl.
  assert (Hcur : forall c, current_participant state = Some c ->
                           c ∈ participants state /\ current = Some (p_id c)).
  { unfold current_participant, current. intros c.
    destruct (turnOrder state !! currentTurnIndex state) as [id |];
      [| discriminate].
    intros E. apply find_participant_Some in E as [Hin <-]. auto. }
  assert (Hnone : current_participant state = None ->
                  forall id, current = Some id ->
                             id ∉ p_id <$> participants state).
  { unfold current_participant, current.
    destruct (turnOrder state !! currentTurnIndex state) as [id |];
      [| discriminate].
    intros E id' [= <-]. apply find_participant_None, E. }
  destruct (current_participant state) as [c0 |] eqn:Ec.
  - destruct (Hcur c0 eq_refl) as [Hin Hid].
    split; [| split; [| split]].
    + apply Forall2_fmap_r, Forall_Forall2_diag, Forall_forall.
      intros p _. cbn. repeat split; try reflexivity;
        try apply Z.leb_le.
      * intros E. apply String.eqb_eq in E. rewrite E. exact Hid.
      * intros E. rewrite Hid in E. injection E as E.
        apply String.eqb_eq. congruence.
    + cbn. split; [discriminate |]. intros H. exfalso.
      apply (H (p_id c0) Hid). apply list_elem_of_fmap. eauto.
    + cbn. intros cur [= <-]. exists c0. auto.
    + apply (flagged_at_most_once c0).
  - split; [| split; [| split]].
    + apply Forall2_fmap_r, Forall_Forall2_diag, Forall_forall.
      intros p Hp. cbn. repeat split; try reflexivity;
        try apply Z.leb_le; try discriminate.
      intros E. exfalso. apply (Hnone eq_refl (p_id p) E).
      apply list_elem_of_fmap. eauto.
    + cbn. split; [intros _; apply Hnone; reflexivity | reflexivity].
    + cbn. discriminate.
    + intros _. rewrite filter_none; [simpl; lia |].
      intros j Hj Hf. apply list_elem_of_fmap in Hj as (p' & -> & _).
      discriminate Hf.
Qed.

Lemma buildStateJson_spec_witness :
  let state :=
    mkCombatState [mkParticipant "hero" "Valeros" 2 15 false 17 20;
                   mkParticipant "goblin" "Goblin" 1 9 true 0 7]
                  ["hero"; "goblin"]%string 1 2 in
  (length (filter (fun j => j_isCurrentTurn j = true)
             (sj_participants (buildStateJson state "enc"))) <= 1)%nat.
Proof.
  intros state.
  apply (proj2 (proj2 (proj2 (buildStateJson_spec state "enc")))).
  simpl. apply NoDup_cons. split; [| apply NoDup_singleton].
  intros H. apply list_elem_of_singleton in H. discriminate H.
Defined.

Example state_json_runs :
  let state :=
    mkCombatState [mkParticipant "hero" "Valeros" 2 15 false 17 20;
                   mkParticipant "goblin" "" 1 9 true 0 7]
                  ["hero"; "goblin"; "ghost"]%string 1 2 in
  sj_currentTurn (buildStateJson state "enc") = Some ("goblin", "", true)%string /\
  sj_turnOrder (buildStateJson state "enc") = ["Valeros"; "goblin"; "ghost"]%string /\
  j_isDefeated <$> sj_participants (buildStateJson state "enc") = [false; true] /\
  j_isCurrentTurn <$> sj_participants (buildStateJson state "enc") = [false; true].
Proof. vm_compute. repeat split; reflexivity. Qed.

Lemma update_hp_is_Some (id : string) (hp : Z) (t : CharacterTable) (j : string) :
  is_Some (update_hp id hp t !! j) <-> is_Some (t !! j).
Proof.
  unfold update_hp. rewrite lookup_alter.
  destruct (decide (id = j)) as [<- |]; [| reflexivity].
  rewrite fmap_is_Some. reflexivity.
Qed.

Lemma sync_fold_results (ps : list Participant) (chars t : CharacterTable)
    (rs : list SyncResult) :
  (forall id, is_Some (t !! id) <-> is_Some (chars !! id)) ->
  snd (fold_left sync_participant ps (t, rs)) = rs ++ (sync_entry chars <$> ps).
Proof.
  revert t rs. induction ps as [| p ps IH]; intros t rs Hdom.
  - simpl. rewrite app_nil_r. reflexivity.
  - cbn [fold_left]. rewrite fmap_cons.
    destruct (sync_participant (t, rs) p) as [t' rs'] eqn:E.
    unfold sync_participant, findById in E.
    assert (Hrs : rs' = rs ++ [sync_entry chars p] /\
                  forall id, is_Some (t' !! id) <-> is_Some (chars !! id)).
    { destruct (t !! p_id p) as [ch |] eqn:Ht; injection E as <- <-.
      - split.
        + unfold sync_entry. rewrite bool_decide_eq_true_2; [reflexivity |].
          apply Hdom. rewrite Ht. eauto.
        + intros id. rewrite update_hp_is_Some. apply Hdom.
      - split; [| exact Hdom].
        unfold sync_entry. rewrite bool_decide_eq_false_2; [reflexivity |].
        intros Hs. apply Hdom in Hs. rewrite Ht in Hs.
        destruct Hs as [? Hs]. discriminate Hs. }
    destruct Hrs as [-> Hdom']. rewrite (IH _ _ Hdom'), <- app_assoc.
    reflexivity.
Qed.

Section MoreFacts.

Context {Engine ActionResult : Type}.
Variable newEngine : string -> Engine.
Variable loadState : CombatState -> Engine -> Engine.
Variable getState : Engine -> option CombatState.
Variable getCurrentParticipant : Engine -> option Participant.
Variable executeAttack :
  string -> string -> Z -> Z -> Z -> Engine -> option ActionResult * Engine.
Variable executeHeal :
  string -> string -> Z -> Engine -> option ActionResult * Engine.
Variable nextTurnWithConditions : Engine -> Engine.

(** X10.  When the encounter is in memory, [handleEndEncounter] answers
    with one sync entry per participant of the final state, in order,
    carrying the participant's id, name and hp, and flagged synced exactly
    when a character with that id was stored before the call; when the
    engine has no state it answers with no entry and leaves the characters
    alone. *)
Theorem end_encounter_reports (sessionId encounterId : string)
    (w : Server) (engine : Engine) :
  combatManager w !! namespaced sessionId encounterId = Some engine ->
  (forall final, getState engine = Some final ->
     fst (handleEndEncounter getState sessionId encounterId w)
     = Ok (sync_entry (characters w) <$> participants final)) /\
  (getState engine = None ->
   fst (handleEndEncounter getState sessionId encounterId w) = Ok [] /\
   characters (snd (handleEndEncounter getState sessionId encounterId w))
   = characters w).
Proof.
  intros Hm. unfold handleEndEncounter. rewrite Hm. split.
  - intros final Hs. rewrite Hs.
    destruct (sync_all (participants final) (characters w)) as [chars rs] eqn:E.
    simpl. f_equal. change rs with (snd (chars, rs)). rewrite <- E.
    unfold sync_all. rewrite (sync_fold_results _ (characters w)); reflexivity.
  - intros ->. split; reflexivity.
Qed.

(** X11.  Ending an encounter removes its engine from the session, so a
    second [handleEndEncounter] on the state the first one leaves throws the
    not-found error and changes nothing: hp is written back at most once. *)
Theorem end_encounter_once (sessionId encounterId : string) (w : Server) :
  let w1 := snd (handleEndEncounter getState sessionId encounterId w) in
  (fst (handleEndEncounter getState sessionId encounterId w)
     <> Throw (EncounterNotFound encounterId) ->
   combatManager w1 !! namespaced sessionId encounterId = None /\
   forall key, key <> namespaced sessionId encounterId ->
               combatManager w1 !! key = combatManager w !! key) /\
  handleEndEncounter getState sessionId encounterId w1
  = (Throw (EncounterNotFound encounterId), w1).
Proof.
  unfold handleEndEncounter.
  destruct (combatManager w !! namespaced sessionId encounterId) as [e |] eqn:Hm.
  - destruct (match getState e with
              | Some finalState => sync_all (participants finalState) (characters w)
              | None => (characters w, [])
              end) as [chars rs].
    simpl. rewrite lookup_delete_eq. split; [| reflexivity].
    intros _. split; [reflexivity |]. intros key Hk.
    apply lookup_delete_ne. congruence.
  - simpl. rewrite Hm. split; [| reflexivity]. intros H. contradiction.
Qed.

(** X12.  [handleEndEncounter] never touches the persisted snapshot of the
    encounter, so an ended encounter whose snapshot is stored is loaded
    again by the next [handleGetEncounterState]: the session holds an engine
    for it once more, loaded from that snapshot. *)
Theorem ended_encounter_comes_back (sessionId encounterId : string)
    (w : Server) (state : CombatState) :
  encounters w !! encounterId = Some state ->
  let w1 := snd (handleEndEncounter getState sessionId encounterId w) in
  let r := handleGetEncounterState newEngine loadState getState
             sessionId encounterId w1 in
  encounters w1 = encounters w /\
  fst r <> Throw (EncounterNotFound encounterId) /\
  combatManager (snd r) !! namespaced sessionId encounterId
  = Some (loadState state (newEngine encounterId)).
Proof.
  intros He w1 r.
  assert (H1 : encounters w1 = encounters w).
  { unfold w1, handleEndEncounter.
    destruct (combatManager w !! _); [| reflexivity].
    destruct (match getState e with
              | Some finalState => sync_all (participants finalState) (characters w)
              | None => (characters w, [])
              end); reflexivity. }
  assert (H2 : combatManager w1 !! namespaced sessionId encounterId = None).
  { unfold w1, handleEndEncounter.
    destruct (combatManager w !! _) eqn:Hm; [| exact Hm].
    destruct (match getState e with
              | Some finalState => sync_all (participants finalState) (characters w)
              | None => (characters w, [])
              end). simpl. apply lookup_delete_eq. }
  split; [exact H1 |].
  unfold r, handleGetEncounterState, engine_or_autoload.
  rewrite H2, H1, He.
  destruct (getState (loadState state (newEngine encounterId))); simpl;
    (split; [discriminate | apply lookup_insert_eq]).
Qed.

(** X13.  Loading an encounter and then ending it in the same session
    works from any state in which the snapshot is stored: when the engine
    reports the snapshot it was loaded with, the characters end up as the
    write-back of the snapshot's participants leaves them and the session
    holds no engine for the encounter. *)
Theorem load_then_end (sessionId encounterId : string) (w : Server)
    (state : CombatState) :
  encounters w !! encounterId = Some state ->
  getState (loadState state (newEngine encounterId)) = Some state ->
  let w1 := snd (handleLoadEncounter newEngine loadState sessionId encounterId w) in
  handleEndEncounter getState sessionId encounterId w1
  = (Ok (sync_entry (characters w) <$> participants state),
     mkServer (delete (namespaced sessionId encounterId) (combatManager w))
              (encounters w)
              (fst (sync_all (participants state) (characters w)))).
Proof.
  intros He Hg w1. unfold w1, handleLoadEncounter. rewrite He. simpl.
  unfold handleEndEncounter, store_engine. simpl.
  rewrite lookup_insert_eq, Hg.
  destruct (sync_all (participants state) (characters w)) as [chars rs] eqn:E.
  simpl. rewrite delete_insert_eq.
  assert (Hrs : rs = sync_entry (characters w) <$> participants state).
  { change rs with (snd (chars, rs)). rewrite <- E. unfold sync_all.
    rewrite (sync_fold_results _ (characters w)); reflexivity. }
  rewrite Hrs. reflexivity.
Qed.

(** X14.  After [handleExecuteCombatAction] or [handleAdvanceTurn] returns
    normally and reports a state, the session's engine reports that state
    and the persisted snapshot of the encounter is that state: memory and
    store agree after every successful step. *)
Theorem step_persists_state (sessionId : string) (args : ActionArgs)
    (w : Server) :
  (forall result state w',
     handleExecuteCombatAction newEngine loadState getState executeAttack
       executeHeal sessionId args w = (Ok (result, Some state), w') ->
     encounters w' !! a_encounterId args = Some state /\
     exists engine,
       combatManager w' !! namespaced sessionId (a_encounterId args) = Some engine /\
       getState engine = Some state) /\
  (forall previous state w',
     handleAdvanceTurn newEngine loadState getState getCurrentParticipant
       nextTurnWithConditions sessionId (a_encounterId args) w
     = (Ok (previous, Some state), w') ->
     encounters w' !! a_encounterId args = Some state /\
     exists engine,
       combatManager w' !! namespaced sessionId (a_encounterId args) = Some engine /\
       getState engine = Some state).
Proof.
  assert (Hsave : forall (e : Engine) (w0 : @Server Engine) st,
            getState e = Some st ->
            encounters (save_state getState (a_encounterId args) e
                          (store_engine sessionId (a_encounterId args) e w0))
              !! a_encounterId args = Some st /\
            combatManager (save_state getState (a_encounterId args) e
                             (store_engine sessionId (a_encounterId args) e w0))
              !! namespaced sessionId (a_encounterId args) = Some e).
  { intros e w0 st Hst. unfold save_state. rewrite Hst. simpl.
    rewrite !lookup_insert_eq. split; reflexivity. }
  split.
  - intros result state w' H. unfold handleExecuteCombatAction in H.
    destruct (engine_or_autoload _ _ _ _ w) as [[e w1] |]; [| discriminate].
    destruct (a_action args).
    + destruct (a_attackBonus args), (a_dc args), (a_damage args);
        try discriminate.
      destruct (executeAttack _ _ _ _ _ e) as [[res |] e']; simpl in H;
        [| discriminate].
      injection H as <- Hst <-.
      destruct (Hsave e' w1 state Hst) as [A B]. split; [exact A | eauto].
    + destruct (a_amount args); try discriminate.
      destruct (executeHeal _ _ _ e) as [[res |] e']; simpl in H;
        [| discriminate].
      injection H as <- Hst <-.
      destruct (Hsave e' w1 state Hst) as [A B]. split; [exact A | eauto].
  - intros previous state w' H. unfold handleAdvanceTurn in H.
    destruct (engine_or_autoload _ _ _ _ w) as [[e w1] |]; [| discriminate].
    injection H as <- Hst <-.
    destruct (Hsave (nextTurnWithConditions e) w1 state Hst) as [A B].
    split; [exact A | eauto].
Qed.

End MoreFacts.

Lemma end_encounter_reports_witness :
  let final :=
    mkCombatState [mkParticipant "hero" "Valeros" 2 15 false 17 20;
                   mkParticipant "goblin" "Goblin" 1 9 true 0 7]
                  ["hero"; "goblin"]%string 0 2 in
  let w : @Server (option CombatState) :=
    mkServer {[ "s1:enc"%string := Some final ]} ∅
             {[ "hero"%string := mkCharacter "Valeros" ∅ 20 20 1 None ]} in
  fst (handleEndEncounter snapshot_get "s1" "enc" w)
  = Ok [mkSync "hero" "Valeros" 17 true; mkSync "goblin" "Goblin" 0 false].
Proof.
  intros final w.
  exact (proj1 (end_encounter_reports snapshot_get "s1" "enc" w (Some final)
                  eq_refl) final eq_refl).
Defined.

Lemma end_encounter_once_witness :
  let final :=
    mkCombatState [mkParticipant "hero" "Valeros" 2 15 false 17 20]
                  ["hero"]%string 0 2 in
  let w : @Server (option CombatState) :=
    mkServer {[ "s1:enc"%string := Some final ]} ∅
             {[ "hero"%string := mkCharacter "Valeros" ∅ 20 20 1 None ]} in
  let w1 := snd (handleEndEncounter snapshot_get "s1" "enc" w) in
  combatManager w1 !! "s1:enc"%string = None /\
  handleEndEncounter snapshot_get "s1" "enc" w1
  = (Throw (EncounterNotFound "enc"), w1).
Proof.
  intros final w w1.
  destruct (end_encounter_once snapshot_get "s1" "enc" w) as [A B].
  split; [| exact B]. apply A. discriminate.
Defined.

Lemma ended_encounter_comes_back_witness :
  let state :=
    mkCombatState [mkParticipant "hero" "Valeros" 2 15 false 17 20]
                  ["hero"]%string 0 2 in
  let w : @Server (option CombatState) :=
    mkServer {[ "s1:enc"%string := Some state ]} {[ "enc"%string := state ]} ∅ in
  let w1 := snd (handleEndEncounter snapshot_get "s1" "enc" w) in
  let r := handleGetEncounterState snapshot_new snapshot_load snapshot_get
             "s1" "enc" w1 in
  encounters w1 = encounters w /\
  fst r <> Throw (EncounterNotFound "enc") /\
  combatManager (snd r) !! "s1:enc"%string = Some (Some state).
Proof.
  intros state w.
  apply (ended_encounter_comes_back snapshot_new snapshot_load snapshot_get
           "s1" "enc" w state). reflexivity.
Defined.

Lemma load_then_end_witness :
  let state :=
    mkCombatState [mkParticipant "hero" "Valeros" 2 15 false 17 20]
                  ["hero"]%string 0 2 in
  let hero := mkCharacter "Valeros" ∅ 20 20 1 None in
  let w : @Server (option CombatState) :=
    mkServer ∅ {[ "enc"%string := state ]} {[ "hero"%string := hero ]} in
  let w1 := snd (handleLoadEncounter snapshot_new snapshot_load "s1" "enc" w) in
  handleEndEncounter snapshot_get "s1" "enc" w1
  = (Ok (sync_entry (characters w) <$> participants state),
     mkServer (delete "s1:enc"%string (combatManager w)) (encounters w)
              (fst (sync_all (participants state) (characters w)))).
Proof.
  intros state hero w.
  apply (load_then_end snapshot_new snapshot_load snapshot_get "s1" "enc" w state);
    reflexivity.
Defined.

Lemma step_persists_state_witness :
  let state :=
    mkCombatState [mkParticipant "hero" "Valeros" 2 15 false 17 20]
                  ["hero"]%string 0 2 in
  let w : @Server (option CombatState) :=
    mkServer ∅ {[ "enc"%string := state ]} ∅ in
  let args := mkActionArgs "enc" heal "hero" "hero" None None None (Some 3) in
  let r := handleAdvanceTurn snapshot_new snapshot_load snapshot_get
             snapshot_current snapshot_next "s1" "enc" w in
  encounters (snd r) !! "enc"%string = Some state /\
  exists engine,
    combatManager (snd r) !! "s1:enc"%string = Some engine /\
    snapshot_get engine = Some state.
Proof.
  intros state w args r.
  apply (proj2 (step_persists_state snapshot_new snapshot_load snapshot_get
                  snapshot_current snapshot_attack snapshot_heal snapshot_next
                  "s1" args w)
           (snapshot_current (Some state)) state (snd r)).
  reflexivity.
Defined.

End CombatMore.

(** ** Theft: search, recognition and the store *)

Module TheftMore.
Import Random Float64 Float64Facts Theft TheftView.

Section SearchFacts.

Variable compareHeatLevels : HeatLevel -> HeatLevel -> Z.
Variable getStolenItemsHeldBy : string -> TheftStore -> list TheftRecord.

Lemma hottest_fold (items : list TheftRecord) (h0 : HeatLevel) :
  compares_by_rank compareHeatLevels ->
  let h := fold_left (hotter compareHeatLevels) items h0 in
  (heat_rank h0 <= heat_rank h)%nat /\
  (forall i, i ∈ items -> (heat_rank (heatLevel i) <= heat_rank h)%nat) /\
  (h = h0 \/ exists i, i ∈ items /\ heatLevel i = h).
Proof.
  intros Hc. revert h0. induction items as [| i items IH]; intros h0; simpl.
  - split; [lia |]. split; [| left; reflexivity].
    intros i Hi. inversion Hi.
  - destruct (IH (hotter compareHeatLevels h0 i)) as (A & B & C).
    assert (Hstep : (heat_rank h0 <= heat_rank (hotter compareHeatLevels h0 i))%nat /\
                    (heat_rank (heatLevel i)
                     <= heat_rank (hotter compareHeatLevels h0 i))%nat /\
                    (hotter compareHeatLevels h0 i = h0 \/
                     hotter compareHeatLevels h0 i = heatLevel i)).
    { unfold hotter. destruct (0 <? compareHeatLevels (heatLevel i) h0) eqn:E.
      - apply Z.ltb_lt, Hc in E. repeat split; [lia | lia | right; reflexivity].
      - assert (~ (heat_rank h0 < heat_rank (heatLevel i))%nat).
        { intros H. apply Hc, Z.ltb_lt in H. congruence. }
        repeat split; [lia | lia | left; reflexivity]. }
    destruct Hstep as (S1 & S2 & S3).
    split; [lia |]. split.
    + intros j Hj. apply elem_of_cons in Hj as [-> | Hj]; [lia | apply B, Hj].
    + destruct C as [C | (j & Hj & Ej)].
      * destruct S3 as [S3 | S3]; [left; congruence |].
        right. exists i. split; [apply list_elem_of_here | congruence].
      * right. exists j. split; [apply list_elem_of_further, Hj | exact Ej].
Qed.

(** X17.  The search reports every stolen item the repository lists and
    counts them.  When [compareHeatLevels] is positive exactly on a hotter
    first argument, the hottest item reported is at least as hot as every
    listed item and is cold or the heat of one of them, and the detection
    risk is the one of that heat level; it is "none" exactly when every
    listed item is cold (in particular when nothing is listed). *)
Theorem handleSearch_spec (characterId : string) (s : TheftStore) :
  compares_by_rank compareHeatLevels ->
  let r := handleSearch compareHeatLevels getStolenItemsHeldBy characterId s in
  let items := getStolenItemsHeldBy characterId s in
  sr_stolenItemCount r = length items /\
  si_itemId <$> sr_items r = itemId <$> items /\
  (forall i, i ∈ items ->
     (heat_rank (heatLevel i) <= heat_rank (sr_hottestItem r))%nat) /\
  (sr_hottestItem r = cold \/ exists i, i ∈ items /\ heatLevel i = sr_hottestItem r) /\
  sr_detectionRisk r = risk_of (sr_hottestItem r) /\
  (sr_detectionRisk r = "none"%string <-> forall i, i ∈ items -> heatLevel i = cold).
Proof.
  intros Hc r items. unfold r, handleSearch. simpl. fold items.
  destruct (hottest_fold items cold Hc) as (_ & B & C).
  set (h := fold_left (hotter compareHeatLevels) items cold) in *.
  split; [reflexivity |]. split; [rewrite <- list_fmap_compose; reflexivity |].
  split; [exact B |]. split; [exact C |]. split; [reflexivity |].
  split.
  - intros Hnone i Hi. specialize (B i Hi).
    assert (h = cold) by (destruct h; simpl in Hnone; congruence).
    subst h. rewrite H in B. destruct (heatLevel i); simpl in B; try lia.
    reflexivity.
  - intros Hall. destruct C as [-> | (i & Hi & <-)]; [reflexivity |].
    rewrite (Hall i Hi). reflexivity.
Qed.

End SearchFacts.

Lemma rank_difference_compares : compares_by_rank rank_difference.
Proof. intros a b. unfold rank_difference. lia. Qed.

Lemma handleSearch_spec_witness :
  let held (id : string) (s : TheftStore) :=
    filter (fun r => stolenBy r = id) (snd <$> map_to_list (records s)) in
  let s :=
    snd (handleSteal (mkStealArgs "rogue" "merchant" "ring" None None) no_thefts) in
  let r := handleSearch rank_difference held "rogue" s in
  sr_stolenItemCount r = length (held "rogue"%string s) /\
  si_itemId <$> sr_items r = itemId <$> held "rogue"%string s /\
  (forall i, i ∈ held "rogue"%string s ->
     (heat_rank (heatLevel i) <= heat_rank (sr_hottestItem r))%nat) /\
  (sr_hottestItem r = cold \/
   exists i, i ∈ held "rogue"%string s /\ heatLevel i = sr_hottestItem r) /\
  sr_detectionRisk r = risk_of (sr_hottestItem r) /\
  (sr_detectionRisk r = "none"%string <->
   forall i, i ∈ held "rogue"%string s -> heatLevel i = cold).
Proof.
  intros held s.
  apply (handleSearch_spec rank_difference held "rogue" s rank_difference_compares).
Defined.

Example search_runs :
  let held (id : string) (s : TheftStore) :=
    filter (fun r => stolenBy r = id) (snd <$> map_to_list (records s)) in
  let s :=
    snd (handleSteal (mkStealArgs "rogue" "merchant" "ring" None None) no_thefts) in
  sr_detectionRisk (handleSearch rank_difference held "rogue" s) = "very high"%string /\
  sr_detectionRisk (handleSearch rank_difference held "bard" s) = "none"%string.
Proof. vm_compute. split; reflexivity. Qed.

Section RecognitionFacts.

Variable HEAT_VALUES : HeatLevel -> Z.

Lemma recognized_stranger (args : RecognizeArgs) (s : TheftStore) (g : Rng)
    (record : TheftRecord) :
  getTheftRecord (rc_itemId args) s = Some record ->
  rc_npcId args <> stolenFrom record ->
  rc_npcId args ∉ witnesses record ->
  recognized (fst (handleRecognize HEAT_VALUES args s g))
  = Qltb (binary64 (draws g (drawn g) * inject_Z 100))
         (recognitionChance HEAT_VALUES record).
Proof.
  intros Hr Ho Hw. unfold handleRecognize. rewrite Hr.
  destruct (decide _); [contradiction |].
  destruct (decide _); [contradiction |]. simpl.
  destruct (Qltb _ _); reflexivity.
Qed.

Lemma Qltb_true (x y : Q) : Qltb x y = true <-> (x < y)%Q.
Proof.
  unfold Qltb. rewrite negb_true_iff. split.
  - intros H. apply Qnot_le_lt. intros Hle.
    apply Qle_bool_iff in Hle. congruence.
  - intros H. destruct (Qle_bool y x) eqn:E; [| reflexivity].
    apply Qle_bool_iff in E. exfalso. exact (Qlt_not_le _ _ H E).
Qed.

(** The threshold is 100 or the rounded sum, whichever is smaller. *)
Lemma chance_value (record : TheftRecord) :
  let v := binary64 (inject_Z (HEAT_VALUES (heatLevel record))
                     + binary64 (inject_Z (bounty record) / inject_Z 10))%Q in
  ((inject_Z 100 <= v)%Q ->
   recognitionChance HEAT_VALUES record = inject_Z 100) /\
  (~ (inject_Z 100 <= v)%Q -> recognitionChance HEAT_VALUES record = v).
Proof.
  intros v. unfold recognitionChance, Qmin'. fold v.
  destruct (Qle_bool (inject_Z 100) v) eqn:E.
  - split; [reflexivity |]. intros H. apply Qle_bool_iff in E. contradiction.
  - split; [| reflexivity]. intros H. apply Qle_bool_iff in H. congruence.
Qed.

(** The rounded sum grows with the bounty: rounding keeps the order. *)
Lemma rounded_sum_mono (hv b1 b2 : Z) :
  b1 <= b2 ->
  (binary64 (inject_Z hv + binary64 (inject_Z b1 / inject_Z 10))
   <= binary64 (inject_Z hv + binary64 (inject_Z b2 / inject_Z 10)))%Q.
Proof.
  intros Hb. apply binary64_mono.
  assert (Hd : (inject_Z b1 / inject_Z 10 <= inject_Z b2 / inject_Z 10)%Q).
  { apply Qmult_le_compat_r; [rewrite <- Zle_Qle; exact Hb | discriminate]. }
  apply binary64_mono in Hd.
  apply Qplus_le_r. exact Hd.
Qed.

(** X18.  For an npc that is neither the owner nor a witness, raising the
    bounty on a record never turns a recognition into a miss: with the same
    number drawn, an item recognised under the lower bounty is recognised
    under the higher one.  And once heatValue + bounty/10 reaches 100, for a
    heat value of magnitude at most 2^52, the item is recognised whatever
    binary64 number below 1 is drawn.  Roll and threshold are the binary64
    numbers the handler computes. *)
Theorem recognition_grows_with_bounty (args : RecognizeArgs)
    (s1 s2 : TheftStore) (g : Rng) (r1 r2 : TheftRecord) :
  getTheftRecord (rc_itemId args) s1 = Some r1 ->
  getTheftRecord (rc_itemId args) s2 = Some r2 ->
  stolenFrom r1 = stolenFrom r2 -> witnesses r1 = witnesses r2 ->
  heatLevel r1 = heatLevel r2 -> bounty r1 <= bounty r2 ->
  rc_npcId args <> stolenFrom r1 -> rc_npcId args ∉ witnesses r1 ->
  (recognized (fst (handleRecognize HEAT_VALUES args s1 g)) = true ->
   recognized (fst (handleRecognize HEAT_VALUES args s2 g)) = true) /\
  (1000 <= 10 * HEAT_VALUES (heatLevel r1) + bounty r1 ->
   Z.abs (HEAT_VALUES (heatLevel r1)) <= 2 ^ 52 ->
   (binary64 (draws g (drawn g)) == draws g (drawn g))%Q ->
   (draws g (drawn g) < 1)%Q ->
   recognized (fst (handleRecognize HEAT_VALUES args s1 g)) = true).
Proof.
  intros H1 H2 Ho Hw Hh Hb Hno Hnw.
  rewrite (recognized_stranger args s1 g r1 H1 Hno Hnw).
  rewrite (recognized_stranger args s2 g r2 H2) by congruence.
  rewrite !Qltb_true.
  set (x := binary64 (draws g (drawn g) * inject_Z 100)%Q).
  pose proof (chance_value r1) as [A1 B1]. pose proof (chance_value r2) as [A2 B2].
  rewrite <- Hh in A2, B2.
  pose proof (rounded_sum_mono (HEAT_VALUES (heatLevel r1)) _ _ Hb) as Hm.
  set (v1 := binary64 (inject_Z (HEAT_VALUES (heatLevel r1))
                       + binary64 (inject_Z (bounty r1) / inject_Z 10))%Q) in *.
  set (v2 := binary64 (inject_Z (HEAT_VALUES (heatLevel r1))
                       + binary64 (inject_Z (bounty r2) / inject_Z 10))%Q) in *.
  split.
  - intros Hx.
    destruct (Qlt_le_dec v2 (inject_Z 100)) as [L2 | L2].
    + rewrite B2 by (apply Qlt_not_le, L2).
      destruct (Qlt_le_dec v1 (inject_Z 100)) as [L1 | L1].
      * rewrite B1 in Hx by (apply Qlt_not_le, L1).
        eapply Qlt_le_trans; [exact Hx | exact Hm].
      * exfalso. apply (Qlt_not_le _ _ L2).
        eapply Qle_trans; [exact L1 | exact Hm].
    + rewrite A2 by exact L2.
      destruct (Qlt_le_dec v1 (inject_Z 100)) as [L1 | L1].
      * rewrite B1 in Hx by (apply Qlt_not_le, L1).
        eapply Qlt_trans; [exact Hx | exact L1].
      * rewrite A1 in Hx by exact L1. exact Hx.
  - intros Hsat Hheat Hdbl Hlt.
    pose proof (binary64_below_one _ Hdbl Hlt) as Hd.
    assert (P52 : 2 ^ 52 = 4503599627370496) by reflexivity.
    assert (P53 : 2 ^ 53 = 9007199254740992) by reflexivity.
    set (h := HEAT_VALUES (heatLevel r1)) in *.
    assert (Hq : (inject_Z (100 - h) <= inject_Z (bounty r1) / inject_Z 10)%Q).
    { apply Qle_shift_div_l; [reflexivity |].
      rewrite <- inject_Z_mult, <- Zle_Qle. lia. }
    apply binary64_mono in Hq.
    rewrite (binary64_Z (100 - h)) in Hq by lia.
    assert (Hs : (inject_Z 100
                  <= inject_Z h + binary64 (inject_Z (bounty r1) / inject_Z 10))%Q).
    { assert (Em : (inject_Z (100 - h) == inject_Z 100 - inject_Z h)%Q)
        by (unfold Z.sub; rewrite inject_Z_plus, inject_Z_opp; reflexivity).
      rewrite Em in Hq.
      apply (Qplus_le_r _ _ (inject_Z h)) in Hq.
      eapply Qle_trans; [| exact Hq].
      assert (E : (inject_Z h + (inject_Z 100 - inject_Z h) == inject_Z 100)%Q)
        by ring.
      rewrite E. apply Qle_refl. }
    apply binary64_mono in Hs.
    rewrite (binary64_Z 100) in Hs by lia.
    fold v1 in Hs. rewrite A1 by exact Hs.
    unfold x. apply percent_below_100, Hd.
Qed.

End RecognitionFacts.

Lemma recognition_grows_with_bounty_witness :
  let r1 := mkTheftRecord "ring" "merchant" "rogue" None [] burning true 200 in
  let r2 := mkTheftRecord "ring" "merchant" "rogue" None [] burning true 250 in
  let s1 := mkTheftStore {[ "ring"%string := r1 ]} ∅ in
  let s2 := mkTheftStore {[ "ring"%string := r2 ]} ∅ in
  let g := mkRng (fun _ => 7 # 8) 0 in
  let args := mkRecognizeArgs "stranger" "rogue" "ring" in
  recognized (fst (handleRecognize spec_heat_values args s1 g)) = true /\
  recognized (fst (handleRecognize spec_heat_values args s2 g)) = true.
Proof.
  intros r1 r2 s1 s2 g args.
  pose proof (recognition_grows_with_bounty spec_heat_values args s1 s2 g r1 r2
                eq_refl eq_refl eq_refl eq_refl eq_refl
                ltac:(simpl; lia) ltac:(discriminate)
                ltac:(intros H; inversion H)) as [Hmono Hsat].
  assert (H1 : recognized (fst (handleRecognize spec_heat_values args s1 g))
               = true).
  { apply Hsat; [simpl; lia | simpl; lia | vm_compute; reflexivity
                 | reflexivity]. }
  split; [exact H1 | exact (Hmono H1)].
Defined.

(** X19.  Every store the steal and register_fence requests build from
    one in which each record sits under its item id and names a victim other
    than the thief is such a store again: no sequence of requests records a
    theft from oneself. *)
Theorem records_stay_sound (rs : list Request) (s : TheftStore) :
  records_sound s -> records_sound (requests rs s).
Proof.
  revert s. induction rs as [| r rs IH]; intros s Hs; simpl; [exact Hs |].
  apply IH. destruct r as [args | args]; simpl.
  - unfold handleSteal. destruct (decide _) as [| Hne]; [exact Hs |].
    simpl. intros item rec H. simpl in H. rewrite lookup_insert in H.
    destruct (decide (st_itemId args = item)) as [<- |]; [| apply Hs, H].
    injection H as <-. simpl. split; [reflexivity | congruence].
  - unfold handleRegisterFence.
    destruct (0 <? length (getItemsStolenFrom (rf_npcId args) s))%nat;
      [exact Hs |].
    simpl. exact Hs.
Qed.

Lemma records_stay_sound_witness :
  records_sound
    (requests [ReqSteal (mkStealArgs "rogue" "merchant" "ring" None None);
               ReqSteal (mkStealArgs "rogue" "rogue" "coin" None None);
               ReqRegisterFence
                 (mkRegisterFenceArgs "fence" None (2 # 5) hot 100 None 7)]
              no_thefts).
Proof.
  apply records_stay_sound. intros item r H.
  unfold no_thefts in H. simpl in H. rewrite lookup_empty in H. discriminate H.
Defined.

End TheftMore.

(** ** Improvisation: dice, outcomes, stunts, effect lists, spellbook *)

Module ImprovisationMore.
Import Random Js Dice Characters Improvisation Stunts.
Import TheftView.

Lemma unit_draws_next (g : Rng) :
  unit_draws g -> unit_draws (snd (random g)).
Proof. intros H n. apply H. Qed.

Lemma floor_scaled_range (x : Q) (sides : Z) :
  (0 <= x)%Q -> (x < 1)%Q -> 1 <= sides ->
  0 <= Qfloor (x * inject_Z sides) < sides.
Proof.
  intros H0 H1 Hs.
  assert (Hs' : (1 <= inject_Z sides)%Q).
  { change 1%Q with (inject_Z 1). rewrite <- Zle_Qle. exact Hs. }
  pose proof (Qfloor_le (x * inject_Z sides)) as Hlo.
  pose proof (Qlt_floor (x * inject_Z sides)) as Hhi.
  rewrite inject_Z_plus in Hhi. change (inject_Z 1) with 1%Q in Hhi.
  assert (P0 : (0 <= x * inject_Z sides)%Q)
    by (apply Qmult_le_0_compat; lra).
  assert (P1 : (x * inject_Z sides < inject_Z sides)%Q).
  { assert (E : (x * inject_Z sides < 1 * inject_Z sides)%Q)
      by (apply Qmult_lt_compat_r; lra).
    rewrite Qmult_1_l in E. exact E. }
  assert (A : (-1 < Qfloor (x * inject_Z sides))%Z).
  { rewrite Zlt_Qlt. change (inject_Z (-1)) with (-1 # 1)%Q.
    revert Hlo Hhi P0 P1.
    generalize (inject_Z (Qfloor (x * inject_Z sides))).
    generalize (x * inject_Z sides)%Q. intros p q; intros. lra. }
  assert (B : (Qfloor (x * inject_Z sides) < sides)%Z).
  { rewrite Zlt_Qlt. revert Hlo Hhi P0 P1.
    generalize (inject_Z (Qfloor (x * inject_Z sides))).
    generalize (x * inject_Z sides)%Q.
    generalize (inject_Z sides). intros m p q; intros. lra. }
  lia.
Qed.

Lemma roll_die_range (sides : Z) (g : Rng) :
  unit_draws g -> 1 <= sides ->
  on_die sides (fst (roll_die sides g)) /\
  unit_draws (snd (roll_die sides g)) /\
  drawn (snd (roll_die sides g)) = S (drawn g).
Proof.
  intros Hg Hs. unfold roll_die, random. cbn [fst snd].
  split; [| split; [exact Hg | reflexivity]].
  destruct (Hg (drawn g)) as [H0 H1].
  pose proof (floor_scaled_range _ sides H0 H1 Hs) as R.
  unfold on_die. lia.
Qed.

Lemma roll_many_S (n : nat) (sides : Z) (g : Rng) :
  roll_many (S n) sides g =
  (fst (roll_die sides g)
     :: fst (roll_many n sides (snd (roll_die sides g))),
   snd (roll_many n sides (snd (roll_die sides g)))).
Proof.
  change (roll_many (S n) sides g) with
    (let '(r, g1) := roll_die sides g in
     let '(rs, g2) := roll_many n sides g1 in (r :: rs, g2)).
  destruct (roll_die sides g) as [r g1]. cbn [fst snd].
  destruct (roll_many n sides g1) as [rs g2]. reflexivity.
Qed.

Lemma roll_many_range (count : nat) (sides : Z) (g : Rng) :
  unit_draws g -> 1 <= sides ->
  length (fst (roll_many count sides g)) = count /\
  Forall (on_die sides) (fst (roll_many count sides g)) /\
  unit_draws (snd (roll_many count sides g)) /\
  drawn (snd (roll_many count sides g)) = (drawn g + count)%nat.
Proof.
  intros Hg Hs. revert g Hg. induction count as [| n IH]; intros g Hg.
  - split; [reflexivity |]. split; [constructor |].
    split; [exact Hg | simpl; lia].
  - rewrite roll_many_S.
    destruct (roll_die_range sides g Hg Hs) as (R1 & R2 & R3).
    destruct (roll_die sides g) as [r g1]. cbn [fst snd] in *.
    destruct (IH g1 R2) as (L & F & U & D).
    destruct (roll_many n sides g1) as [rs g2]. cbn [fst snd length] in *.
    split; [lia |]. split; [constructor; assumption |].
    split; [exact U | lia].
Qed.

Lemma fold_add_shift (rolls : list Z) (a : Z) :
  fold_left Z.add rolls a = a + fold_left Z.add rolls 0.
Proof.
  revert a. induction rolls as [| r rs IH]; intros a; simpl; [lia |].
  rewrite (IH (a + r)), (IH (0 + r)). lia.
Qed.

Lemma sum_on_die (sides : Z) (rolls : list Z) :
  Forall (on_die sides) rolls ->
  Z.of_nat (length rolls) <= fold_left Z.add rolls 0
  <= Z.of_nat (length rolls) * sides.
Proof.
  induction rolls as [| r rs IH]; intros H; [simpl; lia |].
  apply Forall_cons in H as [Hr Hrs]. specialize (IH Hrs).
  simpl fold_left. rewrite fold_add_shift. unfold on_die in Hr.
  rewrite length_cons, Nat2Z.inj_succ. nia.
Qed.

(** X20.  [rollDice] throws exactly when the notation does not match.  On
    a notation that reads as [count] dice of [sides >= 1] sides with
    modifier [m], fed by a generator of numbers in [0, 1), it draws [count]
    numbers, shows [count] rolls each between 1 and [sides], and returns the
    sum of the rolls plus [m], raised to 0 when negative; so the total lies
    between [max 0 (count + m)] and [max 0 (count * sides + m)]. *)
Theorem rollDice_spec (notation : string) (g : Rng) :
  (match_notation notation = None -> rollDice notation g = None) /\
  (forall count sides m,
     match_notation notation = Some (count, sides, m) ->
     unit_draws g -> 1 <= sides ->
     exists total rolls g',
       rollDice notation g = Some (total, rolls, g') /\
       length rolls = Z.to_nat count /\
       Forall (on_die sides) rolls /\
       drawn g' = (drawn g + Z.to_nat count)%nat /\
       total = Z.max 0 (fold_left Z.add rolls 0 + m) /\
       Z.max 0 (Z.of_nat (Z.to_nat count) + m) <= total
       <= Z.max 0 (Z.of_nat (Z.to_nat count) * sides + m)).
Proof.
  unfold rollDice. split.
  - intros ->. reflexivity.
  - intros count sides m -> Hg Hs.
    destruct (roll_many_range (Z.to_nat count) sides g Hg Hs) as (L & F & _ & D).
    destruct (roll_many (Z.to_nat count) sides g) as [rolls g'].
    simpl in L, F, D. eexists _, _, _. split; [reflexivity |].
    repeat split; try assumption.
    + pose proof (sum_on_die sides rolls F). rewrite L in *. lia.
    + pose proof (sum_on_die sides rolls F). rewrite L in *. lia.
Qed.

Lemma rollDice_spec_witness :
  let g := mkRng (fun n => if Nat.even n then 1 # 3 else 5 # 6) 0 in
  exists total rolls g',
    rollDice "2d6+3" g = Some (total, rolls, g') /\
    length rolls = 2%nat /\
    Forall (on_die 6) rolls /\
    drawn g' = 2%nat /\
    total = Z.max 0 (fold_left Z.add rolls 0 + 3) /\
    Z.max 0 (2 + 3) <= total <= Z.max 0 (2 * 6 + 3).
Proof.
  intros g.
  apply (proj2 (rollDice_spec "2d6+3" g) 2 6 3); [reflexivity | | lia].
  intros n. simpl. destruct (Nat.even n); split; unfold Qle, Qlt; simpl; lia.
Defined.

Example notation_runs :
  match_notation "2d6+3" = Some (2, 6, 3) /\
  match_notation "1D20-1" = Some (1, 20, -1) /\
  match_notation "10d8" = Some (10, 8, 0) /\
  match_notation "d6" = None /\
  match_notation "2d" = None /\
  match_notation "2d6+" = None /\
  match_notation "2d6 " = None /\
  match_notation "-2d6" = None /\
  match_notation "" = None /\
  fst (fst (default (0, [], mkRng (fun _ => 0%Q) 0)
              (rollDice "1d4-9" (mkRng (fun _ => 1 # 2) 0)))) = 0.
Proof. vm_compute. repeat split; reflexivity. Qed.

Lemma rollD20_range (advantage disadvantage : bool) (g : Rng) :
  unit_draws g -> on_die 20 (fst (fst (rollD20 advantage disadvantage g))).
Proof.
  intros Hg. unfold rollD20.
  destruct (roll_die_range 20 g Hg ltac:(lia)) as (A1 & A2 & _).
  destruct (roll_die 20 g) as [r1 g1]. cbn [fst snd] in *.
  destruct (roll_die_range 20 g1 A2 ltac:(lia)) as (B1 & _).
  destruct (roll_die 20 g1) as [r2 g2]. cbn [fst snd] in *.
  unfold on_die in *.
  destruct advantage, disadvantage; cbn [negb andb fst snd]; lia.
Qed.

(** X21.  [rollD20] fed by a generator of numbers in [0, 1) keeps a number
    between 1 and 20.  Without a flag it draws once.  With advantage alone
    it draws twice and keeps the larger roll, with disadvantage alone the
    smaller, and shows both.  With both flags it still draws twice, but
    keeps and shows the first roll only. *)
Theorem rollD20_spec (advantage disadvantage : bool) (g : Rng) :
  unit_draws g ->
  let r1 := fst (roll_die 20 g) in
  let r2 := fst (roll_die 20 (snd (roll_die 20 g))) in
  let out := rollD20 advantage disadvantage g in
  on_die 20 (fst (fst out)) /\
  unit_draws (snd out) /\
  (advantage = false -> disadvantage = false ->
   fst out = (r1, [r1]) /\ drawn (snd out) = S (drawn g)) /\
  (advantage = true -> disadvantage = false ->
   fst out = (Z.max r1 r2, [r1; r2]) /\ drawn (snd out) = S (S (drawn g))) /\
  (advantage = false -> disadvantage = true ->
   fst out = (Z.min r1 r2, [r1; r2]) /\ drawn (snd out) = S (S (drawn g))) /\
  (advantage = true -> disadvantage = true ->
   fst out = (r1, [r1]) /\ drawn (snd out) = S (S (drawn g))).
Proof.
  intros Hg r1 r2 out. subst r1 r2 out. unfold rollD20.
  destruct (roll_die_range 20 g Hg ltac:(lia)) as (A1 & A2 & A3).
  destruct (roll_die 20 g) as [r1 g1]. cbn [fst snd] in *.
  destruct (roll_die_range 20 g1 A2 ltac:(lia)) as (B1 & B2 & B3).
  destruct (roll_die 20 g1) as [r2 g2]. cbn [fst snd] in *.
  unfold on_die in *.
  destruct advantage, disadvantage; cbn [negb andb fst snd];
    (split; [lia |]); (split; [assumption |]);
    repeat split; try discriminate; try congruence.
Qed.

Lemma rollD20_spec_witness :
  let g := mkRng (fun n => if Nat.even n then 1 # 3 else 5 # 6) 0 in
  fst (rollD20 true false g) = (17, [7; 17]) /\
  fst (rollD20 false true g) = (7, [7; 17]) /\
  fst (rollD20 true true g) = (7, [7]) /\
  drawn (snd (rollD20 true true g)) = 2%nat.
Proof.
  intros g.
  assert (Hg : unit_draws g).
  { intros n. simpl. destruct (Nat.even n); split; unfold Qle, Qlt; simpl; lia. }
  pose proof (rollD20_spec true false g Hg) as (_ & _ & _ & A & _).
  pose proof (rollD20_spec false true g Hg) as (_ & _ & _ & _ & B & _).
  pose proof (rollD20_spec true true g Hg) as (_ & _ & _ & _ & _ & C).
  destruct (A eq_refl eq_refl) as [A1 _].
  destruct (B eq_refl eq_refl) as [B1 _].
  destruct (C eq_refl eq_refl) as [C1 C2].
  repeat split; assumption.
Defined.

(** The flags [handleStunt] computes, as one record of the result. *)
Lemma handleStunt_shape (s2a : Skill -> string) (args : StuntArgs)
    (chars : CharacterTable) (g : Rng) (r : StuntResult) :
  handleStunt s2a args chars g = Ok r ->
  let out := rollD20 (su_advantage args) (su_disadvantage args) g in
  let total := sr_roll r + sr_modifier r in
  sr_roll r = fst (fst out) /\ sr_rolls r = snd (fst out) /\
  sr_total r = total /\ sr_dc r = su_dc args /\
  sr_success r =
    ((sr_roll r =? 20) || ((su_dc args <=? total) && negb (sr_roll r =? 1))) /\
  sr_criticalSuccess r =
    ((sr_roll r =? 20)
     || ((su_dc args <=? total) && (su_dc args + 10 <=? total))) /\
  sr_criticalFailure r =
    ((sr_roll r =? 1)
     || (negb (su_dc args <=? total) && (total <=? su_dc args - 10))) /\
  (sr_success r = false ->
   sr_damage r = None /\ sr_damageType r = None /\ sr_targets r = None) /\
  (sr_selfDamage r <> None ->
   sr_success r = false /\ sr_criticalFailure r = true).
Proof.
  unfold handleStunt. intros H. cbv zeta.
  destruct (match findById (su_actorId args) chars with
            | Some actor => _ | None => _ end) as [actorName skillModifier].
  destruct (rollD20 (su_advantage args) (su_disadvantage args) g)
    as [[roll rolls] g1].
  cbn [fst snd].
  set (success := (roll =? 20)
                  || ((su_dc args <=? roll + skillModifier)
                      && negb (roll =? 1))) in *.
  set (critF := (roll =? 1)
                || (negb (su_dc args <=? roll + skillModifier)
                    && (roll + skillModifier <=? su_dc args - 10))) in *.
  destruct (success && truthy_string (su_successDamage args)) eqn:E1.
  - apply andb_true_iff in E1 as [Es _].
    destruct (rollDice _ g1) as [[[t rs] g2] |]; [| discriminate].
    injection H as <-. cbn.
    repeat split; try reflexivity; try congruence.
  - destruct (negb success && critF
              && truthy_string (su_failureDamage args)) eqn:E2.
    + apply andb_true_iff in E2 as [E2 _].
      apply andb_true_iff in E2 as [Es Ec].
      apply negb_true_iff in Es.
      destruct (rollDice _ g1) as [[[t rs] g2] |]; [| discriminate].
      injection H as <-. cbn.
      repeat split; try reflexivity; try assumption.
    + injection H as <-. cbn.
      repeat split; try reflexivity; try congruence.
Qed.

(** X22.  What a stunt reports.  The roll is between 1 and 20 and the
    total is the roll plus the modifier.  The stunt succeeds exactly on a
    natural 20, or on a total that reaches the dc with a roll other than 1.
    It is a critical success exactly on a natural 20 or a total of at least
    dc + 10, and a critical failure exactly on a natural 1 or a total of at
    most dc - 10; so a critical success is a success unless the roll is 1,
    and a critical failure is a failure unless the roll is 20.  A failed
    stunt carries no damage and no targets, and self damage comes only with
    a failure that is critical. *)
Theorem handleStunt_flags (s2a : Skill -> string) (args : StuntArgs)
    (chars : CharacterTable) (g : Rng) (r : StuntResult) :
  unit_draws g ->
  handleStunt s2a args chars g = Ok r ->
  on_die 20 (sr_roll r) /\
  sr_total r = sr_roll r + sr_modifier r /\
  sr_dc r = su_dc args /\
  (sr_success r = true <->
   sr_roll r = 20 \/ (sr_dc r <= sr_total r /\ sr_roll r <> 1)) /\
  (sr_criticalSuccess r = true <->
   sr_roll r = 20 \/ sr_dc r + 10 <= sr_total r) /\
  (sr_criticalFailure r = true <->
   sr_roll r = 1 \/ sr_total r <= sr_dc r - 10) /\
  (sr_roll r <> 1 -> sr_criticalSuccess r = true -> sr_success r = true) /\
  (sr_roll r <> 20 -> sr_criticalFailure r = true -> sr_success r = false) /\
  (sr_success r = false -> sr_damage r = None /\ sr_targets r = None) /\
  (sr_selfDamage r <> None ->
   sr_success r = false /\ sr_criticalFailure r = true).
Proof.
  intros Hg H.
  destruct (handleStunt_shape s2a args chars g r H)
    as (Hr & _ & Ht & Hd & Hs & Hcs & Hcf & Hno & Hself).
  pose proof (rollD20_range (su_advantage args) (su_disadvantage args) g Hg)
    as Hdie.
  rewrite <- Hr in Hdie. rewrite Ht, Hd, Hs, Hcs, Hcf.
  unfold on_die in Hdie.
  split; [exact Hdie |]. split; [reflexivity |]. split; [reflexivity |].
  assert (E20 : (sr_roll r =? 20) = true <-> sr_roll r = 20)
    by apply Z.eqb_eq.
  assert (E1 : (sr_roll r =? 1) = true <-> sr_roll r = 1)
    by apply Z.eqb_eq.
  split; [| split; [| split; [| split; [| split; [| split] ] ] ] ].
  - rewrite orb_true_iff, andb_true_iff, negb_true_iff, Z.leb_le,
      Z.eqb_eq, Z.eqb_neq. tauto.
  - rewrite orb_true_iff, andb_true_iff, !Z.leb_le, Z.eqb_eq. lia.
  - rewrite orb_true_iff, andb_true_iff, negb_true_iff, Z.leb_le,
      Z.leb_gt, Z.eqb_eq. lia.
  - intros N1. rewrite !orb_true_iff, !andb_true_iff, negb_true_iff,
      !Z.leb_le, Z.eqb_eq, Z.eqb_neq. tauto.
  - intros N20.
    rewrite orb_true_iff, andb_true_iff, negb_true_iff, Z.leb_le,
      Z.leb_gt, Z.eqb_eq.
    rewrite orb_false_iff, andb_false_iff, negb_false_iff, Z.leb_gt,
      Z.eqb_neq, Z.eqb_eq. lia.
  - intros Hf. rewrite Hs in Hno. destruct (Hno Hf) as (? & _ & ?).
    split; assumption.
  - intros Hsd. rewrite Hs, Hcf in Hself. exact (Hself Hsd).
Qed.

Lemma handleStunt_flags_witness :
  let s2a := fun _ : Skill => "dexterity"%string in
  let chars : CharacterTable :=
    {[ "hero"%string :=
         mkCharacter "Hero" {[ "dex"%string := 14 ]} 10 10 1 None ]} in
  let args :=
    mkStuntArgs "hero" None acrobatics 12 false false None None None None
      None None false in
  let g := mkRng (fun _ => 1 # 2) 0 in
  exists r,
    handleStunt s2a args chars g = Ok r /\
    on_die 20 (sr_roll r) /\
    sr_total r = sr_roll r + sr_modifier r /\
    (sr_success r = true <->
     sr_roll r = 20 \/ (sr_dc r <= sr_total r /\ sr_roll r <> 1)).
Proof.
  intros s2a chars args g.
  destruct (handleStunt s2a args chars g) as [r |] eqn:E;
    [| vm_compute in E; discriminate].
  exists r. split; [reflexivity |].
  assert (Hg : unit_draws g).
  { intros n. simpl. split; unfold Qle, Qlt; simpl; lia. }
  destruct (handleStunt_flags s2a args chars g r Hg E)
    as (A & B & _ & C & _).
  repeat split; try apply A; try exact B; apply C.
Defined.

(** A natural 1 whose total still reaches dc + 10 is reported as a critical
    success, a critical failure and not a success; a natural 20 whose total
    stays at dc - 10 or below is a success, a critical success and a
    critical failure. *)
Example stunt_both_criticals :
  let s2a := fun _ : Skill => "dexterity"%string in
  let strong : CharacterTable :=
    {[ "hero"%string :=
         mkCharacter "Hero" {[ "dex"%string := 40 ]} 10 10 1 None ]} in
  let weak : CharacterTable :=
    {[ "hero"%string :=
         mkCharacter "Hero" {[ "dex"%string := 1 ]} 10 10 1 None ]} in
  let args dc :=
    mkStuntArgs "hero" None acrobatics dc false false None None None None
      None None false in
  (exists r, handleStunt s2a (args 5) strong (mkRng (fun _ => 0%Q) 0) = Ok r /\
     sr_roll r = 1 /\ sr_total r = 16 /\ sr_success r = false /\
     sr_criticalSuccess r = true /\ sr_criticalFailure r = true) /\
  (exists r, handleStunt s2a (args 35) weak (mkRng (fun _ => 19 # 20) 0) = Ok r /\
     sr_roll r = 20 /\ sr_total r = 15 /\ sr_success r = true /\
     sr_criticalSuccess r = true /\ sr_criticalFailure r = true).
Proof.
  split; eexists; (split; [vm_compute; reflexivity |]); cbn; repeat split.
Qed.

Lemma rollDice_nonneg (notation : string) (g g' : Rng) (t : Z)
    (rolls : list Z) :
  rollDice notation g = Some (t, rolls, g') -> 0 <= t.
Proof.
  unfold rollDice. destruct (match_notation notation) as [[[c s] m] |];
    [| discriminate].
  destruct (roll_many (Z.to_nat c) s g) as [rs g1].
  intros H. injection H as <- _ _. lia.
Qed.

Lemma resolve_target_settled (args : StuntArgs) (dmg : Z)
    (acc : list TargetResult * Rng) (id : string) :
  exists tr,
    fst (resolve_target args dmg acc id) = fst acc ++ [tr] /\
    tr_id tr = id /\ target_settled args dmg tr.
Proof.
  unfold resolve_target, target_settled. destruct acc as [targets g].
  destruct (truthy_string (su_savingThrowAbility args)
            && truthy_number (su_savingThrowDc args)) eqn:E.
  - apply andb_true_iff in E as [Ea Ed].
    destruct (roll_die 20 g) as [saveRoll g1].
    destruct (default 0 (su_savingThrowDc args) <=? saveRoll) eqn:Es;
      cbn [andb].
    + destruct (su_halfDamageOnSave args) eqn:Eh;
        eexists; cbn; rewrite ?Eh; repeat split; assumption.
    + eexists; cbn; repeat split.
  - eexists; cbn; repeat split.
Qed.

Lemma resolve_targets_settled (args : StuntArgs) (dmg : Z) (ids : list string)
    (acc : list TargetResult * Rng) :
  exists ts,
    fst (fold_left (resolve_target args dmg) ids acc) = fst acc ++ ts /\
    tr_id <$> ts = ids /\ Forall (target_settled args dmg) ts.
Proof.
  revert acc. induction ids as [| id ids IH]; intros acc.
  - exists []. cbn. rewrite app_nil_r. repeat split. constructor.
  - cbn [fold_left].
    destruct (resolve_target_settled args dmg acc id) as (tr & E & Hid & Hs).
    destruct (IH (resolve_target args dmg acc id)) as (ts & E' & Hids & Hss).
    exists (tr :: ts). rewrite E', E, <- app_assoc. cbn.
    split; [reflexivity |]. split; [congruence |].
    constructor; assumption.
Qed.

Lemma target_settled_bounds (args : StuntArgs) (dmg : Z) (tr : TargetResult) :
  0 <= dmg -> target_settled args dmg tr -> 0 <= tr_damage tr <= dmg.
Proof.
  unfold target_settled. intros Hd H. destruct (tr_saved tr).
  - destruct H as (_ & _ & _ & ->). destruct (su_halfDamageOnSave args).
    + split; [apply Z.div_pos; lia | apply Z.div_le_upper_bound; lia].
    + lia.
  - destruct H as [-> _]. lia.
Qed.

(** X23.  A successful stunt with a damage notation rolls it once, after
    the d20, and reports the total, doubled on a critical success, and no
    self damage.  With target ids it reports one entry per id, in order.  A
    target that saved (possible only when a saving throw ability and a
    non-zero saving throw dc are given) carries no condition and takes half
    the damage, rounded down, or none; every other target takes the whole
    damage, with the condition when one is given.  No target takes more
    than the damage reported or less than 0. *)
Theorem handleStunt_damage (s2a : Skill -> string) (args : StuntArgs)
    (chars : CharacterTable) (g : Rng) (r : StuntResult) :
  handleStunt s2a args chars g = Ok r ->
  sr_success r = true ->
  truthy_string (su_successDamage args) = true ->
  exists t rolls g2 dmg,
    rollDice (default ""%string (su_successDamage args))
      (snd (rollD20 (su_advantage args) (su_disadvantage args) g))
    = Some (t, rolls, g2) /\
    dmg = (if sr_criticalSuccess r then t * 2 else t) /\
    sr_damage r = Some dmg /\
    sr_selfDamage r = None /\
    match su_targetIds args with
    | None => sr_targets r = None
    | Some ids =>
        exists ts,
          sr_targets r = Some ts /\ tr_id <$> ts = ids /\
          Forall (target_settled args dmg) ts /\
          Forall (fun tr => 0 <= tr_damage tr <= dmg) ts
    end.
Proof.
  intros H Hs Hd.
  pose proof (handleStunt_shape s2a args chars g r H)
    as (_ & _ & _ & _ & Es & _).
  rewrite Hs in Es. symmetry in Es.
  revert H. unfold handleStunt.
  destruct (match findById (su_actorId args) chars with
            | Some actor => _ | None => _ end) as [actorName skillModifier].
  destruct (rollD20 (su_advantage args) (su_disadvantage args) g)
    as [[roll rolls] g1] eqn:ER.
  cbn [fst snd]. intros H.
  destruct ((roll =? 20) || _) eqn:Esucc in H.
  - rewrite Hd in H. cbn [andb] in H.
    destruct (rollDice _ g1) as [[[t rs] g2] |] eqn:ED; [| discriminate].
    pose proof (rollDice_nonneg _ _ _ _ _ ED) as Ht.
    injection H as <-. cbn.
    eexists t, rs, g2, _. split; [reflexivity |]. split; [reflexivity |].
    split; [reflexivity |]. split; [reflexivity |].
    destruct (su_targetIds args) as [ids |]; [| reflexivity].
    match goal with
    | |- context [fold_left (resolve_target args ?d) ids ?a] =>
        destruct (resolve_targets_settled args d ids a) as (ts & E & Hi & Hf);
        assert (0 <= d) by (destruct (_ || _); lia)
    end.
    cbn in E. exists ts. rewrite E. repeat split; try assumption.
    eapply Forall_impl; [exact Hf |].
    intros tr. apply target_settled_bounds. assumption.
  - exfalso. cbn [andb] in H.
    destruct (negb false && _ && _).
    + destruct (rollDice _ g1) as [[[t rs] g2] |]; [| discriminate].
      injection H as <-. cbn in Hs. congruence.
    + injection H as <-. cbn in Hs. congruence.
Qed.

Lemma handleStunt_damage_witness :
  let s2a := fun _ : Skill => "dexterity"%string in
  let args :=
    mkStuntArgs "hero" (Some ["orc"; "imp"]%string) acrobatics 10 false false
      (Some "2d6+1"%string) None None (Some "prone"%string)
      (Some "dex"%string) (Some 12) true in
  let g := mkRng (fun n => if Nat.even n then 7 # 10 else 1 # 4) 0 in
  exists r dmg ts,
    handleStunt s2a args ∅ g = Ok r /\
    sr_damage r = Some dmg /\ sr_selfDamage r = None /\
    sr_targets r = Some ts /\ tr_id <$> ts = ["orc"; "imp"]%string /\
    Forall (target_settled args dmg) ts /\
    Forall (fun tr => 0 <= tr_damage tr <= dmg) ts.
Proof.
  intros s2a args g.
  destruct (handleStunt s2a args ∅ g) as [r |] eqn:E;
    [| vm_compute in E; discriminate].
  assert (Hs : sr_success r = true)
    by (vm_compute in E; injection E as <-; reflexivity).
  destruct (handleStunt_damage s2a args ∅ g r E Hs eq_refl)
    as (t & rolls & g2 & dmg & _ & _ & Hd & Hself & ts & Ht & Hi & Hf & Hb).
  exists r, dmg, ts. repeat split; assumption.
Defined.

(** The same stunt, run: the d20 shows 15, the damage is 2d6+1 = 8, the
    first target fails its save against 12 and is knocked prone, the second
    saves and takes half. *)
Example stunt_runs :
  let s2a := fun _ : Skill => "dexterity"%string in
  let args :=
    mkStuntArgs "hero" (Some ["orc"; "imp"]%string) acrobatics 10 false false
      (Some "2d6+1"%string) None None (Some "prone"%string)
      (Some "dex"%string) (Some 12) true in
  let g := mkRng (fun n => if (n <? 4)%nat then
                             if Nat.even n then 7 # 10 else 1 # 4
                           else 3 # 4) 0 in
  exists r,
    handleStunt s2a args ∅ g = Ok r /\
    sr_roll r = 15 /\ sr_damage r = Some 8 /\
    sr_targets r =
      Some [mkTargetResult "orc" 8 false (Some "prone"%string);
            mkTargetResult "imp" 4 true None].
Proof.
  eexists. split; [vm_compute; reflexivity |]. cbn. repeat split.
Qed.

Lemma rollDice_None (notation : string) (g : Rng) :
  rollDice notation g = None <-> match_notation notation = None.
Proof.
  unfold rollDice. destruct (match_notation notation) as [[[c s] m] |].
  - destruct (roll_many (Z.to_nat c) s g). split; discriminate.
  - tauto.
Qed.

(** X24.  The only error a stunt raises is that of a damage notation that
    does not read: a throw means [successDamage] or [failureDamage] is
    given, non-empty and malformed; and when each notation that is given
    reads, the stunt returns a result. *)
Theorem handleStunt_throws (s2a : Skill -> string) (args : StuntArgs)
    (chars : CharacterTable) (g : Rng) :
  (forall e, handleStunt s2a args chars g = Throw e ->
     e = InvalidDiceNotation /\
     ((truthy_string (su_successDamage args) = true /\
       match_notation (default ""%string (su_successDamage args)) = None) \/
      (truthy_string (su_failureDamage args) = true /\
       match_notation (default ""%string (su_failureDamage args)) = None))) /\
  ((truthy_string (su_successDamage args) = true ->
    match_notation (default ""%string (su_successDamage args)) <> None) ->
   (truthy_string (su_failureDamage args) = true ->
    match_notation (default ""%string (su_failureDamage args)) <> None) ->
   exists r, handleStunt s2a args chars g = Ok r).
Proof.
  unfold handleStunt.
  destruct (match findById (su_actorId args) chars with
            | Some actor => _ | None => _ end) as [actorName skillModifier].
  destruct (rollD20 (su_advantage args) (su_disadvantage args) g)
    as [[roll rolls] g1].
  set (success := (roll =? 20) || _).
  destruct (success && truthy_string (su_successDamage args)) eqn:E1.
  - apply andb_true_iff in E1 as [_ Et].
    destruct (rollDice _ g1) as [[[t rs] g2] |] eqn:ED.
    + split; [discriminate | eauto].
    + apply rollDice_None in ED. split.
      * intros e [= <-]. split; [reflexivity | left; split; assumption].
      * intros H _. destruct (H Et ED).
  - destruct (negb success && _ && truthy_string (su_failureDamage args))
      eqn:E2.
    + apply andb_true_iff in E2 as [_ Et].
      destruct (rollDice _ g1) as [[[t rs] g2] |] eqn:ED.
      * split; [discriminate | eauto].
      * apply rollDice_None in ED. split.
        -- intros e [= <-]. split; [reflexivity | right; split; assumption].
        -- intros _ H. destruct (H Et ED).
    + split; [discriminate | eauto].
Qed.

Lemma handleStunt_throws_witness :
  let s2a := fun _ : Skill => "dexterity"%string in
  let args :=
    mkStuntArgs "hero" None acrobatics 10 false false
      (Some "2d6+1"%string) (Some "1d4"%string) None None None None false in
  exists r, handleStunt s2a args ∅ (mkRng (fun _ => 1 # 2) 0) = Ok r.
Proof.
  intros s2a args.
  apply (proj2 (handleStunt_throws s2a args ∅ (mkRng (fun _ => 1 # 2) 0)));
    intros _; vm_compute; discriminate.
Defined.

(** A malformed [successDamage] raises the error when the stunt succeeds
    and goes unnoticed when it fails. *)
Example stunt_bad_notation :
  let s2a := fun _ : Skill => "dexterity"%string in
  let args :=
    mkStuntArgs "hero" None acrobatics 10 false false
      (Some "two dice"%string) None None None None None false in
  handleStunt s2a args ∅ (mkRng (fun _ => 3 # 4) 0)
  = Throw InvalidDiceNotation /\
  exists r, handleStunt s2a args ∅ (mkRng (fun _ => 1 # 4) 0) = Ok r /\
            sr_success r = false /\ sr_damage r = None.
Proof.
  split; [vm_compute; reflexivity |].
  eexists. split; [vm_compute; reflexivity |]. cbn. split; reflexivity.
Qed.

Lemma pick_outcome_bands (roll total dc : Z) :
  (pick_outcome roll total dc = mastery <-> roll = 20 \/ 10 <= total - dc) /\
  (pick_outcome roll total dc = success <->
   roll <> 20 /\ 0 <= total - dc < 10) /\
  (pick_outcome roll total dc = fizzle <->
   roll <> 20 /\ -5 <= total - dc < 0) /\
  (pick_outcome roll total dc = backfire <->
   roll <> 20 /\ roll <> 1 /\ -10 < total - dc < -5) /\
  (pick_outcome roll total dc = catastrophic <->
   roll <> 20 /\ total - dc < -5 /\ (roll = 1 \/ total - dc <= -10)).
Proof.
  unfold pick_outcome.
  destruct (Z.eqb_spec roll 20), (Z.eqb_spec roll 1),
    (Z.leb_spec 10 (total - dc)), (Z.leb_spec dc total),
    (Z.leb_spec (-5) (total - dc)), (Z.leb_spec (total - dc) (-10));
    cbn [orb]; repeat split; intros; try discriminate; try lia;
    try reflexivity.
Qed.

(** The fields of a synthesize result, read off the handler. *)
Lemma handleSynthesize_shape (table : list WildSurge) (args : SynthesizeArgs)
    (chars : CharacterTable) (spells spells' : list SpellRow) (g : Rng)
    (r : SynthesisResult) :
  handleSynthesize table args chars spells g = (Ok r, spells') ->
  r_roll r = fst (roll_die 20 g) /\
  r_total r = r_roll r + r_modifier r /\
  r_outcome r = pick_outcome (r_roll r) (r_total r) (r_dc r) /\
  r_success r
  = (bool_decide (r_outcome r = mastery)
     || bool_decide (r_outcome r = success)) /\
  r_spellMastered r = bool_decide (r_outcome r = mastery) /\
  r_spellSlotConsumed r = negb (r_spellMastered r) /\
  (r_damage r <> None ->
   effectType args = damage /\ truthy_string (effectDice args) = true /\
   r_success r = true) /\
  (r_healing r <> None ->
   effectType args = healing /\ truthy_string (effectDice args) = true /\
   r_success r = true) /\
  (r_backfireDamage r <> None <-> r_outcome r = backfire) /\
  (r_wildSurge r <> None -> r_outcome r = catastrophic) /\
  (r_addedToSpellbook r <> None <-> r_outcome r = mastery) /\
  (r_outcome r <> mastery -> spells' = spells).
Proof.
  unfold handleSynthesize.
  destruct (caster_profile _ _) as [[name known] modifier].
  destruct (synthesis_dc args known) as [dc bd].
  destruct (roll_die 20 g) as [d20 g1]. cbn [fst].
  destruct (pick_outcome d20 (d20 + modifier) dc) eqn:EO; intros H;
    repeat match type of H with
    | context [match ?x with _ => _ end] => destruct x eqn:?
    | context [if ?x then _ else _] => destruct x eqn:?
    end;
    try discriminate; injection H as <- <-; cbn;
    rewrite ?EO;
    repeat split; intros; try reflexivity; try discriminate;
    try congruence; try assumption.
  all: destruct (truthy_string (effectDice args)); [reflexivity |];
    congruence.
Qed.

(** X25.  How a synthesis attempt is judged.  The d20 shows 1 to 20, the
    total is the roll plus the modifier, and with margin = total - dc the
    outcome is mastery exactly on a natural 20 or a margin of 10 or more;
    otherwise success on a margin of 0 to 9, fizzle on -5 to -1, and below
    that catastrophic on a natural 1 or a margin of -10 or less, backfire on
    the rest (-9 to -6 with a roll other than 1).  The attempt counts as a
    success exactly on a natural 20 or a total that reaches the dc, the
    spell is mastered exactly on mastery, and a slot is consumed exactly
    when it is not. *)
Theorem synthesize_outcome (table : list WildSurge) (args : SynthesizeArgs)
    (chars : CharacterTable) (spells spells' : list SpellRow) (g : Rng)
    (r : SynthesisResult) :
  unit_draws g ->
  handleSynthesize table args chars spells g = (Ok r, spells') ->
  let margin := r_total r - r_dc r in
  on_die 20 (r_roll r) /\
  r_total r = r_roll r + r_modifier r /\
  (r_outcome r = mastery <-> r_roll r = 20 \/ 10 <= margin) /\
  (r_outcome r = success <-> r_roll r <> 20 /\ 0 <= margin < 10) /\
  (r_outcome r = fizzle <-> r_roll r <> 20 /\ -5 <= margin < 0) /\
  (r_outcome r = backfire <->
   r_roll r <> 20 /\ r_roll r <> 1 /\ -10 < margin < -5) /\
  (r_outcome r = catastrophic <->
   r_roll r <> 20 /\ margin < -5 /\ (r_roll r = 1 \/ margin <= -10)) /\
  (r_success r = true <-> r_roll r = 20 \/ r_dc r <= r_total r) /\
  (r_spellMastered r = true <-> r_outcome r = mastery) /\
  r_spellSlotConsumed r = negb (r_spellMastered r).
Proof.
  intros Hg H margin. subst margin.
  destruct (handleSynthesize_shape table args chars spells spells' g r H)
    as (Hr & Ht & Ho & Hs & Hm & Hc & _).
  destruct (roll_die_range 20 g Hg ltac:(lia)) as (Hdie & _).
  rewrite <- Hr in Hdie.
  destruct (pick_outcome_bands (r_roll r) (r_total r) (r_dc r))
    as (B1 & B2 & B3 & B4 & B5).
  rewrite <- Ho in B1, B2, B3, B4, B5.
  repeat (split; [assumption |]).
  split; [| split; [| exact Hc] ].
  - rewrite Hs, orb_true_iff, !bool_decide_eq_true, B1, B2. lia.
  - rewrite Hm, bool_decide_eq_true. tauto.
Qed.

Lemma synthesize_outcome_witness :
  let args :=
    mkSynthesizeArgs "mage" (Some "Spark"%string) 1 evocation utility None
      None None None in
  let g := mkRng (fun _ => 3 # 4) 0 in
  exists r spells',
    handleSynthesize [] args ∅ [] g = (Ok r, spells') /\
    on_die 20 (r_roll r) /\
    r_total r = r_roll r + r_modifier r /\
    (r_outcome r = success <->
     r_roll r <> 20 /\ 0 <= r_total r - r_dc r < 10).
Proof.
  intros args g.
  destruct (handleSynthesize [] args ∅ [] g) as [[r |] spells'] eqn:E;
    [| vm_compute in E; discriminate].
  exists r, spells'. split; [reflexivity |].
  assert (Hg : unit_draws g).
  { intros n. simpl. split; unfold Qle, Qlt; simpl; lia. }
  destruct (synthesize_outcome [] args ∅ [] spells' g r Hg E)
    as (A & B & _ & C & _).
  split; [exact A |]. split; [exact B | exact C].
Defined.

(** X26.  What a synthesize result carries.  Damage or healing is
    reported only for a successful attempt with effect dice whose effect
    type is damage, respectively healing; backfire damage exactly on a
    backfire; a wild surge only on a catastrophic outcome; and
    [addedToSpellbook] exactly on mastery.  The spellbook is left as it was
    by every outcome other than mastery. *)
Theorem synthesize_effects (table : list WildSurge) (args : SynthesizeArgs)
    (chars : CharacterTable) (spells spells' : list SpellRow) (g : Rng)
    (r : SynthesisResult) :
  handleSynthesize table args chars spells g = (Ok r, spells') ->
  (r_damage r <> None ->
   effectType args = damage /\ truthy_string (effectDice args) = true /\
   r_success r = true) /\
  (r_healing r <> None ->
   effectType args = healing /\ truthy_string (effectDice args) = true /\
   r_success r = true) /\
  (r_backfireDamage r <> None <-> r_outcome r = backfire) /\
  (r_wildSurge r <> None -> r_outcome r = catastrophic) /\
  (r_addedToSpellbook r <> None <-> r_outcome r = mastery) /\
  (r_outcome r <> mastery -> spells' = spells).
Proof.
  intros H.
  destruct (handleSynthesize_shape table args chars spells spells' g r H)
    as (_ & _ & _ & _ & _ & _ & A).
  exact A.
Qed.

Lemma synthesize_effects_witness :
  let args :=
    mkSynthesizeArgs "mage" (Some "Spark"%string) 1 evocation damage
      (Some "2d6"%string) None None None in
  let g := mkRng (fun _ => 3 # 10) 0 in
  let old := [mkSpellRow "mage" "Ward" 1 abjuration utility None 12 1] in
  exists r spells',
    handleSynthesize [] args ∅ old g = (Ok r, spells') /\
    r_outcome r = backfire /\ r_backfireDamage r = Some 2 /\
    r_damage r = None /\ spells' = old.
Proof.
  intros args g old.
  destruct (handleSynthesize [] args ∅ old g) as [[r |] spells'] eqn:E;
    [| vm_compute in E; discriminate].
  exists r, spells'. split; [reflexivity |].
  destruct (synthesize_effects [] args ∅ old spells' g r E)
    as (_ & _ & _ & _ & _ & Hkeep).
  assert (Ho : r_outcome r = backfire)
    by (vm_compute in E; injection E as <- _; reflexivity).
  split; [exact Ho |].
  split; [vm_compute in E; injection E as <- _; reflexivity |].
  split; [vm_compute in E; injection E as <- _; reflexivity |].
  apply Hkeep. rewrite Ho. discriminate.
Defined.

Lemma level_notation (n : Z) :
  1 <= n <= 9 -> match_notation (pretty n ++ "d6") = Some (n, 6, 0).
Proof.
  intros H.
  assert (E : n = 1 \/ n = 2 \/ n = 3 \/ n = 4 \/ n = 5 \/ n = 6 \/ n = 7
              \/ n = 8 \/ n = 9) by lia.
  repeat destruct E as [-> | E]; try subst n; vm_compute; reflexivity.
Qed.

Lemma rollDice_total_bounds (notation : string) (g g' : Rng)
    (count sides m t : Z) (rolls : list Z) :
  match_notation notation = Some (count, sides, m) ->
  unit_draws g -> 1 <= sides ->
  rollDice notation g = Some (t, rolls, g') ->
  Z.max 0 (Z.of_nat (Z.to_nat count) + m) <= t
  <= Z.max 0 (Z.of_nat (Z.to_nat count) * sides + m).
Proof.
  unfold rollDice. intros -> Hg Hs.
  destruct (roll_many_range (Z.to_nat count) sides g Hg Hs) as (L & F & _).
  destruct (roll_many (Z.to_nat count) sides g) as [rs g1].
  cbn [fst] in L, F. intros [= <- _ _].
  pose proof (sum_on_die sides rs F). rewrite L in *. lia.
Qed.

(** X27.  For a level from 1 to 9, the only error of a synthesis attempt
    is that of effect dice that do not read, and it is raised only when the
    attempt succeeded (even when the effect type is neither damage nor
    healing), with the spellbook left as it was; with no effect dice, or
    with effect dice that read, the attempt returns a result.  On a backfire
    the caster takes [level]d6: between the level and six times the
    level. *)
Theorem synthesize_throws (table : list WildSurge) (args : SynthesizeArgs)
    (chars : CharacterTable) (spells : list SpellRow) (g : Rng) :
  1 <= estimatedLevel args <= 9 ->
  (forall e spells',
     handleSynthesize table args chars spells g = (Throw e, spells') ->
     e = InvalidDiceNotation /\ spells' = spells /\
     truthy_string (effectDice args) = true /\
     match_notation (default ""%string (effectDice args)) = None /\
     let prof := caster_profile (casterId args) chars in
     let roll := fst (roll_die 20 g) in
     let outcome :=
       pick_outcome roll (roll + snd prof)
         (fst (synthesis_dc args (snd (fst prof)))) in
     outcome = mastery \/ outcome = success) /\
  ((truthy_string (effectDice args) = true ->
    match_notation (default ""%string (effectDice args)) <> None) ->
   exists r spells',
     handleSynthesize table args chars spells g = (Ok r, spells')) /\
  (unit_draws g ->
   forall r spells',
     handleSynthesize table args chars spells g = (Ok r, spells') ->
     r_outcome r = backfire ->
     exists d, r_backfireDamage r = Some d /\
               estimatedLevel args <= d <= 6 * estimatedLevel args).
Proof.
  intros Hl. pose proof (level_notation _ Hl) as Hn.
  unfold handleSynthesize.
  destruct (caster_profile _ _) as [[name known] modifier]. cbn [fst snd].
  destruct (synthesis_dc args known) as [dc bd]. cbn [fst snd].
  assert (Hg1 : unit_draws g -> unit_draws (snd (roll_die 20 g)))
    by (intros Hg; apply (roll_die_range 20 g Hg); lia).
  destruct (roll_die 20 g) as [d20 g1]. cbn [fst snd] in *.
  destruct (pick_outcome d20 (d20 + modifier) dc) eqn:EO.
  all: cycle 3.
  - (* backfire *)
    destruct (rollDice (pretty (estimatedLevel args) ++ "d6") g1)
      as [[[t rs] g2] |] eqn:ED;
      [| apply rollDice_None in ED; congruence].
    split; [intros ? ? [=] |]. split; [eauto |].
    intros Hg r spells' [= <- <-] _. exists t. split; [reflexivity |].
    pose proof (rollDice_total_bounds _ _ _ _ _ _ _ _ Hn (Hg1 Hg)
                  ltac:(lia) ED).
    rewrite Z2Nat.id in *; lia.
  - (* catastrophic *)
    destruct (roll_die 20 g1) as [surge g2].
    split; [intros ? ? [=] |]. split; [eauto |].
    intros _ r spells' [= <- <-] [=].
  - (* mastery *)
    destruct (truthy_string (effectDice args)) eqn:Et.
    + destruct (rollDice _ g1) as [[[t rs] g2] |] eqn:ED.
      * split; [intros ? ? [=] |]. cbn. split; [eauto |].
        intros _ r spells' [= <- <-] [=].
      * apply rollDice_None in ED.
        split; [intros e spells' [= <- <-]; auto 7 |].
        split; [intros H; destruct (H eq_refl ED) |].
        intros _ r spells' [=].
    + split; [intros ? ? [=] |]. cbn. split; [eauto |].
      intros _ r spells' [= <- <-] [=].
  - (* success *)
    destruct (truthy_string (effectDice args)) eqn:Et.
    + destruct (rollDice _ g1) as [[[t rs] g2] |] eqn:ED.
      * split; [intros ? ? [=] |]. cbn. split; [eauto |].
        intros _ r spells' [= <- <-] [=].
      * apply rollDice_None in ED.
        split; [intros e spells' [= <- <-]; auto 7 |].
        split; [intros H; destruct (H eq_refl ED) |].
        intros _ r spells' [=].
    + split; [intros ? ? [=] |]. cbn. split; [eauto |].
      intros _ r spells' [= <- <-] [=].
  - (* fizzle *)
    split; [intros ? ? [=] |]. split; [eauto |].
    intros _ r spells' [= <- <-] [=].
Qed.

Lemma synthesize_throws_witness :
  let args :=
    mkSynthesizeArgs "mage" (Some "Spark"%string) 2 evocation utility
      (Some "2d6"%string) None None None in
  let g := mkRng (fun _ => 3 # 4) 0 in
  1 <= estimatedLevel args <= 9 /\
  exists r spells', handleSynthesize [] args ∅ [] g = (Ok r, spells').
Proof.
  intros args g.
  assert (Hl : 1 <= estimatedLevel args <= 9) by (cbn; lia).
  split; [exact Hl |].
  apply (proj1 (proj2 (synthesize_throws [] args ∅ [] g Hl))).
  intros _. vm_compute. discriminate.
Defined.

(** Effect dice that do not read are an error when the attempt succeeds,
    whatever the effect type, and go unnoticed when it fizzles. *)
Example synthesize_bad_dice :
  let args :=
    mkSynthesizeArgs "mage" (Some "Spark"%string) 1 evocation utility
      (Some "a lot"%string) None None None in
  handleSynthesize [] args ∅ [] (mkRng (fun _ => 3 # 4) 0)
  = (Throw InvalidDiceNotation, []) /\
  exists r, handleSynthesize [] args ∅ [] (mkRng (fun _ => 1 # 2) 0)
            = (Ok r, []) /\ r_outcome r = fizzle.
Proof.
  split; [vm_compute; reflexivity |].
  eexists. split; [vm_compute; reflexivity | reflexivity].
Qed.

#[local] Instance spell_order_total : Total spell_order.
Proof.
  intros a b. unfold spell_order.
  destruct (Z.lt_trichotomy (sp_level a) (sp_level b)) as [H | [H | H]];
    [left; left; exact H | | right; left; exact H].
  destruct (String.leb_total (sp_name a) (sp_name b)) as [L | L];
    [left | right]; right; split; congruence.
Qed.

Lemma file_by_level_fold (rows : list SpellRow) (m : gmap Z (list SpellRow))
    (l : Z) :
  fold_left file_by_level rows m !! l =
  match filter (fun row => sp_level row = l) rows with
  | [] => m !! l
  | fs => Some (default [] (m !! l) ++ fs)
  end.
Proof.
  revert m. induction rows as [| row rows IH]; intros m; [reflexivity |].
  cbn [fold_left]. rewrite IH. unfold file_by_level at 1 2.
  rewrite filter_cons. destruct (decide (sp_level row = l)) as [E | E].
  - rewrite E, lookup_insert_eq.
    destruct (filter _ rows) as [| f fs]; simpl.
    + reflexivity.
    + rewrite <- app_assoc. reflexivity.
  - rewrite lookup_insert_ne by exact E. reflexivity.
Qed.

(** X28.  [get_spellbook] lists the stored spells of the character, of the
    school asked for when one is given, each as often as it is stored, in
    order of level and then name; [count] is their number; and
    [spellsByLevel] has an entry exactly for the levels that occur, holding
    the listed spells of that level in the listed order. *)
Theorem handleGetSpellbook_spec (characterId : string)
    (school : option School) (spells : list SpellRow) :
  let resp := handleGetSpellbook characterId school spells in
  sb_spells resp
    ≡ₚ filter (fun row => selected characterId school row = true) spells /\
  Sorted spell_order (sb_spells resp) /\
  sb_count resp = length (sb_spells resp) /\
  (forall row,
     row ∈ sb_spells resp <->
     row ∈ spells /\ sp_character_id row = characterId /\
     (forall s, school = Some s -> sp_school row = s)) /\
  (forall l,
     sb_spellsByLevel resp !! l =
     match filter (fun row => sp_level row = l) (sb_spells resp) with
     | [] => None
     | rows => Some rows
     end).
Proof.
  unfold handleGetSpellbook, select_spells. cbn.
  split; [apply merge_sort_Permutation |].
  split; [apply (Sorted_merge_sort spell_order) |].
  split; [reflexivity |]. split.
  - intros row. rewrite merge_sort_Permutation, list_elem_of_filter.
    unfold selected. rewrite andb_true_iff, bool_decide_eq_true.
    destruct school as [s |].
    + rewrite bool_decide_eq_true. split.
      * intros [[A B] C]. repeat split; try assumption.
        intros s' [= <-]. exact B.
      * intros (A & B & C). repeat split; auto.
    + split.
      * intros [[A _] C]. repeat split; try assumption. intros s' [=].
      * intros (A & B & _). repeat split; auto.
  - intros l. rewrite file_by_level_fold. rewrite lookup_empty.
    destruct (filter _ _); reflexivity.
Qed.

Lemma mastered_row (table : list WildSurge) (args : SynthesizeArgs)
    (chars : CharacterTable) (spells spells' : list SpellRow) (g : Rng)
    (r : SynthesisResult) :
  handleSynthesize table args chars spells g = (Ok r, spells') ->
  r_addedToSpellbook r = Some true ->
  spells' =
  spells ++ [mkSpellRow (casterId args) (r_spellName r) (estimatedLevel args)
               (school args) (effectType args)
               (if truthy_string (effectDice args)
                then effectDice args else None)
               (r_dc r) 1].
Proof.
  unfold handleSynthesize.
  destruct (caster_profile _ _) as [[name known] modifier].
  destruct (synthesis_dc args known) as [dc bd].
  destruct (roll_die 20 g) as [d20 g1].
  destruct (pick_outcome d20 (d20 + modifier) dc) eqn:EO; intros H;
    repeat match type of H with
    | context [match ?x with _ => _ end] => destruct x eqn:?
    | context [if ?x then _ else _] => destruct x eqn:?
    end;
    try discriminate; injection H as <- <-; cbn; intros Ha;
    try discriminate; reflexivity.
Qed.

(** X29.  A spell the attempt reports as added to the spellbook is there
    on the next [get_spellbook] of the caster, asked with no school or with
    the school of the spell: under the reported name, with the level and
    school of the attempt, the reported dc and one cast; and the count is
    one more than before the attempt. *)
Theorem mastered_spell_listed (table : list WildSurge)
    (args : SynthesizeArgs) (chars : CharacterTable)
    (spells spells' : list SpellRow) (g : Rng) (r : SynthesisResult)
    (asked : option School) :
  handleSynthesize table args chars spells g = (Ok r, spells') ->
  r_addedToSpellbook r = Some true ->
  asked = None \/ asked = Some (school args) ->
  let before := handleGetSpellbook (casterId args) asked spells in
  let after := handleGetSpellbook (casterId args) asked spells' in
  sb_count after = S (sb_count before) /\
  exists row,
    row ∈ sb_spells after /\
    sp_name row = r_spellName r /\ sp_level row = estimatedLevel args /\
    sp_school row = school args /\ sp_synthesis_dc row = r_dc r /\
    sp_times_cast row = 1.
Proof.
  intros H Ha Hs. rewrite (mastered_row _ _ _ _ _ _ _ H Ha).
  set (row := mkSpellRow _ _ _ _ _ _ _ _).
  assert (Sel : selected (casterId args) asked row = true).
  { unfold selected. apply andb_true_iff. split.
    - apply bool_decide_eq_true. reflexivity.
    - destruct Hs as [-> | ->]; [reflexivity |].
      apply bool_decide_eq_true. reflexivity. }
  unfold handleGetSpellbook, select_spells. cbn. split.
  - rewrite !merge_sort_Permutation, filter_app, length_app.
    rewrite filter_cons, decide_True by exact Sel. cbn. lia.
  - exists row. split; [| repeat split].
    rewrite merge_sort_Permutation, list_elem_of_filter.
    split; [exact Sel |]. apply elem_of_app. right. apply list_elem_of_here.
Qed.

Lemma mastered_spell_listed_witness :
  let args :=
    mkSynthesizeArgs "mage" (Some "Spark"%string) 1 evocation damage
      (Some "2d6"%string) None None None in
  let g := mkRng (fun _ => 19 # 20) 0 in
  let old := [mkSpellRow "mage" "Ward" 1 abjuration utility None 12 1;
              mkSpellRow "bard" "Song" 1 enchantment utility None 12 1] in
  exists r spells',
    handleSynthesize [] args ∅ old g = (Ok r, spells') /\
    sb_count (handleGetSpellbook "mage" None spells') = 2%nat /\
    exists row,
      row ∈ sb_spells (handleGetSpellbook "mage" None spells') /\
      sp_name row = "Spark"%string.
Proof.
  intros args g old.
  destruct (handleSynthesize [] args ∅ old g) as [[r |] spells'] eqn:E;
    [| vm_compute in E; discriminate].
  exists r, spells'. split; [reflexivity |].
  assert (Ha : r_addedToSpellbook r = Some true)
    by (vm_compute in E; injection E as <- _; reflexivity).
  assert (Hn : r_spellName r = "Spark"%string)
    by (vm_compute in E; injection E as <- _; reflexivity).
  destruct (mastered_spell_listed [] args ∅ old spells' g r None E Ha
              (or_introl eq_refl)) as (C & row & Hin & Hname & _).
  split; [exact C |].
  exists row. split; [exact Hin | congruence].
Defined.

Lemma three_filters_permutation {A : Type} (P Q R : A -> Prop)
    `{!forall x, Decision (P x)} `{!forall x, Decision (Q x)}
    `{!forall x, Decision (R x)} (l : list A) :
  (forall x, (P x /\ ~ Q x /\ ~ R x) \/ (~ P x /\ Q x /\ ~ R x)
             \/ (~ P x /\ ~ Q x /\ R x)) ->
  filter P l ++ filter Q l ++ filter R l ≡ₚ l.
Proof.
  intros Hone. induction l as [| x l IH]; [reflexivity |].
  rewrite !filter_cons.
  destruct (Hone x) as [(HP & HQ & HR) | [(HP & HQ & HR) | (HP & HQ & HR)]];
    destruct (decide (P x)), (decide (Q x)), (decide (R x));
    try contradiction.
  - cbn [app]. rewrite IH. reflexivity.
  - cbn [app]. rewrite <- Permutation_middle, IH. reflexivity.
  - rewrite app_assoc, <- Permutation_middle, <- app_assoc, IH. reflexivity.
Qed.

(** X30.  In the answer of [get_effects] the lists [boons], [curses] and
    [other] split the effects returned: put together they hold every
    returned effect exactly as often as it is returned, [boons] holds boons
    only, [curses] curses only and [other] neutral and transformative
    effects only, each list in the order of the effects returned; so every
    effect is in exactly one of the lists, and [count], the number of
    effects returned, is the sum of their lengths. *)
Theorem getEffectsResponse_partition {Effect : Type}
    (category : Effect -> Category) (effects : list Effect) :
  let resp := getEffectsResponse category effects in
  er_effects resp = effects /\
  er_count resp = length effects /\
  er_boons resp ++ er_curses resp ++ er_other resp ≡ₚ effects /\
  Forall (fun e => category e = boon) (er_boons resp) /\
  Forall (fun e => category e = curse) (er_curses resp) /\
  Forall (fun e => category e = neutral \/ category e = transformative)
         (er_other resp) /\
  er_boons resp `sublist_of` effects /\
  er_curses resp `sublist_of` effects /\
  er_other resp `sublist_of` effects /\
  er_count resp
  = (length (er_boons resp) + length (er_curses resp)
     + length (er_other resp))%nat.
Proof.
  cbn.
  assert (Hp : filter (fun e => category e = boon) effects
               ++ filter (fun e => category e = curse) effects
               ++ filter (fun e => category e <> boon /\ category e <> curse)
                    effects
               ≡ₚ effects).
  { apply three_filters_permutation. intros e.
    destruct (category e);
      [left | right; left | right; right | right; right];
      intuition congruence. }
  split; [reflexivity |]. split; [reflexivity |]. split; [exact Hp |].
  split; [apply Forall_forall; intros e H;
          apply list_elem_of_filter in H; tauto |].
  split; [apply Forall_forall; intros e H;
          apply list_elem_of_filter in H; tauto |].
  split.
  { apply Forall_forall. intros e H. apply list_elem_of_filter in H.
    destruct H as [[A B] _]. destruct (category e); auto; congruence. }
  split; [apply sublist_filter |]. split; [apply sublist_filter |].
  split; [apply sublist_filter |].
  rewrite <- Hp at 1. rewrite !length_app. lia.
Qed.

End ImprovisationMore.
